(** * CircularList: a circular doubly-linked list with a sentinel node

    Shallow embedding of [src/Container.h] (namespace [stl_containers]) and
    the properties of its specification.

    Nodes live in a store addressed by pointers; list objects live in a
    second store addressed by their [this] pointer.  Every member function is
    a state transformer that can finish normally, throw, run into undefined
    behaviour (a null or dangling dereference), call [std::terminate], or run
    out of loop fuel. *)

From stdpp Require Import base numbers option list gmap.
From Stdlib Require Import NArith Lia.

Local Open Scope N_scope.

Set Warnings "-clear-no-such-hyp".

(** ** Data model *)

(** A [Node*]; [nullptr] is address 0. *)
Abbreviation ptr := N (only parsing).

Definition nullptr : ptr := 0.

(** Pointers and [std::size_t] are 64 bits wide. *)
Definition WORD : N := 2 ^ 64.

(** [struct Node { T value; Node* next; Node* prev; }] *)
Record Node (T : Type) := mkNode {
  value : T;
  next : ptr;
  prev : ptr
}.
Arguments mkNode {T} _ _ _.
Arguments value {T} _.
Arguments next {T} _.
Arguments prev {T} _.

(** The data members of [CircularList]: [Node* temp_node_; size_type size_]. *)
Record CircularList := mkList {
  temp_node_ : ptr;
  size_ : N
}.

#[global] Instance CircularList_eq_dec : EqDecision CircularList.
Proof. solve_decision. Defined.

(** The data members of [iterator] and of [const_iterator], whose member
    functions have the same bodies: [Node* current_; Node* temp_node_]. *)
Record iterator := mkIter {
  current_ : ptr;
  it_temp_node_ : ptr
}.

#[global] Instance iterator_eq_dec : EqDecision iterator.
Proof. solve_decision. Defined.

(** The machine state: the node store, the allocation frontier of
    [operator new] (every address at or above [brk] is unused), and the store
    of list objects. *)
Record state (T : Type) := mkState {
  nodes : gmap N (Node T);
  brk : N;
  lists : gmap N CircularList
}.
Arguments mkState {T} _ _ _.
Arguments nodes {T} _.
Arguments brk {T} _.
Arguments lists {T} _.

Inductive exn := out_of_range | bad_alloc.

Inductive outcome (T A : Type) :=
| Ok (a : A) (st : state T)
| Throw (e : exn) (st : state T)
| Undefined
| Terminate
| OutOfFuel.
Arguments Ok {T A} _ _.
Arguments Throw {T A} _ _.
Arguments Undefined {T A}.
Arguments Terminate {T A}.
Arguments OutOfFuel {T A}.

(** ** The monad of member functions *)

Definition M (T A : Type) : Type := state T → outcome T A.

Definition ret {T A} (a : A) : M T A := λ st, Ok a st.

Definition bind {T A B} (m : M T A) (k : A → M T B) : M T B :=
  λ st, match m st with
        | Ok a st' => k a st'
        | Throw e st' => Throw e st'
        | Undefined => Undefined
        | Terminate => Terminate
        | OutOfFuel => OutOfFuel
        end.

Definition throw {T A} (e : exn) : M T A := λ st, Throw e st.

(** A [noexcept] function: an exception that reaches its boundary calls
    [std::terminate]. *)
Definition noexcept {T A} (m : M T A) : M T A :=
  λ st, match m st with
        | Throw _ _ => Terminate
        | r => r
        end.

(** A constructor that delegates to another one and then throws from its
    own body: the object is complete by then, so its destructor runs before
    the exception goes on.  An exception out of that destructor calls
    [std::terminate]. *)
Definition unwind {T A} (cleanup : M T unit) (body : M T A) : M T A :=
  λ st, match body st with
        | Throw e st1 =>
            match cleanup st1 with
            | Ok _ st2 => Throw e st2
            | Throw _ _ => Terminate
            | Undefined => Undefined
            | Terminate => Terminate
            | OutOfFuel => OutOfFuel
            end
        | r => r
        end.

Declare Scope cxx_scope.
Delimit Scope cxx_scope with cxx.
Notation "x <- m ;; k" := (bind m (λ x, k))
  (at level 100, m at next level, right associativity) : cxx_scope.
Notation "m ;;; k" := (bind m (λ _, k))
  (at level 100, right associativity) : cxx_scope.
Local Open Scope cxx_scope.

Section Model.
Context {T : Type} `{!Inhabited T}.

Local Abbreviation M := (M T).

(** *** Node store primitives *)

Definition set_nodes (f : gmap N (Node T) → gmap N (Node T)) (st : state T) : state T :=
  mkState (f (nodes st)) (brk st) (lists st).

Definition set_lists (f : gmap N CircularList → gmap N CircularList) (st : state T) : state T :=
  mkState (nodes st) (brk st) (f (lists st)).

(** The node at [p] with one member replaced; nothing if [p] is not live. *)
Definition upd_next (p q : ptr) : state T → state T :=
  set_nodes (alter (λ n, mkNode (value n) q (prev n)) p).

Definition upd_prev (p q : ptr) : state T → state T :=
  set_nodes (alter (λ n, mkNode (value n) (next n) q) p).

Definition upd_value (p : ptr) (v : T) : state T → state T :=
  set_nodes (alter (λ n, mkNode v (next n) (prev n)) p).

(** A new node at the allocation frontier, which moves up by one. *)
Definition alloc_node (v : T) (st : state T) : state T :=
  mkState (<[brk st := mkNode v nullptr nullptr]> (nodes st))
          (brk st + 1) (lists st).

Definition free_node (p : ptr) : state T → state T :=
  set_nodes (delete p).

(** [p->value], [p->next], [p->prev] as rvalues. *)
Definition load {A} (f : Node T → A) (p : ptr) : M A :=
  λ st, match nodes st !! p with
        | Some n => Ok (f n) st
        | None => Undefined
        end.

(** [p->next = q] *)
Definition store_next (p q : ptr) : M unit :=
  λ st, match nodes st !! p with
        | Some _ => Ok () (upd_next p q st)
        | None => Undefined
        end.

(** [p->prev = q] *)
Definition store_prev (p q : ptr) : M unit :=
  λ st, match nodes st !! p with
        | Some _ => Ok () (upd_prev p q st)
        | None => Undefined
        end.

(** [p->value = v] *)
Definition store_value (p : ptr) (v : T) : M unit :=
  λ st, match nodes st !! p with
        | Some _ => Ok () (upd_value p v st)
        | None => Undefined
        end.

(** [new Node(v)]: the node constructors set both links to [nullptr].  The
    allocator hands out the frontier address and advances it; it throws
    [std::bad_alloc] when the 64-bit address space is used up. *)
Definition new_Node (v : T) : M ptr :=
  λ st, if decide (brk st < WORD)
        then Ok (brk st) (alloc_node v st)
        else Throw bad_alloc st.

(** [delete p]: nothing for [nullptr], undefined for a pointer that is not
    live. *)
Definition delete_Node (p : ptr) : M unit :=
  λ st, if decide (p = nullptr) then Ok () st
        else match nodes st !! p with
             | Some _ => Ok () (free_node p st)
             | None => Undefined
             end.

(** *** List object primitives: [this->temp_node_], [this->size_] *)

Definition get_temp_node (this : ptr) : M ptr :=
  λ st, match lists st !! this with
        | Some l => Ok (temp_node_ l) st
        | None => Undefined
        end.

Definition get_size (this : ptr) : M N :=
  λ st, match lists st !! this with
        | Some l => Ok (size_ l) st
        | None => Undefined
        end.

Definition set_temp_node (this : ptr) (p : ptr) : M unit :=
  λ st, match lists st !! this with
        | Some l => Ok () (set_lists <[this := mkList p (size_ l)]> st)
        | None => Undefined
        end.

Definition set_size (this : ptr) (n : N) : M unit :=
  λ st, match lists st !! this with
        | Some l => Ok () (set_lists <[this := mkList (temp_node_ l) n]> st)
        | None => Undefined
        end.

(** ** [iterator] / [const_iterator] *)

(** [iterator(Node* node = nullptr, Node* temp_node = nullptr)] *)
Definition iterator_default : iterator := mkIter nullptr nullptr.

(** [operator*] *)
Definition deref (it : iterator) : M T :=
  if decide (current_ it = it_temp_node_ it) then throw out_of_range
  else load value (current_ it).

(** [operator->]: [&current_->value], the address of the value, identified
    with the node that holds it; forming it goes through [current_], which
    has to be live. *)
Definition arrow (it : iterator) : M ptr :=
  if decide (current_ it = it_temp_node_ it) then throw out_of_range
  else _ <- load value (current_ it) ;; ret (current_ it).

(** [*it = v]: assignment through the reference returned by [operator*]. *)
Definition assign (it : iterator) (v : T) : M unit :=
  if decide (current_ it = it_temp_node_ it) then throw out_of_range
  else store_value (current_ it) v.

(** [operator++()] *)
Definition incr (it : iterator) : M iterator :=
  if decide (current_ it = it_temp_node_ it) then throw out_of_range
  else n <- load next (current_ it) ;;
       ret (mkIter n (it_temp_node_ it)).

(** [operator--()] *)
Definition decr (it : iterator) : M iterator :=
  c <- load prev (current_ it) ;;
  if decide (c = it_temp_node_ it)
  then c' <- load prev c ;; ret (mkIter c' (it_temp_node_ it))
  else ret (mkIter c (it_temp_node_ it)).

(** [operator++(int)] and [operator--(int)]: the copy taken before the step,
    paired with the stepped iterator. *)
Definition post_incr (it : iterator) : M (iterator * iterator) :=
  it' <- incr it ;; ret (it, it').

Definition post_decr (it : iterator) : M (iterator * iterator) :=
  it' <- decr it ;; ret (it, it').

(** [operator==], [operator!=] *)
Definition iter_eq (a b : iterator) : bool := bool_decide (current_ a = current_ b).

Definition iter_ne (a b : iterator) : bool := negb (iter_eq a b).


(** ** [CircularList] member functions *)

(** Constructing an object at [this] from its member initialisers. *)
Definition init_members (this : ptr) (l : CircularList) : M unit :=
  λ st, Ok () (set_lists <[this := l]> st).

(** The object at [this] ceases to exist at the end of its destructor. *)
Definition end_lifetime (this : ptr) : M unit :=
  λ st, match lists st !! this with
        | Some _ => Ok () (set_lists (delete this) st)
        | None => Undefined
        end.

(** [CircularList() : temp_node_(new Node(T())), size_(0)] *)
Definition CircularList_default (this : ptr) : M unit :=
  s <- new_Node inhabitant ;;
  init_members this (mkList s 0) ;;;
  t <- get_temp_node this ;; t' <- get_temp_node this ;; store_next t t' ;;;
  t <- get_temp_node this ;; t' <- get_temp_node this ;; store_prev t t'.

(** [size()] *)
Definition size (this : ptr) : M N := get_size this.

(** [empty()]: [size_ == 0] *)
Definition empty (this : ptr) : M bool :=
  s <- get_size this ;; ret (bool_decide (s = 0)).

(** [begin()], [cbegin()] *)
Definition begin (this : ptr) : M iterator :=
  noexcept (t <- get_temp_node this ;; n <- load next t ;;
            t' <- get_temp_node this ;; ret (mkIter n t')).

(** [end()], [cend()] *)
Definition end_ (this : ptr) : M iterator :=
  noexcept (t <- get_temp_node this ;; t' <- get_temp_node this ;;
            ret (mkIter t t')).

(** [emplace(pos, args...)] with the value already built from [args]. *)
Definition emplace (this : ptr) (pos : iterator) (v : T) : M iterator :=
  newNode <- new_Node v ;;
  let target := current_ pos in
  store_next newNode target ;;;
  tp <- load prev target ;; store_prev newNode tp ;;;
  tp <- load prev target ;; store_next tp newNode ;;;
  store_prev target newNode ;;;
  sz <- get_size this ;; set_size this ((sz + 1) mod WORD) ;;;
  t <- get_temp_node this ;; ret (mkIter newNode t).

(** [insert(pos, value)], both overloads. *)
Definition insert (this : ptr) (pos : iterator) (v : T) : M iterator :=
  emplace this pos v.

(** [push_back(value)] *)
Definition push_back (this : ptr) (v : T) : M unit :=
  e <- end_ this ;; _ <- insert this e v ;; ret ().

(** [push_front(value)] *)
Definition push_front (this : ptr) (v : T) : M unit :=
  b <- begin this ;; _ <- insert this b v ;; ret ().

(** [erase(pos)] *)
Definition erase (this : ptr) (pos : iterator) : M iterator :=
  e <- empty this ;;
  if e : bool then throw out_of_range
  else
    let target := current_ pos in
    t <- get_temp_node this ;;
    if decide (target = t) then throw out_of_range
    else
      tn <- load next target ;; tp <- load prev target ;; store_next tp tn ;;;
      tp <- load prev target ;; tn <- load next target ;; store_prev tn tp ;;;
      tn <- load next target ;; t <- get_temp_node this ;;
      let next_it := mkIter tn t in
      delete_Node target ;;;
      sz <- get_size this ;; set_size this ((sz + WORD - 1) mod WORD) ;;;
      ret next_it.

(** [pop_front()] *)
Definition pop_front (this : ptr) : M unit :=
  b <- begin this ;; _ <- erase this b ;; ret ().

(** [pop_back()] *)
Definition pop_back (this : ptr) : M unit :=
  e <- end_ this ;; e' <- decr e ;; _ <- erase this e' ;; ret ().

(** [clear()]: [while (!empty()) pop_front();] *)
Fixpoint clear_loop (fuel : nat) (this : ptr) : M unit :=
  match fuel with
  | O => λ _, OutOfFuel
  | S fuel' =>
      e <- empty this ;;
      if e : bool then ret () else pop_front this ;;; clear_loop fuel' this
  end.

Definition clear (fuel : nat) (this : ptr) : M unit :=
  noexcept (clear_loop fuel this).

(** [front()] and [back()], returning the value referred to. *)
Definition front (this : ptr) : M T :=
  e <- empty this ;;
  if e : bool then throw out_of_range
  else t <- get_temp_node this ;; n <- load next t ;; load value n.

Definition back (this : ptr) : M T :=
  e <- empty this ;;
  if e : bool then throw out_of_range
  else t <- get_temp_node this ;; p <- load prev t ;; load value p.

(** [~CircularList()] *)
Definition CircularList_dtor (fuel : nat) (this : ptr) : M unit :=
  clear fuel this ;;;
  t <- get_temp_node this ;; delete_Node t ;;;
  end_lifetime this.

(** [for (const auto& item : init) push_back(item);] *)
Fixpoint push_back_each (this : ptr) (items : list T) : M unit :=
  match items with
  | [] => ret ()
  | item :: rest => push_back this item ;;; push_back_each this rest
  end.

(** [CircularList(std::initializer_list<T> init) : CircularList()].  The
    loop adds at most [length init] elements, so the destructor that runs
    when the loop throws is given one round more than that. *)
Definition CircularList_init (this : ptr) (init : list T) : M unit :=
  CircularList_default this ;;;
  unwind (CircularList_dtor (S (length init)) this) (push_back_each this init).

(** [for (const auto& item : other) push_back(item);] with the range-for
    written out: [for (; it != e; ++it) { push_back( *it); }] *)
Fixpoint copy_loop (fuel : nat) (this : ptr) (it e : iterator) : M unit :=
  match fuel with
  | O => λ _, OutOfFuel
  | S fuel' =>
      if iter_ne it e
      then item <- deref it ;; push_back this item ;;;
           it' <- incr it ;; copy_loop fuel' this it' e
      else ret ()
  end.

Definition copy_from (fuel : nat) (this other : ptr) : M unit :=
  b <- begin other ;; e <- end_ other ;; copy_loop fuel this b e.

(** [CircularList(const CircularList& other) : CircularList()] *)
Definition CircularList_copy (fuel : nat) (this other : ptr) : M unit :=
  CircularList_default this ;;;
  unwind (CircularList_dtor fuel this) (copy_from fuel this other).

(** [CircularList(CircularList&& other) noexcept] *)
Definition CircularList_move (this other : ptr) : M unit :=
  noexcept (t <- get_temp_node other ;; sz <- get_size other ;;
            init_members this (mkList t sz) ;;;
            set_temp_node other nullptr ;;;
            set_size other 0).

(** [operator=(const CircularList& other)] *)
Definition copy_assign (fuel : nat) (this other : ptr) : M unit :=
  if decide (this ≠ other)
  then clear fuel this ;;; copy_from fuel this other
  else ret ().

(** [operator=(CircularList&& other) noexcept] *)
Definition move_assign (fuel : nat) (this other : ptr) : M unit :=
  noexcept (
    if decide (this ≠ other)
    then clear fuel this ;;;
         t <- get_temp_node this ;; delete_Node t ;;;
         ot <- get_temp_node other ;; set_temp_node this ot ;;;
         os <- get_size other ;; set_size this os ;;;
         set_temp_node other nullptr ;;;
         set_size other 0
    else ret ()).

(** ** [std::reverse_iterator<iterator>]

    The adapter of the standard library: it stores a base iterator,
    dereferences the position before it and steps by decrementing it. *)

Record reverse_iterator := mkRev { base : iterator }.

(** [*r]: [Iter tmp = current; return *--tmp;] *)
Definition rev_deref (r : reverse_iterator) : M T :=
  tmp <- decr (base r) ;; deref tmp.

(** [++r]: [--current] *)
Definition rev_incr (r : reverse_iterator) : M reverse_iterator :=
  b <- decr (base r) ;; ret (mkRev b).

Definition rev_ne (a b : reverse_iterator) : bool := iter_ne (base a) (base b).

(** [rbegin()], [crbegin()] *)
Definition rbegin (this : ptr) : M reverse_iterator :=
  noexcept (e <- end_ this ;; ret (mkRev e)).

(** [rend()], [crend()] *)
Definition rend (this : ptr) : M reverse_iterator :=
  noexcept (b <- begin this ;; ret (mkRev b)).

(** ** Traversals, as client code writes them *)

(** [for (auto it = l.begin(); it != l.end(); ++it) out.push_back( *it);] *)
Fixpoint forward_loop (fuel : nat) (this : ptr) (it : iterator) (out : list T)
    : M (list T) :=
  match fuel with
  | O => λ _, OutOfFuel
  | S fuel' =>
      e <- end_ this ;;
      if iter_ne it e
      then v <- deref it ;; it' <- incr it ;;
           forward_loop fuel' this it' (out ++ [v])
      else ret out
  end.

Definition collect_forward (fuel : nat) (this : ptr) : M (list T) :=
  b <- begin this ;; forward_loop fuel this b [].

(** [for (auto it = l.rbegin(); it != l.rend(); ++it) out.push_back( *it);] *)
Fixpoint reverse_loop (fuel : nat) (this : ptr) (it : reverse_iterator)
    (out : list T) : M (list T) :=
  match fuel with
  | O => λ _, OutOfFuel
  | S fuel' =>
      e <- rend this ;;
      if rev_ne it e
      then v <- rev_deref it ;; it' <- rev_incr it ;;
           reverse_loop fuel' this it' (out ++ [v])
      else ret out
  end.

Definition collect_reverse (fuel : nat) (this : ptr) : M (list T) :=
  b <- rbegin this ;; reverse_loop fuel this b [].

(** [--it] repeated [n] times. *)
Fixpoint decr_n (n : nat) (it : iterator) : M iterator :=
  match n with
  | O => ret it
  | S n' => it' <- decr it ;; decr_n n' it'
  end.

(** ** Calls a client can make on a list object *)

Inductive op :=
| PushBack (v : T)
| PushFront (v : T)
| Emplace (pos : iterator) (v : T)
| Insert (pos : iterator) (v : T)
| Erase (pos : iterator)
| PopFront
| PopBack
| Clear (fuel : nat)
| Assign (pos : iterator) (v : T)
| Front
| Back
| Size
| Empty
| Begin
| End
| RBegin
| REnd.

(** The call [o] on the list at [this], its result dropped. *)
Definition run_op (this : ptr) (o : op) : M unit :=
  match o with
  | PushBack v => push_back this v
  | PushFront v => push_front this v
  | Emplace pos v => _ <- emplace this pos v ;; ret ()
  | Insert pos v => _ <- insert this pos v ;; ret ()
  | Erase pos => _ <- erase this pos ;; ret ()
  | PopFront => pop_front this
  | PopBack => pop_back this
  | Clear fuel => clear fuel this
  | Assign pos v => assign pos v
  | Front => _ <- front this ;; ret ()
  | Back => _ <- back this ;; ret ()
  | Size => _ <- size this ;; ret ()
  | Empty => _ <- empty this ;; ret ()
  | Begin => _ <- begin this ;; ret ()
  | End => _ <- end_ this ;; ret ()
  | RBegin => _ <- rbegin this ;; ret ()
  | REnd => _ <- rend this ;; ret ()
  end.

End Model.
Arguments op : clear implicits.

(** ** Representation invariant *)

Section Invariant.
Context {T : Type}.

(** The members of the node at [a], if it is live. *)
Definition next_of (st : state T) (a : ptr) : option ptr := next <$> nodes st !! a.
Definition prev_of (st : state T) (a : ptr) : option ptr := prev <$> nodes st !! a.
Definition value_of (st : state T) (a : ptr) : option T := value <$> nodes st !! a.

(** [a->next == b && b->prev == a] *)
Definition linked (st : state T) (a b : ptr) : Prop :=
  next_of st a = Some b ∧ prev_of st b = Some a.

(** Every two neighbours of the sequence are linked in both directions. *)
Fixpoint path (st : state T) (l : list ptr) : Prop :=
  match l with
  | [] => True
  | a :: r => match r with
              | [] => True
              | b :: _ => linked st a b ∧ path st r
              end
  end.

Definition first_or (d : ptr) (l : list ptr) : ptr := default d (head l).
Definition last_or (d : ptr) (l : list ptr) : ptr := default d (last l).

(** The store is well formed: live nodes are non-null and lie below the
    allocation frontier, which stays within the address space. *)
Definition store_ok (st : state T) : Prop :=
  0 < brk st ∧ brk st ≤ WORD ∧
  ∀ a, is_Some (nodes st !! a) → 0 < a ∧ a < brk st.

(** The ring of sentinel [s]: following [next] from [s] visits the distinct
    nodes of [cells] in order, each holding its value, and comes back to [s];
    following [prev] walks the same ring backwards. *)
Definition ring (st : state T) (s : ptr) (cells : list (ptr * T)) : Prop :=
  NoDup (s :: cells.*1) ∧
  path st (s :: cells.*1 ++ [s]) ∧
  Forall (λ c, value_of st c.1 = Some c.2) cells.

(** The list object at [this] owns the ring of sentinel [s], and its size
    counter is the number of element nodes. *)
Definition is_list (st : state T) (this s : ptr) (cells : list (ptr * T)) : Prop :=
  lists st !! this = Some (mkList s (N.of_nat (length cells))) ∧
  ring st s cells.

(** The ring invariant of the list object at [this]: it has a sentinel whose
    ring is well formed and a size counter that counts the element nodes. *)
Definition ring_invariant (st : state T) (this : ptr) : Prop :=
  ∃ s cells, is_list st this s cells.

(** A position of the list: the sentinel or one of the element nodes. *)
Definition valid_pos (s : ptr) (cells : list (ptr * T)) (p : ptr) : Prop :=
  p = s ∨ p ∈ cells.*1.

(** Nodes reachable from [a] through [next] and [prev] links. *)
Inductive reach (st : state T) (a : ptr) : ptr → Prop :=
| reach_refl : reach st a a
| reach_next b c : reach st a b → next_of st b = Some c → reach st a c
| reach_prev b c : reach st a b → prev_of st b = Some c → reach st a c.

(** Nothing of the store changes outside the nodes [owned] and the list
    object at [this]; the allocation frontier never moves down. *)
Definition frame (this : ptr) (owned : list ptr) (st st' : state T) : Prop :=
  brk st ≤ brk st' ∧
  (∀ o, o ≠ this → lists st' !! o = lists st !! o) ∧
  (∀ x, is_Some (next_of st x) → x ∉ owned →
        next_of st' x = next_of st x ∧ prev_of st' x = prev_of st x ∧
        value_of st' x = value_of st x).

(** Two lists own different nodes. *)
Definition apart (s : ptr) (cells : list (ptr * T)) (so : ptr) (co : list (ptr * T)) : Prop :=
  ∀ x, valid_pos so co x → ¬ valid_pos s cells x.

(** [it] is an iterator of the list at [this]: it carries the list's
    sentinel and points at a node of the list's ring. *)
Definition iter_of (st : state T) (this : ptr) (it : iterator) : Prop :=
  ∃ l, lists st !! this = Some l ∧
       it_temp_node_ it = temp_node_ l ∧
       reach st (temp_node_ l) (current_ it).

(** What a call requires: its iterator belongs to the list, and the loop of
    [clear] is given as many rounds as the size counter asks for. *)
Definition op_pre (st : state T) (this : ptr) (o : op T) : Prop :=
  match o with
  | Emplace pos _ | Insert pos _ | Erase pos | Assign pos _ => iter_of st this pos
  | Clear fuel => ∃ l, lists st !! this = Some l ∧ (N.to_nat (size_ l) < fuel)%nat
  | _ => True
  end.

(** One call by the client, who catches what it throws. *)
Definition op_step `{!Inhabited T} (this : ptr) (st st' : state T) : Prop :=
  ∃ o, op_pre st this o ∧
       (run_op this o st = Ok () st' ∨ ∃ e, run_op this o st = Throw e st').

(** The invariants are decidable on a concrete store. *)
#[global] Instance linked_dec (st : state T) a b : Decision (linked st a b).
Proof. unfold linked. apply _. Defined.

#[global] Instance path_dec (st : state T) l : Decision (path st l).
Proof. induction l as [|a [|b l] IH]; simpl; apply _. Defined.

#[global] Instance store_ok_dec (st : state T) : Decision (store_ok st).
Proof.
  refine (cast_if (decide (0 < brk st ∧ brk st ≤ WORD ∧
            map_Forall (λ a _, 0 < a ∧ a < brk st) (nodes st)))).
  - destruct a as (? & ? & Hall). split_and!; [done..|].
    intros x [n Hx]. exact (Hall x n Hx).
  - intros (? & ? & Hall). apply n. split_and!; [done..|].
    intros x n' Hx. apply Hall. eauto.
Defined.

#[global] Instance ring_dec `{!EqDecision T} (st : state T) s cells : Decision (ring st s cells).
Proof. unfold ring. apply _. Defined.

#[global] Instance is_list_dec `{!EqDecision T} (st : state T) this s cells :
  Decision (is_list st this s cells).
Proof. unfold is_list. apply _. Defined.

#[global] Instance valid_pos_dec s (cells : list (ptr * T)) p : Decision (valid_pos s cells p).
Proof. unfold valid_pos. apply _. Defined.

End Invariant.

(** A store with nothing in it; address 0 is the null pointer, so the
    allocation frontier starts at 1. *)
Definition empty_state {T} : state T := mkState ∅ 1 ∅.

(** The value-initialised element [T()] of a sentinel is 0 for [int]. *)
#[global] Instance int_default : Inhabited Z := populate 0%Z.

(** The list [{1, 2, 3}] constructed at address 100 in an empty store. *)
Definition list123 : state Z :=
  match CircularList_init 100 [1; 2; 3]%Z empty_state with
  | Ok _ st => st
  | _ => empty_state
  end.

Definition cells123 : list (ptr * Z) := [(2, 1%Z); (3, 2%Z); (4, 3%Z)].

(** A default-constructed list at address 100 in an empty store. *)
Definition list0 : state Z :=
  match CircularList_default 100 empty_state with
  | Ok _ st => st
  | _ => empty_state
  end.

(** A list at address 200 move-constructed from the list [{1, 2, 3}]. *)
Definition moved123 : state Z :=
  match CircularList_move 200 100 list123 with
  | Ok _ st => st
  | _ => list123
  end.

(** The list [{1, 2, 3}] at address 100 and a second list [{7, 8}]
    constructed at address 200. *)
Definition two_lists : state Z :=
  match CircularList_init 200 [7; 8]%Z list123 with
  | Ok _ st => st
  | _ => list123
  end.

Definition cells78 : list (ptr * Z) := [(6, 7%Z); (7, 8%Z)].

(** A store whose allocator has nothing left, holding one empty list. *)
Definition full_store : state Z :=
  mkState {[ 1 := mkNode 0%Z 1 1 ]} WORD {[ 100 := mkList 1 0 ]}.

(** The two lists after [erase] of the first element of the second one. *)
Definition two_lists_erased : state Z :=
  match run_op 200 (Erase (mkIter 6 5)) two_lists with
  | Ok _ st => st
  | _ => two_lists
  end.

(** A list [{1}] constructed at address 100 in an empty store. *)
Definition list1 : state Z :=
  match CircularList_init 100 [1]%Z empty_state with
  | Ok _ st => st
  | _ => empty_state
  end.

(** The list [{1}] at address 100 and a second list [{7, 8}] constructed at
    address 200. *)
Definition one_and_two : state Z :=
  match CircularList_init 200 [7; 8]%Z list1 with
  | Ok _ st => st
  | _ => list1
  end.

(** The state after [b.erase(a.begin())] with [a] the list at address 100
    and [b] the list at address 200: a call on the second list with an
    iterator of the first. *)
Definition crossed : state Z :=
  match run_op 200 (Erase (mkIter 2 1)) one_and_two with
  | Ok _ st => st
  | _ => one_and_two
  end.

(** ** Positions by index, and what a call is expected to throw *)

Section Positions.
Context {T : Type} `{!Inhabited T}.

(** [++it] repeated [n] times. *)
Fixpoint incr_n (n : nat) (it : iterator) : M T iterator :=
  match n with
  | O => ret it
  | S n' => it' <- incr it ;; incr_n n' it'
  end.

(** [auto it = l.begin(); for (k = 0; k < i; ++k) ++it;] *)
Definition nth_pos (this : ptr) (i : nat) : M T iterator :=
  b <- begin this ;; incr_n i b.

(** [l = {x1, ..., xn};] as the tests write it: the class has no assignment
    from an initializer list, so a temporary at [tmp] is constructed from the
    list, move-assigned to [l], and destroyed at the end of the statement. *)
Definition assign_from_init (fuel : nat) (this tmp : ptr) (xs : list T) : M T unit :=
  CircularList_init tmp xs ;;; move_assign fuel this tmp ;;; CircularList_dtor fuel tmp.

(** The state in which a move leaves its argument. *)
Definition moved_from (st : state T) (this : ptr) : Prop :=
  lists st !! this = Some (mkList nullptr 0).

(** The exception a call raises on a list of sentinel [s] holding [cells],
    read off the [throw] statements of the members and the allocations they
    make. *)
Definition expected_throw (st : state T) (s : ptr) (cells : list (ptr * T))
    (o : op T) : option exn :=
  match o with
  | PushBack _ | PushFront _ | Emplace _ _ | Insert _ _ =>
      if decide (brk st < WORD) then None else Some bad_alloc
  | Erase pos =>
      match cells with
      | [] => Some out_of_range
      | _ => if decide (current_ pos = s) then Some out_of_range else None
      end
  | PopFront | PopBack | Front | Back =>
      match cells with
      | [] => Some out_of_range
      | _ => None
      end
  | Assign pos _ =>
      if decide (current_ pos = it_temp_node_ pos) then Some out_of_range else None
  | Clear _ | Size | Empty | Begin | End | RBegin | REnd => None
  end.

(** The list at [this] holds the sequence [xs]: a client that walks it from
    [begin()] to [end()] collects [xs], one that walks it from [rbegin()] to
    [rend()] collects [xs] reversed, and [size()] returns the length. *)
Definition contents (st : state T) (this : ptr) (xs : list T) : Prop :=
  size this st = Ok (N.of_nat (length xs)) st ∧
  ∀ fuel, (length xs < fuel)%nat →
    collect_forward fuel this st = Ok xs st ∧
    collect_reverse fuel this st = Ok (reverse xs) st.

(** A computation without a loop of its own. *)
Definition loop_free {A} (m : M T A) : Prop := ∀ st, m st ≠ OutOfFuel.

(** A computation that leaves the list objects as they are when it
    completes. *)
Definition keeps_lists {A} (m : M T A) : Prop :=
  ∀ st a st', m st = Ok a st' → lists st' = lists st.

(** A computation that lowers the size counter of the list at [this] by
    one, modulo the word size, when it completes. *)
Definition counts_down {A} (this : ptr) (m : M T A) : Prop :=
  ∀ st a st', m st = Ok a st' →
    ∃ l, lists st !! this = Some l ∧
         lists st' !! this = Some (mkList (temp_node_ l) ((size_ l + WORD - 1) mod WORD)).

#[global] Instance apart_dec s (cells : list (ptr * T)) so co :
  Decision (apart s cells so co).
Proof.
  refine (cast_if (decide (Forall (λ x, ¬ valid_pos s cells x) (so :: co.*1)))).
  - intros x Hx. rewrite Forall_forall in f. apply f.
    destruct Hx as [->|Hx]; [by left|by right].
  - intros Hap. apply n. apply Forall_forall. intros x Hx. apply Hap.
    apply elem_of_cons in Hx as [->|Hx]; [by left|by right].
Defined.

End Positions.

(** ** A heap of list objects and the calls a program makes on them *)

Section Heap.
Context {T : Type} `{!Inhabited T}.

(** What a program does with list objects: a member call, an assignment,
    a construction or a destruction. *)
Inductive call :=
| Member (this : ptr) (o : op T)
| CopyAssign (fuel : nat) (this other : ptr)
| MoveAssign (fuel : nat) (this other : ptr)
| NewDefault (this : ptr)
| NewInit (this : ptr) (init : list T)
| NewCopy (fuel : nat) (this other : ptr)
| NewMove (this other : ptr)
| Destroy (fuel : nat) (this : ptr).

Definition run_call (c : call) : M T unit :=
  match c with
  | Member this o => run_op this o
  | CopyAssign fuel this other => copy_assign fuel this other
  | MoveAssign fuel this other => move_assign fuel this other
  | NewDefault this => CircularList_default this
  | NewInit this init => CircularList_init this init
  | NewCopy fuel this other => CircularList_copy fuel this other
  | NewMove this other => CircularList_move this other
  | Destroy fuel this => CircularList_dtor fuel this
  end.

(** The list object at [this] exists, and [fuel] rounds are more than its
    size counter asks for. *)
Definition has_fuel (st : state T) (this : ptr) (fuel : nat) : Prop :=
  ∃ l, lists st !! this = Some l ∧ (N.to_nat (size_ l) < fuel)%nat.

(** What a call requires: the objects it names exist, the storage of an
    object it constructs holds no object, an iterator it is given is an
    iterator of the list it is called on, and the loop of [clear()] is given
    the rounds the size counter asks for. *)
Definition call_pre (st : state T) (c : call) : Prop :=
  match c with
  | Member this o => is_Some (lists st !! this) ∧ op_pre st this o
  | CopyAssign fuel this other => has_fuel st this fuel ∧ is_Some (lists st !! other)
  | MoveAssign fuel this other => has_fuel st this fuel ∧ is_Some (lists st !! other)
  | NewDefault this | NewInit this _ => lists st !! this = None
  | NewCopy _ this other | NewMove this other =>
      lists st !! this = None ∧ is_Some (lists st !! other)
  | Destroy fuel this => has_fuel st this fuel
  end.

(** The computation returns or throws, leaving the state [st']: its
    behaviour is defined. *)
Definition lands (m : M T unit) (st st' : state T) : Prop :=
  m st = Ok () st' ∨ ∃ e, m st = Throw e st'.

Definition returns (c : call) : state T → state T → Prop := lands (run_call c).

(** One call by the program, which catches what the call throws. *)
Definition heap_step (st st' : state T) : Prop :=
  ∃ c, call_pre st c ∧ returns c st st'.

(** The states of a program that starts without list objects. *)
Definition heap_reachable (st : state T) : Prop :=
  ∃ st0, store_ok st0 ∧ lists st0 = ∅ ∧ rtc heap_step st0 st.

(** A list object is settled when it satisfies the ring invariant or has
    been moved from. *)
Definition settled (st : state T) (this : ptr) : Prop :=
  ring_invariant st this ∨ moved_from st this.

(** Every list object is settled, and no two lists share a node. *)
Definition heap_ok (st : state T) : Prop :=
  store_ok st ∧
  (∀ this, is_Some (lists st !! this) → settled st this) ∧
  (∀ this other s so cells co,
     this ≠ other → is_list st this s cells → is_list st other so co →
     apart s cells so co).

(** Every list keeps its state: one that satisfied the ring invariant still
    does, and one that had been moved from is still so. *)
Definition same_status (st st' : state T) : Prop :=
  ∀ o, (ring_invariant st o → ring_invariant st' o) ∧
       (moved_from st o → moved_from st' o).

(** The lists that lose their ring by a call: the source of a move, the
    destination of a move assignment whose source has been moved from, and
    a list that is destroyed. *)
Definition loses (st : state T) (c : call) (o : ptr) : Prop :=
  match c with
  | MoveAssign _ this other =>
      this ≠ other ∧ (o = other ∨ (o = this ∧ moved_from st other))
  | NewMove _ other => o = other
  | Destroy _ this => o = this
  | _ => False
  end.

(** What a call that completes sets up. *)
Definition establishes (st st' : state T) (c : call) : Prop :=
  match c with
  | NewDefault this | NewInit this _ | NewCopy _ this _ => ring_invariant st' this
  | NewMove this other =>
      moved_from st' other ∧ (ring_invariant st other → ring_invariant st' this)
  | MoveAssign _ this other =>
      this ≠ other →
      moved_from st' other ∧ (ring_invariant st other → ring_invariant st' this)
  | _ => True
  end.

End Heap.
Arguments call : clear implicits.

(** ** The store seen through the members of its nodes *)

Section Views.
Context {T : Type}.
Implicit Types (st : state T) (p q x : ptr).

Lemma next_of_upd_next st p q x :
  next_of (upd_next p q st) x = if decide (x = p) then (λ _, q) <$> next_of st x else next_of st x.
Proof.
  unfold next_of, upd_next, set_nodes; simpl. rewrite lookup_alter.
  repeat case_decide; subst; try congruence. by destruct (nodes st !! _).
Qed.

Lemma prev_of_upd_next st p q x : prev_of (upd_next p q st) x = prev_of st x.
Proof.
  unfold prev_of, upd_next, set_nodes; simpl. rewrite lookup_alter.
  case_decide; subst; [|done]. by destruct (nodes st !! x).
Qed.

Lemma value_of_upd_next st p q x : value_of (upd_next p q st) x = value_of st x.
Proof.
  unfold value_of, upd_next, set_nodes; simpl. rewrite lookup_alter.
  case_decide; subst; [|done]. by destruct (nodes st !! x).
Qed.

Lemma next_of_upd_prev st p q x : next_of (upd_prev p q st) x = next_of st x.
Proof.
  unfold next_of, upd_prev, set_nodes; simpl. rewrite lookup_alter.
  case_decide; subst; [|done]. by destruct (nodes st !! x).
Qed.

Lemma prev_of_upd_prev st p q x :
  prev_of (upd_prev p q st) x = if decide (x = p) then (λ _, q) <$> prev_of st x else prev_of st x.
Proof.
  unfold prev_of, upd_prev, set_nodes; simpl. rewrite lookup_alter.
  repeat case_decide; subst; try congruence. by destruct (nodes st !! _).
Qed.

Lemma value_of_upd_prev st p q x : value_of (upd_prev p q st) x = value_of st x.
Proof.
  unfold value_of, upd_prev, set_nodes; simpl. rewrite lookup_alter.
  case_decide; subst; [|done]. by destruct (nodes st !! x).
Qed.

Lemma next_of_upd_value st p (v : T) x : next_of (upd_value p v st) x = next_of st x.
Proof.
  unfold next_of, upd_value, set_nodes; simpl. rewrite lookup_alter.
  case_decide; subst; [|done]. by destruct (nodes st !! x).
Qed.

Lemma prev_of_upd_value st p (v : T) x : prev_of (upd_value p v st) x = prev_of st x.
Proof.
  unfold prev_of, upd_value, set_nodes; simpl. rewrite lookup_alter.
  case_decide; subst; [|done]. by destruct (nodes st !! x).
Qed.

Lemma value_of_upd_value st p (v : T) x :
  value_of (upd_value p v st) x = if decide (x = p) then (λ _, v) <$> value_of st x else value_of st x.
Proof.
  unfold value_of, upd_value, set_nodes; simpl. rewrite lookup_alter.
  repeat case_decide; subst; try congruence. by destruct (nodes st !! _).
Qed.

Lemma next_of_alloc st (v : T) x :
  next_of (alloc_node v st) x = if decide (x = brk st) then Some nullptr else next_of st x.
Proof.
  unfold next_of, alloc_node; simpl. rewrite lookup_insert.
  repeat case_decide; subst; simpl; congruence.
Qed.

Lemma prev_of_alloc st (v : T) x :
  prev_of (alloc_node v st) x = if decide (x = brk st) then Some nullptr else prev_of st x.
Proof.
  unfold prev_of, alloc_node; simpl. rewrite lookup_insert.
  repeat case_decide; subst; simpl; congruence.
Qed.

Lemma value_of_alloc st (v : T) x :
  value_of (alloc_node v st) x = if decide (x = brk st) then Some v else value_of st x.
Proof.
  unfold value_of, alloc_node; simpl. rewrite lookup_insert.
  repeat case_decide; subst; simpl; congruence.
Qed.

Lemma next_of_free st p x :
  next_of (free_node p st) x = if decide (x = p) then None else next_of st x.
Proof.
  unfold next_of, free_node, set_nodes; simpl. rewrite lookup_delete.
  repeat case_decide; subst; simpl; congruence.
Qed.

Lemma prev_of_free st p x :
  prev_of (free_node p st) x = if decide (x = p) then None else prev_of st x.
Proof.
  unfold prev_of, free_node, set_nodes; simpl. rewrite lookup_delete.
  repeat case_decide; subst; simpl; congruence.
Qed.

Lemma value_of_free st p x :
  value_of (free_node p st) x = if decide (x = p) then None else value_of st x.
Proof.
  unfold value_of, free_node, set_nodes; simpl. rewrite lookup_delete.
  repeat case_decide; subst; simpl; congruence.
Qed.

Lemma next_of_set_lists st f x : next_of (set_lists f st) x = next_of st x.
Proof. done. Qed.

Lemma prev_of_set_lists st f x : prev_of (set_lists f st) x = prev_of st x.
Proof. done. Qed.

Lemma value_of_set_lists st f x : value_of (set_lists f st) x = value_of st x.
Proof. done. Qed.

End Views.

Create Rewrite HintDb views.
#[global] Hint Rewrite
  @next_of_upd_next @prev_of_upd_next @value_of_upd_next
  @next_of_upd_prev @prev_of_upd_prev @value_of_upd_prev
  @next_of_upd_value @prev_of_upd_value @value_of_upd_value
  @next_of_alloc @prev_of_alloc @value_of_alloc
  @next_of_free @prev_of_free @value_of_free
  @next_of_set_lists @prev_of_set_lists @value_of_set_lists : views.

(** Normalise the members of a node in an updated store and decide the
    pointer comparisons that come up. *)
Ltac views :=
  autorewrite with views in *;
  repeat (case_decide; subst; simpl in * );
  simplify_eq; simpl in *;
  repeat match goal with
    | H : next_of ?st ?x = _ |- context [next_of ?st ?x] => rewrite H
    | H : prev_of ?st ?x = _ |- context [prev_of ?st ?x] => rewrite H
    | H : value_of ?st ?x = _ |- context [value_of ?st ?x] => rewrite H
    end;
  simpl; eauto; try congruence.

(** ** Running the primitives *)

Section Exec.
Context {T : Type} `{!Inhabited T}.
Implicit Types (st : state T) (p q x : ptr).

Lemma bind_ok {A B} (m : M T A) (k : A → M T B) st a st' :
  m st = Ok a st' → bind m k st = k a st'.
Proof. unfold bind. by intros ->. Qed.

Lemma bind_throw {A B} (m : M T A) (k : A → M T B) st e st' :
  m st = Throw e st' → bind m k st = Throw e st'.
Proof. unfold bind. by intros ->. Qed.

Lemma noexcept_ok {A} (m : M T A) st a st' :
  m st = Ok a st' → noexcept m st = Ok a st'.
Proof. unfold noexcept. by intros ->. Qed.

Lemma unwind_ok {A} (cleanup : M T unit) (m : M T A) st a st' :
  m st = Ok a st' → unwind cleanup m st = Ok a st'.
Proof. unfold unwind. by intros ->. Qed.

Lemma live_next st x : is_Some (nodes st !! x) ↔ is_Some (next_of st x).
Proof. unfold next_of. by rewrite fmap_is_Some. Qed.

Lemma live_prev st x : is_Some (nodes st !! x) ↔ is_Some (prev_of st x).
Proof. unfold prev_of. by rewrite fmap_is_Some. Qed.

Lemma live_value st x : is_Some (nodes st !! x) ↔ is_Some (value_of st x).
Proof. unfold value_of. by rewrite fmap_is_Some. Qed.

Lemma load_next_view st p q : next_of st p = Some q → load next p st = Ok q st.
Proof. unfold next_of, load. destruct (nodes st !! p); naive_solver. Qed.

Lemma load_prev_view st p q : prev_of st p = Some q → load prev p st = Ok q st.
Proof. unfold prev_of, load. destruct (nodes st !! p); naive_solver. Qed.

Lemma load_value_view st p v : value_of st p = Some v → load value p st = Ok v st.
Proof. unfold value_of, load. destruct (nodes st !! p); naive_solver. Qed.

Lemma load_dead {A} (f : Node T → A) st p : nodes st !! p = None → load f p st = Undefined.
Proof. unfold load. by intros ->. Qed.

Lemma store_next_view st p q :
  is_Some (next_of st p) → store_next p q st = Ok () (upd_next p q st).
Proof. rewrite <-live_next. unfold store_next. by intros [? ->]. Qed.

Lemma store_prev_view st p q :
  is_Some (next_of st p) → store_prev p q st = Ok () (upd_prev p q st).
Proof. rewrite <-live_next. unfold store_prev. by intros [? ->]. Qed.

Lemma store_value_view st p (v : T) :
  is_Some (next_of st p) → store_value p v st = Ok () (upd_value p v st).
Proof. rewrite <-live_next. unfold store_value. by intros [? ->]. Qed.

Lemma new_Node_ok st (v : T) :
  brk st < WORD → new_Node v st = Ok (brk st) (alloc_node v st).
Proof. unfold new_Node. intros. by rewrite decide_True. Qed.

Lemma new_Node_full st (v : T) :
  ¬ brk st < WORD → new_Node v st = Throw bad_alloc st.
Proof. unfold new_Node. intros. by rewrite decide_False. Qed.

Lemma delete_Node_view st p :
  p ≠ nullptr → is_Some (next_of st p) → delete_Node p st = Ok () (free_node p st).
Proof.
  rewrite <-live_next. unfold delete_Node. intros ? [? ->]. by rewrite decide_False.
Qed.

Lemma get_temp_node_ok st this l :
  lists st !! this = Some l → get_temp_node this st = Ok (temp_node_ l) st.
Proof. unfold get_temp_node. by intros ->. Qed.

Lemma get_size_ok st this l :
  lists st !! this = Some l → get_size this st = Ok (size_ l) st.
Proof. unfold get_size. by intros ->. Qed.

Lemma set_size_ok st this l n :
  lists st !! this = Some l →
  set_size this n st = Ok () (set_lists <[this := mkList (temp_node_ l) n]> st).
Proof. unfold set_size. by intros ->. Qed.

Lemma set_temp_node_ok st this l p :
  lists st !! this = Some l →
  set_temp_node this p st = Ok () (set_lists <[this := mkList p (size_ l)]> st).
Proof. unfold set_temp_node. by intros ->. Qed.

Lemma empty_ok st this l :
  lists st !! this = Some l → empty this st = Ok (bool_decide (size_ l = 0)) st.
Proof. intros Hl. unfold empty. by rewrite (bind_ok _ _ _ _ _ (get_size_ok _ _ _ Hl)). Qed.

Lemma end_ok st this l :
  lists st !! this = Some l →
  end_ this st = Ok (mkIter (temp_node_ l) (temp_node_ l)) st.
Proof.
  intros Hl. unfold end_. apply noexcept_ok.
  by rewrite !(bind_ok _ _ _ _ _ (get_temp_node_ok _ _ _ Hl)).
Qed.

Lemma begin_ok st this l n :
  lists st !! this = Some l → next_of st (temp_node_ l) = Some n →
  begin this st = Ok (mkIter n (temp_node_ l)) st.
Proof.
  intros Hl Hn. unfold begin. apply noexcept_ok.
  rewrite (bind_ok _ _ _ _ _ (get_temp_node_ok _ _ _ Hl)).
  rewrite (bind_ok _ _ _ _ _ (load_next_view _ _ _ Hn)).
  by rewrite (bind_ok _ _ _ _ _ (get_temp_node_ok _ _ _ Hl)).
Qed.

End Exec.

(** ** Running [emplace] and [erase] *)

Section Splice.
Context {T : Type} `{!Inhabited T}.
Implicit Types (st : state T) (p q x : ptr).

(** [emplace] on a store where the target and its predecessor are live:
    the store after the call, member by member. *)
Lemma emplace_exec st this l target tn p (v : T) :
  lists st !! this = Some l →
  brk st < WORD →
  next_of st (brk st) = None →
  prev_of st target = Some p →
  is_Some (next_of st p) →
  ∃ st', emplace this (mkIter target tn) v st = Ok (mkIter (brk st) (temp_node_ l)) st' ∧
    lists st' = <[this := mkList (temp_node_ l) ((size_ l + 1) mod WORD)]> (lists st) ∧
    brk st' = brk st + 1 ∧
    (∀ x, next_of st' x =
          if decide (x = brk st) then Some target
          else if decide (x = p) then Some (brk st) else next_of st x) ∧
    (∀ x, prev_of st' x =
          if decide (x = brk st) then Some p
          else if decide (x = target) then Some (brk st) else prev_of st x) ∧
    (∀ x, value_of st' x =
          if decide (x = brk st) then Some v else value_of st x).
Proof.
  intros Hl Hroom Hfresh Hprev [pn Hp].
  assert (target ≠ brk st) as Hnt.
  { intros ->. unfold next_of, prev_of in *. destruct (nodes st !! brk st); naive_solver. }
  assert (p ≠ brk st) as Hnp by congruence.
  assert (is_Some (next_of st target)) as [tnx Htn].
  { apply live_next, live_prev. eauto. }
  eexists. split.
  - unfold emplace; simpl.
    rewrite (bind_ok _ _ _ _ _ (new_Node_ok _ _ Hroom)).
    erewrite bind_ok; [|apply store_next_view; views].
    erewrite bind_ok; [|apply load_prev_view; views].
    erewrite bind_ok; [|apply store_prev_view; views].
    erewrite bind_ok; [|apply load_prev_view; views].
    erewrite bind_ok; [|apply store_next_view; views].
    erewrite bind_ok; [|apply store_prev_view; views].
    erewrite bind_ok; [|apply get_size_ok; simpl; eauto].
    erewrite bind_ok; [|apply set_size_ok; simpl; eauto].
    erewrite bind_ok; [|apply get_temp_node_ok; simpl; apply lookup_insert_eq].
    reflexivity.
  - simpl. split_and!; [done|done|..]; intros x; views.
Qed.

(** [erase] of a live node other than the sentinel whose two neighbours are
    live and different from it. *)
Lemma erase_exec st this l target tn p n :
  lists st !! this = Some l →
  size_ l ≠ 0 →
  target ≠ temp_node_ l →
  target ≠ nullptr →
  next_of st target = Some n →
  prev_of st target = Some p →
  is_Some (next_of st p) →
  is_Some (next_of st n) →
  p ≠ target →
  n ≠ target →
  ∃ st', erase this (mkIter target tn) st = Ok (mkIter n (temp_node_ l)) st' ∧
    lists st' = <[this := mkList (temp_node_ l) ((size_ l + WORD - 1) mod WORD)]> (lists st) ∧
    brk st' = brk st ∧
    (∀ x, next_of st' x =
          if decide (x = target) then None
          else if decide (x = p) then Some n else next_of st x) ∧
    (∀ x, prev_of st' x =
          if decide (x = target) then None
          else if decide (x = n) then Some p else prev_of st x) ∧
    (∀ x, value_of st' x =
          if decide (x = target) then None else value_of st x).
Proof.
  intros Hl Hsz Hts Hnull Hn Hp [pn Hpn] [nn Hnn] Hpt Hnt.
  assert (is_Some (prev_of st n)) as [np Hnp].
  { apply live_prev, live_next. eauto. }
  eexists. split.
  - unfold erase; simpl.
    rewrite (bind_ok _ _ _ _ _ (empty_ok _ _ _ Hl)).
    rewrite bool_decide_eq_false_2 by done.
    rewrite (bind_ok _ _ _ _ _ (get_temp_node_ok _ _ _ Hl)).
    rewrite decide_False by done.
    erewrite bind_ok; [|apply load_next_view; views].
    erewrite bind_ok; [|apply load_prev_view; views].
    erewrite bind_ok; [|apply store_next_view; views].
    erewrite bind_ok; [|apply load_prev_view; views].
    erewrite bind_ok; [|apply load_next_view; views].
    erewrite bind_ok; [|apply store_prev_view; views].
    erewrite bind_ok; [|apply load_next_view; views].
    erewrite bind_ok; [|apply get_temp_node_ok; simpl; eauto].
    erewrite bind_ok; [|apply delete_Node_view; [done|views]].
    erewrite bind_ok; [|apply get_size_ok; simpl; eauto].
    erewrite bind_ok; [|apply set_size_ok; simpl; eauto].
    reflexivity.
  - simpl. split_and!; [done|done|..]; intros x; views.
Qed.

End Splice.

(** ** Paths and rings *)

Section Ring.
Context {T : Type}.
Implicit Types (st : state T) (p q x s : ptr) (cells : list (ptr * T)).

Lemma first_or_cons d x (l : list ptr) : first_or d (x :: l) = x.
Proof. done. Qed.

Lemma first_or_app d (l k : list ptr) : first_or d (l ++ k) = first_or (first_or d k) l.
Proof. by destruct l. Qed.

Lemma last_or_cons d x (l : list ptr) : last_or d (x :: l) = last_or x l.
Proof. unfold last_or. rewrite last_cons. by destruct (last l). Qed.

Lemma last_or_snoc d (l : list ptr) x : last_or d (l ++ [x]) = x.
Proof. unfold last_or. by rewrite last_snoc. Qed.

Lemma last_or_elem d (l : list ptr) : last_or d l = d ∨ last_or d l ∈ l.
Proof.
  unfold last_or. destruct (last l) as [y|] eqn:E; simpl; [|by left].
  right. apply last_Some in E as [l' ->]. set_solver.
Qed.

Lemma first_or_elem d (l : list ptr) : first_or d l = d ∨ first_or d l ∈ l.
Proof. destruct l; [by left|right; simpl; set_solver]. Qed.

Lemma path_cons st a b (l : list ptr) :
  path st (a :: b :: l) ↔ linked st a b ∧ path st (b :: l).
Proof. done. Qed.

Lemma path_cons_first st a d (l : list ptr) :
  path st (a :: l ++ [d]) ↔ linked st a (first_or d l) ∧ path st (l ++ [d]).
Proof. destruct l; simpl; naive_solver. Qed.

(** A path through [N1 ++ N2] is a path to the end of [N1], a link across
    the cut, and a path from the start of [N2]. *)
Lemma path_split st a (N1 N2 : list ptr) b :
  path st (a :: (N1 ++ N2) ++ [b]) ↔
  path st (a :: N1) ∧ linked st (last_or a N1) (first_or b N2) ∧ path st (N2 ++ [b]).
Proof.
  revert a. induction N1 as [|y N1 IH]; intros a.
  - simpl (_ ++ _). rewrite path_cons_first. unfold last_or; simpl. naive_solver.
  - rewrite last_or_cons. simpl (_ ++ _). rewrite !path_cons, IH. naive_solver.
Qed.

(** A path survives a store update that leaves [next] alone except at [p]
    and [prev] alone except at [t], when [p] is not the source and [t] not
    the destination of any of its links. *)
Lemma path_frame st st' (l : list ptr) :
  path st l →
  (∀ x y, x ∈ l → y ∈ l → linked st x y → x ∈ removelast l → y ∈ tail l → linked st' x y) →
  path st' l.
Proof.
  induction l as [|a [|b l] IH]; [done..|].
  intros [Hab Hp] Hfr. split.
  - apply Hfr; [set_solver..|done| |]; simpl; set_solver.
  - apply IH; [done|]. intros x y Hx Hy Hl Hx' Hy'.
    apply Hfr; [set_solver..|done| |].
    + change (removelast (a :: b :: l)) with (a :: removelast (b :: l)). set_solver.
    + simpl in *. destruct l; simpl in *; set_solver.
Qed.

Lemma removelast_snoc (l : list ptr) x : removelast (l ++ [x]) = l.
Proof. apply removelast_last. Qed.

Lemma NoDup_snoc_swap (l : list ptr) x : NoDup (x :: l) → NoDup (l ++ [x]).
Proof. intros. apply NoDup_app. rewrite NoDup_cons in *. set_solver by eauto using NoDup_nil_2. Qed.

Lemma NoDup_last_removelast a (l : list ptr) :
  NoDup (a :: l) → last_or a l ∉ removelast (a :: l).
Proof.
  destruct (last l) as [y|] eqn:E.
  - apply last_Some in E as [l' ->].
    rewrite last_or_snoc, app_comm_cons, removelast_snoc. intros [? [Hd ?]]%NoDup_app. set_solver.
  - apply last_None in E as ->. simpl. set_solver.
Qed.

Lemma NoDup_first_tail d (l : list ptr) :
  NoDup (l ++ [d]) → first_or d l ∉ tail (l ++ [d]).
Proof.
  destruct l as [|y l]; simpl; [set_solver|].
  by intros [? ?]%NoDup_cons.
Qed.

Lemma linked_frame st st' x y :
  linked st x y → next_of st' x = next_of st x → prev_of st' y = prev_of st y →
  linked st' x y.
Proof. unfold linked. intros [? ?] -> ->. done. Qed.

Lemma path_live st (l : list ptr) d x :
  path st (l ++ [d]) → x ∈ l → is_Some (next_of st x).
Proof.
  induction l as [|a l IH]; [set_solver|].
  simpl (_ ++ _). rewrite path_cons_first. intros [[Ha _] Hp] [->|Hx]%elem_of_cons; eauto.
Qed.

Lemma ring_live st s cells x :
  ring st s cells → valid_pos s cells x → is_Some (next_of st x).
Proof.
  intros (_ & Hp & _) Hx. apply (path_live st (s :: cells.*1) s); [done|].
  destruct Hx; set_solver.
Qed.

Lemma ring_sentinel st s cells :
  ring st s cells →
  next_of st s = Some (first_or s cells.*1) ∧ prev_of st s = Some (last_or s cells.*1).
Proof.
  intros (_ & Hp & _). split.
  - apply path_cons_first in Hp as [[? _] _]. done.
  - rewrite <-(app_nil_r cells.*1) in Hp. apply path_split in Hp as (_ & [_ ?] & _). done.
Qed.

Lemma ring_cell st s (L1 L2 : list (ptr * T)) a v :
  ring st s (L1 ++ (a, v) :: L2) →
  next_of st a = Some (first_or s L2.*1) ∧
  prev_of st a = Some (last_or s L1.*1) ∧
  value_of st a = Some v ∧
  a ≠ s.
Proof.
  intros (Hnd & Hp & Hv). rewrite fmap_app, fmap_cons in Hp, Hnd. simpl in Hp, Hnd.
  apply path_split in Hp as (_ & [_ Hprev] & Hp). simpl in Hprev, Hp.
  apply path_cons_first in Hp as [[Hnext _] _].
  apply Forall_app in Hv as [_ [Hv _]%Forall_cons].
  split_and!; [done..|]. apply NoDup_cons in Hnd as [Hs _]. set_solver.
Qed.

(** A valid position cuts the cells in two: the position is the first node
    of the second part, or the sentinel when that part is empty. *)
Lemma valid_pos_split s cells p :
  NoDup (s :: cells.*1) →
  valid_pos s cells p ↔ ∃ L1 L2, cells = L1 ++ L2 ∧ p = first_or s L2.*1.
Proof.
  intros Hnd. split.
  - intros [->|Hp].
    + exists cells, []. by rewrite app_nil_r.
    + apply list_elem_of_fmap in Hp as ([a v] & -> & Hin).
      apply list_elem_of_split in Hin as (L1 & L2 & ->). by exists L1, ((a, v) :: L2).
  - intros (L1 & [|[a v] L2] & -> & ->); [by left|right].
    rewrite fmap_app. simpl. set_solver.
Qed.

Lemma dead_value st x : next_of st x = None → value_of st x = None.
Proof. unfold next_of, value_of. by destruct (nodes st !! x). Qed.

Lemma dead_prev st x : next_of st x = None → prev_of st x = None.
Proof. unfold next_of, prev_of. by destruct (nodes st !! x). Qed.

(** Splicing a fresh node [new] between the two parts of a ring. *)
Lemma ring_insert st st' s (L1 L2 : list (ptr * T)) new v :
  ring st s (L1 ++ L2) →
  next_of st new = None →
  (∀ x, next_of st' x =
        if decide (x = new) then Some (first_or s L2.*1)
        else if decide (x = last_or s L1.*1) then Some new else next_of st x) →
  (∀ x, prev_of st' x =
        if decide (x = new) then Some (last_or s L1.*1)
        else if decide (x = first_or s L2.*1) then Some new else prev_of st x) →
  (∀ x, value_of st' x = if decide (x = new) then Some v else value_of st x) →
  ring st' s (L1 ++ (new, v) :: L2).
Proof.
  intros Hr Hfresh Hnext Hprev Hval.
  assert (∀ x, x ∈ s :: L1.*1 ++ L2.*1 → x ≠ new) as Hold.
  { intros x Hx ->. rewrite <-fmap_app in Hx.
    destruct (ring_live _ _ _ new Hr) as [? ?]; [|congruence].
    unfold valid_pos. set_solver. }
  destruct Hr as (Hnd & Hp & Hv).
  rewrite fmap_app in Hnd, Hp.
  set (N1 := L1.*1) in *. set (N2 := L2.*1) in *.
  assert (NoDup (N2 ++ [s])) as Hnd2.
  { apply NoDup_snoc_swap. apply NoDup_cons in Hnd as [Hs Hnd]. apply NoDup_app in Hnd.
    apply NoDup_cons. set_solver. }
  assert (NoDup (s :: N1)) as Hnd1.
  { apply NoDup_cons in Hnd as [Hs Hnd]. apply NoDup_app in Hnd. apply NoDup_cons. set_solver. }
  assert (∀ x, x ∈ N1 → x ∉ s :: N2) as Hdisj.
  { apply NoDup_cons in Hnd as [Hs Hnd]. apply NoDup_app in Hnd. set_solver. }
  apply path_split in Hp as (Hp1 & Hmid & Hp2).
  split_and!.
  - rewrite fmap_app, fmap_cons. fold N1 N2. simpl.
    rewrite <-Permutation_middle, perm_swap. apply NoDup_cons. split; [|done].
    intros Hin. eapply (Hold new); [|done]. set_solver.
  - rewrite fmap_app, fmap_cons. fold N1 N2. simpl fst.
    apply path_split. split_and!.
    + eapply path_frame; [done|]. intros x y Hx Hy Hl Hx' Hy'.
      apply (linked_frame st); [done|..].
      * rewrite Hnext. rewrite decide_False, decide_False; [done| |].
        -- intros ->. by eapply NoDup_last_removelast.
        -- apply Hold. set_solver.
      * rewrite Hprev. rewrite decide_False, decide_False; [done| |].
        -- intros ->. simpl in Hy'. apply (Hdisj _ Hy').
           destruct (first_or_elem s N2) as [->| ?]; set_solver.
        -- apply Hold. set_solver.
    + simpl. split.
      * rewrite Hnext. rewrite decide_False, decide_True; [done..|].
        apply Hold. destruct (last_or_elem s N1) as [->| ?]; set_solver.
      * rewrite Hprev. by rewrite decide_True.
    + simpl (_ ++ _). apply path_cons_first. split.
      * split.
        -- rewrite Hnext. by rewrite decide_True.
        -- rewrite Hprev. rewrite decide_False, decide_True; [done..|].
           apply Hold. destruct (first_or_elem s N2) as [->| ?]; set_solver.
      * eapply path_frame; [done|]. intros x y Hx Hy Hl Hx' Hy'.
        rewrite removelast_snoc in Hx'.
        apply (linked_frame st); [done|..].
        -- rewrite Hnext. rewrite decide_False, decide_False; [done| |].
           ++ intros ->. destruct (last_or_elem s N1) as [E| ?].
              ** rewrite E in Hx'. apply NoDup_cons in Hnd as [Hs _]. set_solver.
              ** set_solver.
           ++ apply Hold. set_solver.
        -- rewrite Hprev. rewrite decide_False, decide_False; [done| |].
           ++ intros ->. by eapply NoDup_first_tail.
           ++ apply Hold. set_solver.
  - apply Forall_app in Hv as [Hv1 Hv2].
    assert (∀ L : list (ptr * T), L.*1 ⊆ N1 ++ N2 →
              Forall (λ c, value_of st c.1 = Some c.2) L →
              Forall (λ c, value_of st' c.1 = Some c.2) L) as Hkeep.
    { intros L Hsub HL. rewrite Forall_forall in *. intros c Hc.
      rewrite Hval, decide_False; [by apply HL|].
      apply Hold. right. apply Hsub. apply list_elem_of_fmap. eauto. }
    apply Forall_app. split; [|apply Forall_cons; split].
    + apply Hkeep; [|done]. set_solver.
    + simpl. by rewrite Hval, decide_True.
    + apply Hkeep; [|done]. set_solver.
Qed.

(** Unlinking the node [a] from a ring. *)
Lemma ring_remove st st' s (L1 L2 : list (ptr * T)) a v :
  ring st s (L1 ++ (a, v) :: L2) →
  (∀ x, next_of st' x =
        if decide (x = a) then None
        else if decide (x = last_or s L1.*1) then Some (first_or s L2.*1)
        else next_of st x) →
  (∀ x, prev_of st' x =
        if decide (x = a) then None
        else if decide (x = first_or s L2.*1) then Some (last_or s L1.*1)
        else prev_of st x) →
  (∀ x, value_of st' x = if decide (x = a) then None else value_of st x) →
  ring st' s (L1 ++ L2).
Proof.
  intros (Hnd & Hp & Hv) Hnext Hprev Hval.
  rewrite fmap_app, fmap_cons in Hnd, Hp. simpl fst in Hnd, Hp.
  set (N1 := L1.*1) in *. set (N2 := L2.*1) in *.
  assert (NoDup (s :: N1 ++ N2) ∧ a ∉ s :: N1 ++ N2) as [Hnd' Ha].
  { rewrite <-Permutation_middle, perm_swap in Hnd. apply NoDup_cons in Hnd. tauto. }
  assert (NoDup (N2 ++ [s])) as Hnd2.
  { apply NoDup_snoc_swap. apply NoDup_cons in Hnd' as [Hs Hnd']. apply NoDup_app in Hnd'.
    apply NoDup_cons. set_solver. }
  assert (NoDup (s :: N1)) as Hnd1.
  { apply NoDup_cons in Hnd' as [Hs Hnd']. apply NoDup_app in Hnd'. apply NoDup_cons. set_solver. }
  assert (∀ x, x ∈ N1 → x ∉ s :: N2) as Hdisj.
  { apply NoDup_cons in Hnd' as [Hs Hnd']. apply NoDup_app in Hnd'. set_solver. }
  assert (last_or s N1 ≠ a) as Hpa.
  { intros <-. destruct (last_or_elem s N1) as [E| ?]; [rewrite E in Ha|]; set_solver. }
  assert (first_or s N2 ≠ a) as Hna.
  { intros <-. destruct (first_or_elem s N2) as [E| ?]; [rewrite E in Ha|]; set_solver. }
  apply path_split in Hp as (Hp1 & [Hpa1 Hpa2] & Hp2).
  simpl (_ ++ _) in Hp2. apply path_cons_first in Hp2 as [[Han1 Han2] Hp2].
  simpl in Hpa1, Hpa2.
  split_and!.
  - by rewrite fmap_app.
  - rewrite fmap_app. fold N1 N2. apply path_split. split_and!.
    + eapply path_frame; [done|]. intros x y Hx Hy Hl Hx' Hy'.
      apply (linked_frame st); [done|..].
      * rewrite Hnext. rewrite decide_False, decide_False; [done| |].
        -- intros ->. by eapply NoDup_last_removelast.
        -- set_solver.
      * rewrite Hprev. rewrite decide_False, decide_False; [done| |].
        -- intros ->. simpl in Hy'. apply (Hdisj _ Hy').
           destruct (first_or_elem s N2) as [->| ?]; set_solver.
        -- set_solver.
    + split.
      * rewrite Hnext. by rewrite decide_False, decide_True.
      * rewrite Hprev. by rewrite decide_False, decide_True.
    + eapply path_frame; [done|]. intros x y Hx Hy Hl Hx' Hy'.
      rewrite removelast_snoc in Hx'.
      apply (linked_frame st); [done|..].
      * rewrite Hnext. rewrite decide_False, decide_False; [done| |].
        -- intros ->. destruct (last_or_elem s N1) as [E| ?].
           ++ rewrite E in Hx'. apply NoDup_cons in Hnd' as [Hs _]. set_solver.
           ++ set_solver.
        -- set_solver.
      * rewrite Hprev. rewrite decide_False, decide_False; [done| |].
        -- intros ->. by eapply NoDup_first_tail.
        -- set_solver.
  - apply Forall_app in Hv as [Hv1 [_ Hv2]%Forall_cons].
    assert (∀ L : list (ptr * T), L.*1 ⊆ N1 ++ N2 →
              Forall (λ c, value_of st c.1 = Some c.2) L →
              Forall (λ c, value_of st' c.1 = Some c.2) L) as Hkeep.
    { intros L Hsub HL. rewrite Forall_forall in *. intros c Hc.
      rewrite Hval, decide_False; [by apply HL|].
      intros E. apply Ha. right. apply Hsub. rewrite <-E. apply list_elem_of_fmap. eauto. }
    apply Forall_app. split; (apply Hkeep; [set_solver|done]).
Qed.

(** A ring only depends on the members of its own nodes. *)
Lemma ring_frame st st' s cells :
  ring st s cells →
  (∀ x, valid_pos s cells x →
        next_of st' x = next_of st x ∧ prev_of st' x = prev_of st x ∧
        value_of st' x = value_of st x) →
  ring st' s cells.
Proof.
  intros (Hnd & Hp & Hv) Hsame. split_and!; [done|..].
  - eapply path_frame; [done|]. intros x y Hx Hy Hl _ _.
    apply (linked_frame st); [done|..]; apply Hsame; unfold valid_pos; set_solver.
  - rewrite Forall_forall in *. intros c Hc.
    destruct (Hsame c.1) as (_ & _ & ->); [|by apply Hv].
    right. apply list_elem_of_fmap. eauto.
Qed.

(** Distinct addresses below [b] are at most [b] many. *)
Lemma NoDup_bounded (l : list N) b :
  NoDup l → (∀ x, x ∈ l → x < b) → N.of_nat (length l) ≤ b.
Proof.
  revert l. induction b as [|b IH] using N.peano_ind; intros l Hnd Hlt.
  - destruct l as [|x l]; [done|].
    assert (x < 0) by (apply Hlt; set_solver). lia.
  - destruct (decide (b ∈ l)) as [Hin|Hnin].
    + apply list_elem_of_split in Hin as (l1 & l2 & ->).
      rewrite <-Permutation_middle in Hnd. apply NoDup_cons in Hnd as [Hb Hnd].
      assert (N.of_nat (length (l1 ++ l2)) ≤ b) as Hlen.
      { apply IH; [done|]. intros x Hx. assert (x ≠ b) by set_solver.
        assert (x < N.succ b) by (apply Hlt; set_solver). lia. }
      rewrite length_app in *. simpl. lia.
    + assert (N.of_nat (length l) ≤ b); [|lia].
      apply IH; [done|]. intros x Hx. assert (x ≠ b) by set_solver.
      specialize (Hlt x Hx). lia.
Qed.

(** The nodes of a ring fit below the allocation frontier, next to the null
    address: the size counter cannot wrap around. *)
Lemma ring_bound st s cells :
  store_ok st → ring st s cells → N.of_nat (length cells) + 2 ≤ brk st.
Proof.
  intros (Hb0 & HbW & Hlive) Hr.
  assert (∀ x, x ∈ s :: cells.*1 → 0 < x ∧ x < brk st) as Hin.
  { intros x Hx. apply Hlive. apply live_next. eapply ring_live; [done|].
    unfold valid_pos. set_solver. }
  destruct Hr as (Hnd & _ & _).
  assert (N.of_nat (length (0 :: s :: cells.*1)) ≤ brk st) as Hpig.
  { apply NoDup_bounded.
    - apply NoDup_cons. split; [|done]. intros H0. apply Hin in H0. lia.
    - intros x [->|Hx]%elem_of_cons; [done|]. by apply Hin. }
  simpl in Hpig. rewrite length_fmap in Hpig. lia.
Qed.

Lemma store_ok_grow st st' :
  store_ok st →
  brk st ≤ brk st' → brk st' ≤ WORD →
  (∀ a, is_Some (next_of st' a) → is_Some (next_of st a) ∨ (brk st ≤ a ∧ a < brk st')) →
  store_ok st'.
Proof.
  intros (Hb0 & HbW & Hlive) Hle HW Hnew. split_and!; [lia|done|].
  intros a Ha%live_next. destruct (Hnew a Ha) as [Hold%live_next|?]; [|lia].
  apply Hlive in Hold. lia.
Qed.

Lemma store_ok_fresh st : store_ok st → next_of st (brk st) = None.
Proof.
  intros (_ & _ & Hlive). destruct (next_of st (brk st)) eqn:E; [|done].
  assert (is_Some (nodes st !! brk st)) as Hs by (apply live_next; eauto).
  apply Hlive in Hs. lia.
Qed.

End Ring.

(** ** Member functions on a well-formed list *)

Section Members.
Context {T : Type} `{!Inhabited T}.
Implicit Types (st : state T) (p q x s this : ptr) (cells : list (ptr * T)).

Lemma frame_refl this owned st : frame this owned st st.
Proof. unfold frame. naive_solver lia. Qed.

Lemma is_list_size st this s cells :
  is_list st this s cells → lists st !! this = Some (mkList s (N.of_nat (length cells))).
Proof. by intros [? _]. Qed.

Lemma size_list st this s cells :
  is_list st this s cells → size this st = Ok (N.of_nat (length cells)) st.
Proof. intros [Hl _]. unfold size. by rewrite (get_size_ok _ _ _ Hl). Qed.

Lemma empty_list st this s cells :
  is_list st this s cells → empty this st = Ok (bool_decide (cells = [])) st.
Proof.
  intros [Hl _]. rewrite (empty_ok _ _ _ Hl). simpl. f_equal.
  apply bool_decide_ext. destruct cells; simpl; [done|]. split; [lia|done].
Qed.

Lemma end_list st this s cells :
  is_list st this s cells → end_ this st = Ok (mkIter s s) st.
Proof. intros [Hl _]. by rewrite (end_ok _ _ _ Hl). Qed.

Lemma begin_list st this s cells :
  is_list st this s cells → begin this st = Ok (mkIter (first_or s cells.*1) s) st.
Proof.
  intros [Hl Hr]. apply ring_sentinel in Hr as [Hn _].
  by rewrite (begin_ok _ _ _ _ Hl Hn).
Qed.

(** *** Iterators over a ring *)

Lemma deref_end st s : deref (mkIter s s) st = Throw out_of_range st.
Proof. unfold deref. simpl. by rewrite decide_True. Qed.

Lemma incr_end st s : incr (mkIter s s) st = Throw out_of_range st.
Proof. unfold incr. simpl. by rewrite decide_True. Qed.

Lemma deref_cell st s (L1 L2 : list (ptr * T)) a v :
  ring st s (L1 ++ (a, v) :: L2) → deref (mkIter a s) st = Ok v st.
Proof.
  intros (_ & _ & Hv & Hne)%ring_cell. unfold deref. simpl.
  rewrite decide_False by done. by apply load_value_view.
Qed.

Lemma incr_cell st s (L1 L2 : list (ptr * T)) a v :
  ring st s (L1 ++ (a, v) :: L2) →
  incr (mkIter a s) st = Ok (mkIter (first_or s L2.*1) s) st.
Proof.
  intros (Hn & _ & _ & Hne)%ring_cell. unfold incr. simpl.
  rewrite decide_False by done. by rewrite (bind_ok _ _ _ _ _ (load_next_view _ _ _ Hn)).
Qed.

(** Decrementing at the position that starts [L2]: one step back, and a
    second one when the first lands on the sentinel. *)
Lemma decr_pos st s (L1 L2 : list (ptr * T)) :
  ring st s (L1 ++ L2) →
  decr (mkIter (first_or s L2.*1) s) st =
  Ok (mkIter (if decide (L1 = []) then last_or s (L1 ++ L2).*1 else last_or s L1.*1) s) st.
Proof.
  intros Hr.
  assert (prev_of st (first_or s L2.*1) = Some (last_or s L1.*1)) as Hp.
  { destruct L2 as [|[a v] L2].
    - rewrite app_nil_r in Hr. by apply ring_sentinel in Hr as [_ ?].
    - by apply ring_cell in Hr as (_ & ? & _). }
  unfold decr. simpl. rewrite (bind_ok _ _ _ _ _ (load_prev_view _ _ _ Hp)).
  destruct (ring_sentinel _ _ _ Hr) as [_ Hps].
  destruct L1 as [|c L1 _] using rev_ind.
  - simpl. rewrite decide_True by done.
    by rewrite (bind_ok _ _ _ _ _ (load_prev_view _ _ _ Hps)).
  - assert (last_or s (L1 ++ [c]).*1 = c.1) as ->.
    { rewrite fmap_app. apply last_or_snoc. }
    destruct Hr as (Hnd & _). rewrite !fmap_app in Hnd. simpl in Hnd.
    apply NoDup_cons in Hnd as [Hs _].
    rewrite decide_False by set_solver.
    rewrite decide_False; [done|]. by destruct L1.
Qed.

(** *** [emplace] and [erase] *)

(** The two nodes around a cut of the ring point at each other. *)
Lemma ring_cut st s (L1 L2 : list (ptr * T)) :
  ring st s (L1 ++ L2) →
  next_of st (last_or s L1.*1) = Some (first_or s L2.*1) ∧
  prev_of st (first_or s L2.*1) = Some (last_or s L1.*1).
Proof.
  intros (_ & Hp & _). rewrite fmap_app in Hp.
  by apply path_split in Hp as (_ & [? ?] & _).
Qed.

Lemma emplace_list st this s (L1 L2 : list (ptr * T)) tn v :
  store_ok st → is_list st this s (L1 ++ L2) → brk st < WORD →
  ∃ st', emplace this (mkIter (first_or s L2.*1) tn) v st = Ok (mkIter (brk st) s) st' ∧
    store_ok st' ∧ brk st' = brk st + 1 ∧
    is_list st' this s (L1 ++ (brk st, v) :: L2) ∧
    frame this (s :: (L1 ++ L2).*1) st st' ∧
    (∀ x, next_of st' x =
          if decide (x = brk st) then Some (first_or s L2.*1)
          else if decide (x = last_or s L1.*1) then Some (brk st) else next_of st x) ∧
    (∀ x, prev_of st' x =
          if decide (x = brk st) then Some (last_or s L1.*1)
          else if decide (x = first_or s L2.*1) then Some (brk st) else prev_of st x) ∧
    (∀ x, value_of st' x = if decide (x = brk st) then Some v else value_of st x).
Proof.
  intros Hok [Hl Hr] Hroom.
  pose proof (store_ok_fresh _ Hok) as Hfresh.
  destruct (ring_cut _ _ _ _ Hr) as [Hpn Htp].
  destruct (emplace_exec st this _ (first_or s L2.*1) tn _ v Hl Hroom Hfresh Htp)
    as (st' & Hrun & Hlists & Hbrk & Hnext & Hprev & Hval); [eauto|].
  simpl in Hrun, Hlists.
  pose proof (ring_bound _ _ _ Hok Hr) as Hbound.
  exists st'. split_and!; [done| |done| | |done..].
  - eapply store_ok_grow; [done|lia|lia|]. intros a. rewrite Hnext.
    repeat case_decide; subst; eauto. right. lia.
  - split.
    + rewrite Hlists. rewrite lookup_insert_eq. do 2 f_equal.
      rewrite !length_app in *. simpl. rewrite N.mod_small; lia.
    + by eapply ring_insert.
  - split_and!; [lia|by intros; rewrite Hlists, lookup_insert_ne|].
    intros x [xn Hx] Hown.
    assert (x ≠ brk st) by congruence.
    assert (x ≠ last_or s L1.*1).
    { intros ->. apply Hown. rewrite fmap_app.
      destruct (last_or_elem s L1.*1) as [->| ?]; set_solver. }
    assert (x ≠ first_or s L2.*1).
    { intros ->. apply Hown. rewrite fmap_app.
      destruct (first_or_elem s L2.*1) as [->| ?]; set_solver. }
    rewrite Hnext, Hprev, Hval. by rewrite !decide_False.
Qed.

Lemma emplace_bad_alloc st this pos (v : T) :
  ¬ brk st < WORD → emplace this pos v st = Throw bad_alloc st.
Proof. intros. unfold emplace. by rewrite (bind_throw _ _ _ _ _ (new_Node_full _ _ H)). Qed.

Lemma erase_list st this s (L1 L2 : list (ptr * T)) a v tn :
  store_ok st → is_list st this s (L1 ++ (a, v) :: L2) →
  ∃ st', erase this (mkIter a tn) st = Ok (mkIter (first_or s L2.*1) s) st' ∧
    store_ok st' ∧ brk st' = brk st ∧
    is_list st' this s (L1 ++ L2) ∧
    frame this (s :: (L1 ++ (a, v) :: L2).*1) st st' ∧
    (∀ x, next_of st' x =
          if decide (x = a) then None
          else if decide (x = last_or s L1.*1) then Some (first_or s L2.*1)
          else next_of st x) ∧
    (∀ x, prev_of st' x =
          if decide (x = a) then None
          else if decide (x = first_or s L2.*1) then Some (last_or s L1.*1)
          else prev_of st x) ∧
    (∀ x, value_of st' x = if decide (x = a) then None else value_of st x).
Proof.
  intros Hok [Hl Hr].
  destruct (ring_cell _ _ _ _ _ _ Hr) as (Hn & Hp & Hv & Has).
  assert (NoDup (s :: L1.*1 ++ L2.*1) ∧ a ∉ s :: L1.*1 ++ L2.*1) as [Hnd Ha].
  { destruct Hr as (Hnd & _). rewrite fmap_app, fmap_cons in Hnd. simpl in Hnd.
    rewrite <-Permutation_middle, perm_swap in Hnd. apply NoDup_cons in Hnd. tauto. }
  assert (last_or s L1.*1 ≠ a) as Hpa.
  { intros <-. destruct (last_or_elem s L1.*1) as [E| ?]; [rewrite E in Ha|]; set_solver. }
  assert (first_or s L2.*1 ≠ a) as Hna.
  { intros <-. destruct (first_or_elem s L2.*1) as [E| ?]; [rewrite E in Ha|]; set_solver. }
  assert (∀ x, valid_pos s (L1 ++ (a, v) :: L2) x → is_Some (next_of st x)) as Hlive.
  { intros x. by apply ring_live. }
  assert (a ≠ nullptr) as Hnull.
  { intros ->. destruct Hok as (_ & _ & Hb). destruct (Hb nullptr); [|unfold nullptr in *; lia].
    apply live_next. eauto. }
  pose proof (ring_bound _ _ _ Hok Hr) as Hbound.
  destruct (erase_exec st this _ a tn (last_or s L1.*1) (first_or s L2.*1) Hl) as
    (st' & Hrun & Hlists & Hbrk & Hnext & Hprev & Hval); simpl; try done.
  - rewrite length_app. simpl. lia.
  - apply Hlive. unfold valid_pos. rewrite fmap_app.
    destruct (last_or_elem s L1.*1) as [->| ?]; set_solver.
  - apply Hlive. unfold valid_pos. rewrite fmap_app, fmap_cons.
    destruct (first_or_elem s L2.*1) as [->| ?]; set_solver.
  - simpl in Hlists, Hrun. exists st'. split_and!; [done| |done| | |done..].
    + apply (store_ok_grow st); [exact Hok|lia|destruct Hok as (? & ? & ?); lia|].
      intros x. rewrite Hnext.
      destruct (decide (x = a)); [by intros [? ?]|].
      destruct (decide (x = last_or s L1.*1)) as [->|]; [|eauto].
      intros _. left. apply Hlive. unfold valid_pos. rewrite fmap_app.
      destruct (last_or_elem s L1.*1) as [->| ?]; set_solver.
    + split.
      * rewrite Hlists, lookup_insert_eq. do 2 f_equal.
        rewrite !length_app in *. simpl in *.
        replace (N.of_nat (length L1 + S (length L2)) + WORD - 1)
          with (N.of_nat (length L1 + length L2) + 1 * WORD) by lia.
        rewrite N.Div0.mod_add. rewrite N.mod_small; [done|].
        destruct Hok as (_ & ? & _). lia.
      * by eapply ring_remove.
    + split_and!; [lia|by intros; rewrite Hlists, lookup_insert_ne|].
      intros x [xn Hx] Hown.
      assert (x ≠ a). { intros ->. apply Hown. rewrite fmap_app. set_solver. }
      assert (x ≠ last_or s L1.*1).
      { intros ->. apply Hown. rewrite fmap_app.
        destruct (last_or_elem s L1.*1) as [->| ?]; set_solver. }
      assert (x ≠ first_or s L2.*1).
      { intros ->. apply Hown. rewrite fmap_app, fmap_cons.
        destruct (first_or_elem s L2.*1) as [->| ?]; set_solver. }
      rewrite Hnext, Hprev, Hval. by rewrite !decide_False.
Qed.

Lemma erase_empty st this s pos :
  is_list st this s [] → erase this pos st = Throw out_of_range st.
Proof.
  intros Hl. unfold erase. by rewrite (bind_ok _ _ _ _ _ (empty_list _ _ _ _ Hl)).
Qed.

Lemma erase_end st this s cells tn :
  is_list st this s cells → erase this (mkIter s tn) st = Throw out_of_range st.
Proof.
  intros Hl. unfold erase. rewrite (bind_ok _ _ _ _ _ (empty_list _ _ _ _ Hl)).
  case_bool_decide; [done|]. simpl.
  rewrite (bind_ok _ _ _ _ _ (get_temp_node_ok _ _ _ (is_list_size _ _ _ _ Hl))).
  simpl. by rewrite decide_True.
Qed.

Lemma last_or_fmap_snoc d cells a (v : T) : last_or d (cells ++ [(a, v)]).*1 = a.
Proof. rewrite fmap_app. apply last_or_snoc. Qed.

(** *** Frames compose *)

Lemma frame_trans this (O O' : list ptr) st st1 st2 :
  frame this O st st1 → frame this O' st1 st2 →
  (∀ x, x ∈ O' → x ∈ O ∨ next_of st x = None) →
  frame this O st st2.
Proof.
  intros (Hb1 & Hl1 & Hn1) (Hb2 & Hl2 & Hn2) Hsub. split_and!; [lia| |].
  - intros o Ho. by rewrite Hl2, Hl1.
  - intros x Hx HO. destruct (Hn1 x Hx HO) as (E1 & E2 & E3).
    destruct (Hn2 x) as (E1' & E2' & E3').
    + by rewrite E1.
    + intros HO'. destruct (Hsub x HO') as [?|E]; [done|]. rewrite E in Hx. by destruct Hx.
    + by rewrite E1', E2', E3'.
Qed.

Lemma frame_weaken this (O O' : list ptr) st st' :
  frame this O st st' → O ⊆ O' → frame this O' st st'.
Proof. intros (? & ? & Hn) Hsub. split_and!; [done..|]. intros x ? ?. apply Hn; set_solver. Qed.

(** A list that owns none of the touched nodes is left as it was. *)
Lemma is_list_frame this O st st' other s cells :
  frame this O st st' → other ≠ this →
  (∀ x, valid_pos s cells x → x ∉ O) →
  is_list st other s cells → is_list st' other s cells.
Proof.
  intros (_ & Hl & Hn) Hne Hdisj [Ho Hr]. split; [by rewrite Hl|].
  eapply ring_frame; [done|]. intros x Hx. apply Hn; [|by apply Hdisj].
  by eapply ring_live.
Qed.

(** *** Construction, push, pop, clear, front and back *)

Lemma CircularList_default_list st this :
  store_ok st → brk st < WORD →
  ∃ st', CircularList_default this st = Ok () st' ∧
    store_ok st' ∧ brk st' = brk st + 1 ∧
    is_list st' this (brk st) [] ∧ frame this [] st st'.
Proof.
  intros Hok Hroom. pose proof (store_ok_fresh _ Hok) as Hfresh.
  eexists. split.
  - unfold CircularList_default.
    rewrite (bind_ok _ _ _ _ _ (new_Node_ok _ _ Hroom)).
    unfold init_members at 1. unfold bind at 1.
    erewrite bind_ok; [|apply get_temp_node_ok; simpl; apply lookup_insert_eq].
    erewrite bind_ok; [|apply get_temp_node_ok; simpl; apply lookup_insert_eq].
    erewrite bind_ok; [|apply store_next_view; views].
    erewrite bind_ok; [|apply get_temp_node_ok; simpl; apply lookup_insert_eq].
    erewrite bind_ok; [|apply get_temp_node_ok; simpl; apply lookup_insert_eq].
    simpl. apply store_prev_view. views.
  - split_and!; [|done|..].
    + apply (store_ok_grow st); [done|simpl; lia|simpl; lia|].
      intros a. simpl. views. intros _. right. lia.
    + split; [simpl; apply lookup_insert_eq|].
      split_and!; [apply NoDup_singleton| |by apply Forall_nil].
      simpl. split; [|done]. split; views.
    + split_and!; [simpl; lia|by intros; simpl; rewrite lookup_insert_ne|].
      intros x [? Hx] _. assert (x ≠ brk st) by congruence. views.
Qed.

Lemma CircularList_default_bad_alloc st this :
  ¬ brk st < WORD → CircularList_default this st = Throw bad_alloc st.
Proof.
  intros. unfold CircularList_default.
  by rewrite (bind_throw _ _ _ _ _ (new_Node_full _ _ H)).
Qed.

Lemma push_back_list st this s cells v :
  store_ok st → is_list st this s cells → brk st < WORD →
  ∃ st', push_back this v st = Ok () st' ∧
    store_ok st' ∧ brk st' = brk st + 1 ∧
    is_list st' this s (cells ++ [(brk st, v)]) ∧
    frame this (s :: cells.*1) st st'.
Proof.
  intros Hok Hl Hroom.
  destruct (emplace_list st this s cells [] s v) as (st' & Hrun & ? & ? & ? & Hfr & _);
    [done|by rewrite app_nil_r|done|].
  exists st'. rewrite app_nil_r in Hfr. split_and!; [|done..].
  unfold push_back, insert. rewrite (bind_ok _ _ _ _ _ (end_list _ _ _ _ Hl)).
  simpl in Hrun. by rewrite (bind_ok _ _ _ _ _ Hrun).
Qed.

Lemma push_back_bad_alloc st this s cells v :
  is_list st this s cells → ¬ brk st < WORD → push_back this v st = Throw bad_alloc st.
Proof.
  intros Hl ?. unfold push_back, insert. rewrite (bind_ok _ _ _ _ _ (end_list _ _ _ _ Hl)).
  by rewrite (bind_throw _ _ _ _ _ (emplace_bad_alloc _ _ _ _ H)).
Qed.

Lemma push_front_list st this s cells v :
  store_ok st → is_list st this s cells → brk st < WORD →
  ∃ st', push_front this v st = Ok () st' ∧
    store_ok st' ∧ brk st' = brk st + 1 ∧
    is_list st' this s ((brk st, v) :: cells) ∧
    frame this (s :: cells.*1) st st'.
Proof.
  intros Hok Hl Hroom.
  destruct (emplace_list st this s [] cells s v) as (st' & Hrun & ? & ? & ? & Hfr & _);
    [done..|].
  exists st'. split_and!; [|done..].
  unfold push_front, insert. rewrite (bind_ok _ _ _ _ _ (begin_list _ _ _ _ Hl)).
  by rewrite (bind_ok _ _ _ _ _ Hrun).
Qed.

Lemma push_front_bad_alloc st this s cells v :
  is_list st this s cells → ¬ brk st < WORD → push_front this v st = Throw bad_alloc st.
Proof.
  intros Hl ?. unfold push_front, insert. rewrite (bind_ok _ _ _ _ _ (begin_list _ _ _ _ Hl)).
  by rewrite (bind_throw _ _ _ _ _ (emplace_bad_alloc _ _ _ _ H)).
Qed.

Lemma pop_front_list st this s a v cells :
  store_ok st → is_list st this s ((a, v) :: cells) →
  ∃ st', pop_front this st = Ok () st' ∧
    store_ok st' ∧ brk st' = brk st ∧ is_list st' this s cells ∧
    frame this (s :: a :: cells.*1) st st'.
Proof.
  intros Hok Hl.
  destruct (erase_list st this s [] cells a v s) as (st' & Hrun & ? & ? & ? & Hfr & _); [done..|].
  exists st'. split_and!; [|done..].
  unfold pop_front. rewrite (bind_ok _ _ _ _ _ (begin_list _ _ _ _ Hl)).
  simpl. by rewrite (bind_ok _ _ _ _ _ Hrun).
Qed.

Lemma pop_front_empty st this s :
  is_list st this s [] → pop_front this st = Throw out_of_range st.
Proof.
  intros Hl. unfold pop_front. rewrite (bind_ok _ _ _ _ _ (begin_list _ _ _ _ Hl)).
  by rewrite (bind_throw _ _ _ _ _ (erase_empty _ _ _ _ Hl)).
Qed.

Lemma pop_back_list st this s a v cells :
  store_ok st → is_list st this s (cells ++ [(a, v)]) →
  ∃ st', pop_back this st = Ok () st' ∧
    store_ok st' ∧ brk st' = brk st ∧ is_list st' this s cells ∧
    frame this (s :: (cells ++ [(a, v)]).*1) st st'.
Proof.
  intros Hok Hl.
  destruct (erase_list st this s cells [] a v s) as (st' & Hrun & ? & ? & Hl' & Hfr & _); [done..|].
  rewrite app_nil_r in Hl'.
  exists st'. split_and!; [|done..].
  unfold pop_back. rewrite (bind_ok _ _ _ _ _ (end_list _ _ _ _ Hl)).
  destruct Hl as [_ Hr]. rewrite <-(app_nil_r (cells ++ _)) in Hr.
  pose proof (decr_pos _ _ _ _ Hr) as Hd.
  rewrite decide_False in Hd by (by destruct cells).
  rewrite last_or_fmap_snoc in Hd.
  rewrite (bind_ok _ _ _ _ _ Hd). by rewrite (bind_ok _ _ _ _ _ Hrun).
Qed.

Lemma pop_back_empty st this s :
  is_list st this s [] → pop_back this st = Throw out_of_range st.
Proof.
  intros Hl. unfold pop_back. rewrite (bind_ok _ _ _ _ _ (end_list _ _ _ _ Hl)).
  pose proof (decr_pos st s [] [] (proj2 Hl)) as Hd. simpl in Hd.
  rewrite (bind_ok _ _ _ _ _ Hd).
  by rewrite (bind_throw _ _ _ _ _ (erase_empty _ _ _ _ Hl)).
Qed.

Lemma front_list st this s a v cells :
  is_list st this s ((a, v) :: cells) → front this st = Ok v st.
Proof.
  intros Hl. unfold front. rewrite (bind_ok _ _ _ _ _ (empty_list _ _ _ _ Hl)). simpl.
  rewrite (bind_ok _ _ _ _ _ (get_temp_node_ok _ _ _ (is_list_size _ _ _ _ Hl))). simpl.
  destruct Hl as [_ Hr]. destruct (ring_sentinel _ _ _ Hr) as [Hn _].
  rewrite (bind_ok _ _ _ _ _ (load_next_view _ _ _ Hn)). simpl.
  apply load_value_view. by apply (ring_cell _ _ [] cells a v) in Hr as (_ & _ & ? & _).
Qed.

Lemma back_list st this s a v cells :
  is_list st this s (cells ++ [(a, v)]) → back this st = Ok v st.
Proof.
  intros Hl. unfold back. rewrite (bind_ok _ _ _ _ _ (empty_list _ _ _ _ Hl)).
  rewrite bool_decide_eq_false_2 by (by destruct cells).
  rewrite (bind_ok _ _ _ _ _ (get_temp_node_ok _ _ _ (is_list_size _ _ _ _ Hl))). simpl.
  destruct Hl as [_ Hr]. destruct (ring_sentinel _ _ _ Hr) as [_ Hp].
  rewrite last_or_fmap_snoc in Hp.
  rewrite (bind_ok _ _ _ _ _ (load_prev_view _ _ _ Hp)).
  apply load_value_view. rewrite <-(app_nil_r (cells ++ _)), <-app_assoc in Hr.
  by apply ring_cell in Hr as (_ & _ & ? & _).
Qed.

Lemma front_empty st this s :
  is_list st this s [] → front this st = Throw out_of_range st.
Proof. intros Hl. unfold front. by rewrite (bind_ok _ _ _ _ _ (empty_list _ _ _ _ Hl)). Qed.

Lemma back_empty st this s :
  is_list st this s [] → back this st = Throw out_of_range st.
Proof. intros Hl. unfold back. by rewrite (bind_ok _ _ _ _ _ (empty_list _ _ _ _ Hl)). Qed.

(** *** Loops *)

Lemma clear_loop_list st this s cells fuel :
  store_ok st → is_list st this s cells → (length cells < fuel)%nat →
  ∃ st', clear_loop fuel this st = Ok () st' ∧
    store_ok st' ∧ brk st' = brk st ∧ is_list st' this s [] ∧
    frame this (s :: cells.*1) st st'.
Proof.
  revert st fuel. induction cells as [|[a v] cells IH]; intros st fuel Hok Hl Hfuel.
  - destruct fuel as [|fuel]; [lia|]. exists st. split_and!; [|done..|apply frame_refl].
    simpl. by rewrite (bind_ok _ _ _ _ _ (empty_list _ _ _ _ Hl)).
  - destruct fuel as [|fuel]; [simpl in Hfuel; lia|].
    destruct (pop_front_list _ _ _ _ _ _ Hok Hl) as (st1 & Hrun & Hok1 & Hb1 & Hl1 & Hfr1).
    destruct (IH st1 fuel Hok1 Hl1) as (st2 & Hrun2 & Hok2 & Hb2 & Hl2 & Hfr2);
      [simpl in Hfuel; lia|].
    exists st2. split_and!; [|done|congruence|done|].
    + simpl. rewrite (bind_ok _ _ _ _ _ (empty_list _ _ _ _ Hl)). simpl.
      by rewrite (bind_ok _ _ _ _ _ Hrun).
    + eapply frame_trans; [done|done|]. simpl. set_solver.
Qed.

Lemma clear_list st this s cells fuel :
  store_ok st → is_list st this s cells → (length cells < fuel)%nat →
  ∃ st', clear fuel this st = Ok () st' ∧
    store_ok st' ∧ brk st' = brk st ∧ is_list st' this s [] ∧
    frame this (s :: cells.*1) st st'.
Proof.
  intros Hok Hl Hfuel.
  destruct (clear_loop_list _ _ _ _ _ Hok Hl Hfuel) as (st' & Hrun & ?).
  exists st'. split; [|done]. by apply noexcept_ok.
Qed.

Lemma push_back_each_list st this s cells items :
  store_ok st → is_list st this s cells →
  brk st + N.of_nat (length items) ≤ WORD →
  ∃ st' new, push_back_each this items st = Ok () st' ∧
    store_ok st' ∧ brk st' = brk st + N.of_nat (length items) ∧
    is_list st' this s (cells ++ new) ∧ new.*2 = items ∧
    (∀ x, x ∈ new.*1 → next_of st x = None) ∧
    frame this (s :: cells.*1) st st'.
Proof.
  revert st cells. induction items as [|v items IH]; intros st cells Hok Hl Hroom.
  - exists st, []. rewrite app_nil_r.
    split_and!; [done|done|simpl; lia|done|done|set_solver|apply frame_refl].
  - simpl in Hroom.
    destruct (push_back_list _ _ _ _ v Hok Hl) as (st1 & Hrun & Hok1 & Hb1 & Hl1 & Hfr1); [lia|].
    destruct (IH st1 _ Hok1 Hl1) as (st2 & new & Hrun2 & Hok2 & Hb2 & Hl2 & Hnew & Hfresh & Hfr2);
      [lia|].
    pose proof (store_ok_fresh _ Hok) as Hf.
    exists st2, ((brk st, v) :: new). split_and!.
    + simpl. by rewrite (bind_ok _ _ _ _ _ Hrun).
    + done.
    + simpl length. lia.
    + by rewrite <-app_assoc in Hl2.
    + by rewrite fmap_cons, Hnew.
    + rewrite fmap_cons. intros x [->|Hx]%elem_of_cons; [done|].
      destruct (next_of st x) eqn:E; [|done].
      destruct Hfr1 as (_ & _ & Hsame).
      destruct (decide (x ∈ s :: cells.*1)) as [Hin|Hout].
      * (* a node of the list is still live after the first push *)
        assert (is_Some (next_of st1 x)) as [? E1]; [|by rewrite Hfresh in E1].
        eapply ring_live; [apply Hl1|]. unfold valid_pos. rewrite fmap_app. set_solver.
      * destruct (Hsame x) as (E1 & _); [eauto|done|].
        rewrite Hfresh in E1; [|done]. congruence.
    + eapply frame_trans; [done|done|]. intros x Hx. rewrite fmap_app in Hx. simpl in Hx.
      destruct (decide (x = brk st)) as [->|]; [by right|left; set_solver].
Qed.

(** Walking forward from the position that starts [L2] collects the values
    of [L2]. *)
Lemma forward_loop_list st this s (L1 L2 : list (ptr * T)) fuel out :
  is_list st this s (L1 ++ L2) → (length L2 < fuel)%nat →
  forward_loop fuel this (mkIter (first_or s L2.*1) s) out st = Ok (out ++ L2.*2) st.
Proof.
  revert L1 fuel out. induction L2 as [|[a v] L2 IH]; intros L1 fuel out Hl Hfuel.
  - destruct fuel as [|fuel]; [lia|]. simpl.
    rewrite (bind_ok _ _ _ _ _ (end_list _ _ _ _ Hl)).
    unfold iter_ne, iter_eq. simpl. rewrite bool_decide_eq_true_2 by done.
    by rewrite app_nil_r.
  - destruct fuel as [|fuel]; [simpl in Hfuel; lia|]. simpl.
    rewrite (bind_ok _ _ _ _ _ (end_list _ _ _ _ Hl)).
    pose proof (proj2 Hl) as Hr.
    destruct (ring_cell _ _ _ _ _ _ Hr) as (_ & _ & _ & Hne).
    unfold iter_ne, iter_eq. simpl. rewrite bool_decide_eq_false_2 by done. simpl.
    rewrite (bind_ok _ _ _ _ _ (deref_cell _ _ _ _ _ _ Hr)).
    rewrite (bind_ok _ _ _ _ _ (incr_cell _ _ _ _ _ _ Hr)).
    rewrite (IH (L1 ++ [(a, v)])).
    + by rewrite <-app_assoc.
    + by rewrite <-app_assoc.
    + simpl in Hfuel. lia.
Qed.

Lemma collect_forward_list st this s cells fuel :
  is_list st this s cells → (length cells < fuel)%nat →
  collect_forward fuel this st = Ok cells.*2 st.
Proof.
  intros Hl Hfuel. unfold collect_forward.
  rewrite (bind_ok _ _ _ _ _ (begin_list _ _ _ _ Hl)).
  by apply (forward_loop_list st this s [] cells).
Qed.

(** The position that starts [L2] is the first position of the ring only
    when nothing comes before it. *)
Lemma first_or_cut_ne s (L1 L2 : list (ptr * T)) c :
  NoDup (s :: ((L1 ++ [c]) ++ L2).*1) →
  first_or s L2.*1 ≠ first_or s ((L1 ++ [c]) ++ L2).*1.
Proof.
  rewrite (fmap_app _ (L1 ++ [c])). generalize (L2.*1). intros N2.
  assert (∃ y N1, (L1 ++ [c]).*1 = y :: N1) as (y & N1 & ->).
  { destruct L1; simpl; eauto. }
  intros Hnd E. change (first_or s ((y :: N1) ++ N2)) with y in E.
  apply NoDup_cons in Hnd as [Hs Hnd]. apply NoDup_app in Hnd as (Hnd1 & Hd & Hnd2).
  destruct (first_or_elem s N2) as [E'|Hin].
  - rewrite E' in E. subst y. set_solver.
  - rewrite E in Hin. apply (Hd y); set_solver.
Qed.

(** Walking a reverse iterator from the position that starts [L2] collects
    the values of [L1] backwards. *)
Lemma reverse_loop_list st this s (L1 L2 : list (ptr * T)) fuel out :
  is_list st this s (L1 ++ L2) → (length L1 < fuel)%nat →
  reverse_loop fuel this (mkRev (mkIter (first_or s L2.*1) s)) out st =
  Ok (out ++ reverse L1.*2) st.
Proof.
  revert L2 fuel out. induction L1 as [|[a v] L1 IH] using rev_ind; intros L2 fuel out Hl Hfuel.
  - destruct fuel as [|fuel]; [lia|]. simpl.
    unfold rend. erewrite bind_ok;
      [|apply noexcept_ok; by rewrite (bind_ok _ _ _ _ _ (begin_list _ _ _ _ Hl))].
    unfold rev_ne, iter_ne, iter_eq. simpl. rewrite bool_decide_eq_true_2 by done.
    by rewrite app_nil_r.
  - destruct fuel as [|fuel]; [lia|]. simpl.
    unfold rend. erewrite bind_ok;
      [|apply noexcept_ok; by rewrite (bind_ok _ _ _ _ _ (begin_list _ _ _ _ Hl))].
    pose proof (proj2 Hl) as Hr.
    unfold rev_ne, iter_ne, iter_eq. simpl.
    rewrite bool_decide_eq_false_2 by (apply first_or_cut_ne, Hr). simpl.
    pose proof (decr_pos _ _ _ _ Hr) as Hd.
    rewrite decide_False in Hd by (by destruct L1).
    rewrite last_or_fmap_snoc in Hd.
    unfold rev_deref, rev_incr. simpl.
    rewrite <-app_assoc in Hr, Hl. simpl in Hr, Hl.
    erewrite bind_ok; [|rewrite (bind_ok _ _ _ _ _ Hd); apply (deref_cell _ _ _ _ _ _ Hr)].
    erewrite bind_ok; [|rewrite (bind_ok _ _ _ _ _ Hd); reflexivity].
    rewrite (IH ((a, v) :: L2)); [|done|rewrite length_app in Hfuel; simpl in Hfuel; lia].
    rewrite fmap_app. change ([(a, v)].*2) with [v]. rewrite reverse_snoc.
    by rewrite <-app_assoc.
Qed.

Lemma collect_reverse_list st this s cells fuel :
  is_list st this s cells → (length cells < fuel)%nat →
  collect_reverse fuel this st = Ok (reverse cells.*2) st.
Proof.
  intros Hl Hfuel. unfold collect_reverse, rbegin.
  erewrite bind_ok; [|apply noexcept_ok; by rewrite (bind_ok _ _ _ _ _ (end_list _ _ _ _ Hl))].
  rewrite <-(app_nil_r cells) in Hl.
  apply (reverse_loop_list st this s cells [] fuel [] Hl Hfuel).
Qed.

End Members.

(** ** What the ring invariant says about the links *)

Section RingFacts.
Context {T : Type}.
Implicit Types (st : state T) (p q x s : ptr) (cells : list (ptr * T)).

Lemma valid_pos_first s (L1 L2 : list (ptr * T)) :
  valid_pos s (L1 ++ L2) (first_or s L2.*1).
Proof.
  unfold valid_pos. rewrite fmap_app.
  destruct (first_or_elem s L2.*1) as [->| ?]; [by left|right; set_solver].
Qed.

Lemma valid_pos_last s (L1 L2 : list (ptr * T)) :
  valid_pos s (L1 ++ L2) (last_or s L1.*1).
Proof.
  unfold valid_pos. rewrite fmap_app.
  destruct (last_or_elem s L1.*1) as [->| ?]; [by left|right; set_solver].
Qed.

(** Both neighbours of a position are positions, and the links agree:
    [n->next->prev == n] and [n->prev->next == n]. *)
Lemma ring_neighbours st s cells n :
  ring st s cells → valid_pos s cells n →
  ∃ nx pv, next_of st n = Some nx ∧ prev_of st nx = Some n ∧
           prev_of st n = Some pv ∧ next_of st pv = Some n ∧
           valid_pos s cells nx ∧ valid_pos s cells pv.
Proof.
  intros Hr [->|Hn].
  - exists (first_or s cells.*1), (last_or s cells.*1).
    pose proof (ring_cut st s [] cells Hr) as [? ?].
    pose proof Hr as Hr'. rewrite <-(app_nil_r cells) in Hr'.
    pose proof (ring_cut st s cells [] Hr') as [? ?].
    split_and!; [done..| |].
    + apply (valid_pos_first s [] cells).
    + rewrite <-(app_nil_r cells) at 1. apply valid_pos_last.
  - apply list_elem_of_fmap in Hn as ([a v] & -> & Hin).
    apply list_elem_of_split in Hin as (L1 & L2 & ->). simpl.
    exists (first_or s L2.*1), (last_or s L1.*1).
    pose proof (ring_cut st s L1 ((a, v) :: L2) Hr) as [? ?].
    pose proof Hr as Hr'. rewrite (cons_middle _ L1 L2), app_assoc in Hr'.
    pose proof (ring_cut st s (L1 ++ [(a, v)]) L2 Hr') as [Hn Hp].
    rewrite last_or_fmap_snoc in Hn, Hp.
    split_and!; [done..| |].
    + rewrite (cons_middle _ L1 L2), app_assoc. apply valid_pos_first.
    + apply valid_pos_last.
Qed.

(** The nodes reachable from the sentinel are the sentinel and the element
    nodes, nothing else. *)
Lemma reach_valid st s cells x :
  ring st s cells → reach st s x → valid_pos s cells x.
Proof.
  intros Hr. induction 1 as [|b c _ IH Hn|b c _ IH Hp]; [by left|..].
  - destruct (ring_neighbours st s cells b Hr IH) as (? & ? & ? & _ & _ & _ & ? & _).
    congruence.
  - destruct (ring_neighbours st s cells b Hr IH) as (? & ? & _ & _ & ? & _ & _ & ?).
    congruence.
Qed.

Lemma valid_reach st s cells x :
  ring st s cells → valid_pos s cells x → reach st s x.
Proof.
  intros Hr [->|Hx]; [constructor|].
  apply list_elem_of_fmap in Hx as ([a v] & -> & Hin).
  apply list_elem_of_split in Hin as (L1 & L2 & ->). simpl.
  revert a v L2 Hr. induction L1 as [|[b w] L1 IH] using rev_ind; intros a v L2 Hr.
  - eapply reach_next; [constructor|]. by apply ring_sentinel in Hr as [? _].
  - rewrite <-app_assoc in Hr. simpl in Hr.
    eapply reach_next; [by eapply IH|]. by apply ring_cell in Hr as (? & _).
Qed.

End RingFacts.

(** ** Calls of the client on a well-formed list *)

Section Client.
Context {T : Type} `{!Inhabited T}.
Implicit Types (st : state T) (p q x s this : ptr) (cells : list (ptr * T)).

Lemma ring_assign st s (L1 L2 : list (ptr * T)) a w v :
  ring st s (L1 ++ (a, w) :: L2) → ring (upd_value a v st) s (L1 ++ (a, v) :: L2).
Proof.
  intros Hr. pose proof (ring_cell _ _ _ _ _ _ Hr) as (_ & _ & Hv & _).
  destruct Hr as (Hnd & Hp & Hvs). unfold ring.
  rewrite !fmap_app, !fmap_cons in *. cbn [fst snd] in *. split_and!; [done| |].
  - eapply path_frame; [done|]. intros x y _ _ Hl _ _.
    apply (linked_frame st); [done|..]; by views.
  - assert (a ∉ L1.*1 ++ L2.*1) as Ha.
    { rewrite <-Permutation_middle, perm_swap in Hnd.
      apply NoDup_cons in Hnd as [Hnin _]. set_solver. }
    apply Forall_app in Hvs as [Hv1 [_ Hv2]%Forall_cons].
    assert (∀ L : list (ptr * T), L.*1 ⊆ L1.*1 ++ L2.*1 →
              Forall (λ c, value_of st c.1 = Some c.2) L →
              Forall (λ c, value_of (upd_value a v st) c.1 = Some c.2) L) as Hkeep.
    { intros L Hsub HL. rewrite Forall_forall in *. intros c Hc.
      rewrite value_of_upd_value, decide_False; [by apply HL|].
      intros E. apply Ha, Hsub. rewrite <-E. apply list_elem_of_fmap. eauto. }
    apply Forall_app. split; [|apply Forall_cons; split].
    + apply Hkeep; [set_solver|done].
    + simpl. rewrite value_of_upd_value, decide_True by done. by rewrite Hv.
    + apply Hkeep; [set_solver|done].
Qed.

Lemma assign_list st this s (L1 L2 : list (ptr * T)) a w v :
  store_ok st → is_list st this s (L1 ++ (a, w) :: L2) →
  assign (mkIter a s) v st = Ok () (upd_value a v st) ∧
  store_ok (upd_value a v st) ∧ brk (upd_value a v st) = brk st ∧
  is_list (upd_value a v st) this s (L1 ++ (a, v) :: L2) ∧
  frame this (s :: (L1 ++ (a, w) :: L2).*1) st (upd_value a v st).
Proof.
  intros Hok [Hl Hr]. pose proof (ring_cell _ _ _ _ _ _ Hr) as (Hn & _ & _ & Hne).
  split_and!.
  - unfold assign. simpl. rewrite decide_False by done. apply store_value_view. eauto.
  - apply (store_ok_grow st); [done|simpl; lia|by destruct Hok as (? & ? & ?)|].
    intros x. rewrite next_of_upd_value. eauto.
  - done.
  - split; [|by eapply ring_assign]. simpl. rewrite Hl. do 2 f_equal.
    by rewrite !length_app.
  - split_and!; [simpl; lia|done|]. intros x _ Hown.
    rewrite next_of_upd_value, prev_of_upd_value, value_of_upd_value.
    rewrite decide_False; [done|]. intros ->. apply Hown. rewrite fmap_app. set_solver.
Qed.

Lemma assign_end st s (v : T) : assign (mkIter s s) v st = Throw out_of_range st.
Proof. unfold assign. simpl. by rewrite decide_True. Qed.

(** Every call either completes and leaves a well-formed list whose new
    nodes are fresh, or throws and leaves the state as it was. *)
Lemma run_op_list st this s cells (o : op T) :
  store_ok st → is_list st this s cells → op_pre st this o →
  (∃ st' cells', run_op this o st = Ok () st' ∧
     store_ok st' ∧ is_list st' this s cells' ∧
     frame this (s :: cells.*1) st st' ∧
     (∀ x, valid_pos s cells' x → valid_pos s cells x ∨ next_of st x = None)) ∨
  (∃ e, run_op this o st = Throw e st).
Proof.
  intros Hok Hl Hpre.
  assert (∀ pos, iter_of st this pos →
            it_temp_node_ pos = s ∧
            ∃ L1 L2, cells = L1 ++ L2 ∧ current_ pos = first_or s L2.*1) as Hpos.
  { intros pos (l & Hl' & Ht & Hreach). rewrite (proj1 Hl) in Hl'. simplify_eq. simpl in *.
    split; [done|]. apply valid_pos_split; [apply Hl|]. eapply reach_valid; [apply Hl|done]. }
  assert (∀ pos v, iter_of st this pos →
    (∃ st' cells', (_ <- emplace this pos v ;; ret ()) st = Ok () st' ∧
       store_ok st' ∧ is_list st' this s cells' ∧
       frame this (s :: cells.*1) st st' ∧
       (∀ x, valid_pos s cells' x → valid_pos s cells x ∨ next_of st x = None)) ∨
    (∃ e, (_ <- emplace this pos v ;; ret ()) st = Throw e st)) as Hemplace.
  { intros [pos tn] v (_ & L1 & L2 & -> & Hcur)%Hpos. simpl in Hcur. subst pos.
    destruct (decide (brk st < WORD)) as [Hroom|Hfull].
    - destruct (emplace_list st this s L1 L2 tn v Hok Hl Hroom)
        as (st' & Hrun & ? & ? & ? & ? & _).
      left. exists st', (L1 ++ (brk st, v) :: L2). split_and!; [|done..|].
      + by rewrite (bind_ok _ _ _ _ _ Hrun).
      + unfold valid_pos. intros x. rewrite !fmap_app, fmap_cons. simpl.
        intros [->|Hx]; [by left; left|].
        destruct (decide (x = brk st)) as [->|]; [right; by apply store_ok_fresh|].
        left. right. set_solver.
    - right. exists bad_alloc. by rewrite (bind_throw _ _ _ _ _ (emplace_bad_alloc _ _ _ _ Hfull)). }
  assert (∀ A (m : M T A) a, m st = Ok a st →
    (∃ st' cells', (_ <- m ;; ret ()) st = Ok () st' ∧
       store_ok st' ∧ is_list st' this s cells' ∧
       frame this (s :: cells.*1) st st' ∧
       (∀ x, valid_pos s cells' x → valid_pos s cells x ∨ next_of st x = None)) ∨
    (∃ e, (_ <- m ;; ret ()) st = Throw e st)) as Hread.
  { intros A m a Hm. left. exists st, cells. rewrite (bind_ok _ _ _ _ _ Hm).
    split_and!; [done..|apply frame_refl|eauto]. }
  destruct o as [v|v|pos v|pos v|pos| | |fuel|pos v| | | | | | | | ]; simpl in *.
  - (* push_back *)
    destruct (decide (brk st < WORD)) as [Hroom|Hfull].
    + destruct (push_back_list st this s cells v Hok Hl Hroom) as (st' & ? & ? & ? & ? & ?).
      left. exists st', (cells ++ [(brk st, v)]). split_and!; [done..|].
      unfold valid_pos. intros x. rewrite fmap_app. simpl.
      intros [->|Hx]; [by left; left|].
      destruct (decide (x = brk st)) as [->|]; [right; by apply store_ok_fresh|].
      left. right. set_solver.
    + right. exists bad_alloc. by eapply push_back_bad_alloc.
  - (* push_front *)
    destruct (decide (brk st < WORD)) as [Hroom|Hfull].
    + destruct (push_front_list st this s cells v Hok Hl Hroom) as (st' & ? & ? & ? & ? & ?).
      left. exists st', ((brk st, v) :: cells). split_and!; [done..|].
      unfold valid_pos. intros x. rewrite fmap_cons. simpl.
      intros [->|Hx]; [by left; left|].
      destruct (decide (x = brk st)) as [->|]; [right; by apply store_ok_fresh|].
      left. right. set_solver.
    + right. exists bad_alloc. by eapply push_front_bad_alloc.
  - by apply Hemplace.
  - by apply Hemplace.
  - (* erase *)
    destruct pos as [pos tn]. apply Hpos in Hpre as (_ & L1 & L2 & -> & Hcur).
    simpl in Hcur. subst pos. destruct L2 as [|[a v] L2].
    + right. exists out_of_range. simpl.
      by rewrite (bind_throw _ _ _ _ _ (erase_end _ _ _ _ _ Hl)).
    + destruct (erase_list st this s L1 L2 a v tn Hok Hl) as (st' & Hrun & ? & ? & ? & ? & _).
      left. exists st', (L1 ++ L2). simpl. rewrite (bind_ok _ _ _ _ _ Hrun).
      split_and!; [done..|].
      unfold valid_pos. intros x. rewrite !fmap_app, fmap_cons. set_solver.
  - (* pop_front *)
    destruct cells as [|[a v] cells].
    + right. exists out_of_range. by eapply pop_front_empty.
    + destruct (pop_front_list st this s a v cells Hok Hl) as (st' & ? & ? & ? & ? & ?).
      left. exists st', cells. split_and!; [done..|].
      unfold valid_pos. intros x. rewrite fmap_cons. set_solver.
  - (* pop_back *)
    destruct cells as [|[a v] cells _] using rev_ind.
    + right. exists out_of_range. by eapply pop_back_empty.
    + destruct (pop_back_list st this s a v cells Hok Hl) as (st' & ? & ? & ? & ? & ?).
      left. exists st', cells. split_and!; [done..|].
      unfold valid_pos. intros x. rewrite fmap_app. set_solver.
  - (* clear *)
    destruct Hpre as (l & Hl' & Hfuel). rewrite (proj1 Hl) in Hl'. simplify_eq.
    simpl in Hfuel. rewrite Nat2N.id in Hfuel.
    destruct (clear_list st this s cells fuel Hok Hl Hfuel) as (st' & ? & ? & ? & ? & ?).
    left. exists st', []. split_and!; [done..|].
    unfold valid_pos. intros x. set_solver.
  - (* assignment through an iterator *)
    destruct pos as [pos tn]. apply Hpos in Hpre as (Htn & L1 & L2 & -> & Hcur).
    simpl in Hcur, Htn. subst pos tn. destruct L2 as [|[a w] L2].
    + right. exists out_of_range. apply assign_end.
    + destruct (assign_list st this s L1 L2 a w v Hok Hl) as (? & ? & ? & ? & ?).
      left. exists (upd_value a v st), (L1 ++ (a, v) :: L2). split_and!; [done..|].
      unfold valid_pos. intros x. rewrite !fmap_app, !fmap_cons. eauto.
  - (* front *)
    destruct cells as [|[a v] cells].
    + right. exists out_of_range. by rewrite (bind_throw _ _ _ _ _ (front_empty _ _ _ Hl)).
    + eapply Hread. by eapply front_list.
  - (* back *)
    destruct cells as [|[a v] cells _] using rev_ind.
    + right. exists out_of_range. by rewrite (bind_throw _ _ _ _ _ (back_empty _ _ _ Hl)).
    + eapply Hread. by eapply back_list.
  - eapply Hread. by eapply size_list.
  - eapply Hread. by eapply empty_list.
  - eapply Hread. by eapply begin_list.
  - eapply Hread. by eapply end_list.
  - eapply Hread. unfold rbegin. apply noexcept_ok.
    by rewrite (bind_ok _ _ _ _ _ (end_list _ _ _ _ Hl)).
  - eapply Hread. unfold rend. apply noexcept_ok.
    by rewrite (bind_ok _ _ _ _ _ (begin_list _ _ _ _ Hl)).
Qed.

(** A step of the client keeps the list well formed. *)
Lemma op_step_list st st' this s cells :
  store_ok st → is_list st this s cells → op_step this st st' →
  ∃ cells', store_ok st' ∧ is_list st' this s cells' ∧
    frame this (s :: cells.*1) st st' ∧
    (∀ x, valid_pos s cells' x → valid_pos s cells x ∨ next_of st x = None).
Proof.
  intros Hok Hl (o & Hpre & Hrun).
  destruct (run_op_list st this s cells o Hok Hl Hpre)
    as [(st1 & cells' & Hrun1 & ? & ? & ? & ?)|(e1 & Hrun1)].
  - destruct Hrun as [Hrun|(e & Hrun)]; rewrite Hrun1 in Hrun; simplify_eq. eauto.
  - destruct Hrun as [Hrun|(e & Hrun)]; rewrite Hrun1 in Hrun; simplify_eq.
    exists cells. split_and!; [done..|apply frame_refl|eauto].
Qed.

End Client.

(** ** Constructors and assignment *)

Section Lifecycle.
Context {T : Type} `{!Inhabited T}.
Implicit Types (st : state T) (p q x s this other : ptr) (cells : list (ptr * T)).

Lemma CircularList_init_list st this (init : list T) :
  store_ok st → brk st + N.of_nat (length init) + 1 ≤ WORD →
  ∃ st' cells, CircularList_init this init st = Ok () st' ∧
    store_ok st' ∧ brk st' = brk st + N.of_nat (length init) + 1 ∧
    is_list st' this (brk st) cells ∧ cells.*2 = init ∧
    frame this [] st st' ∧
    (∀ x, valid_pos (brk st) cells x → next_of st x = None).
Proof.
  intros Hok Hroom.
  destruct (CircularList_default_list st this Hok) as (st1 & Hrun1 & Hok1 & Hb1 & Hl1 & Hfr1); [lia|].
  destruct (push_back_each_list st1 this (brk st) [] init Hok1 Hl1)
    as (st2 & new & Hrun2 & Hok2 & Hb2 & Hl2 & Hnew & Hfresh & Hfr2); [lia|].
  exists st2, new. split_and!; [|done|lia|done|done| |].
  - unfold CircularList_init. rewrite (bind_ok _ _ _ _ _ Hrun1). by apply unwind_ok.
  - eapply frame_trans; [done|done|]. intros x [->|?]%elem_of_cons; [|set_solver].
    right. by apply store_ok_fresh.
  - intros x [->|Hx]; [by apply store_ok_fresh|].
    destruct (next_of st x) eqn:E; [|done].
    destruct Hfr1 as (_ & _ & Hsame). destruct (Hsame x) as (E1 & _); [eauto|set_solver|].
    rewrite Hfresh in E1; [|done]. congruence.
Qed.

Lemma copy_loop_list st this other s so cells (K1 K2 : list (ptr * T)) fuel :
  store_ok st → this ≠ other →
  is_list st this s cells → is_list st other so (K1 ++ K2) →
  apart s cells so (K1 ++ K2) →
  (length K2 < fuel)%nat → brk st + N.of_nat (length K2) ≤ WORD →
  ∃ st' new, copy_loop fuel this (mkIter (first_or so K2.*1) so) (mkIter so so) st = Ok () st' ∧
    store_ok st' ∧ brk st' = brk st + N.of_nat (length K2) ∧
    is_list st' this s (cells ++ new) ∧ new.*2 = K2.*2 ∧
    is_list st' other so (K1 ++ K2) ∧
    (∀ x, x ∈ new.*1 → next_of st x = None) ∧
    frame this (s :: cells.*1) st st'.
Proof.
  revert st K1 cells fuel.
  induction K2 as [|[a v] K2 IH]; intros st K1 cells fuel Hok Hne Hl Hlo Hap Hfuel Hroom.
  - destruct fuel as [|fuel]; [lia|]. exists st, []. rewrite app_nil_r.
    split_and!; [|done|simpl; lia|done|done|done|set_solver|apply frame_refl].
    simpl. unfold iter_ne, iter_eq. simpl. by rewrite bool_decide_eq_true_2.
  - destruct fuel as [|fuel]; [simpl in Hfuel; lia|]. simpl in Hroom, Hfuel.
    pose proof (proj2 Hlo) as Hro.
    destruct (ring_cell _ _ _ _ _ _ Hro) as (_ & _ & _ & Hnes).
    destruct (push_back_list st this s cells v Hok Hl) as (st1 & Hrun1 & Hok1 & Hb1 & Hl1 & Hfr1);
      [lia|].
    assert (is_list st1 other so (K1 ++ (a, v) :: K2)) as Hlo1.
    { eapply is_list_frame; [done|done| |done]. intros x Hx Hin. apply (Hap x Hx).
      unfold valid_pos. set_solver. }
    pose proof (store_ok_fresh _ Hok) as Hfresh.
    destruct (IH st1 (K1 ++ [(a, v)]) (cells ++ [(brk st, v)]) fuel)
      as (st2 & new & Hrun2 & Hok2 & Hb2 & Hl2 & Hnew & Hlo2 & Hfr & Hfr2);
      [done|done|done|by rewrite <-app_assoc| |lia|lia|].
    { rewrite <-app_assoc. simpl. intros x Hx Hin.
      assert (is_Some (next_of st x)) as [? Hlive] by (eapply ring_live; [apply Hlo|done]).
      unfold valid_pos in Hin. rewrite fmap_app in Hin. simpl in Hin.
      destruct (decide (x = brk st)) as [->|]; [congruence|].
      apply (Hap x Hx). unfold valid_pos. set_solver. }
    exists st2, ((brk st, v) :: new). split_and!.
    + simpl. unfold iter_ne, iter_eq. simpl. rewrite bool_decide_eq_false_2 by done. simpl.
      rewrite (bind_ok _ _ _ _ _ (deref_cell _ _ _ _ _ _ Hro)).
      rewrite (bind_ok _ _ _ _ _ Hrun1).
      rewrite (bind_ok _ _ _ _ _ (incr_cell _ _ _ _ _ _ (proj2 Hlo1))).
      done.
    + done.
    + simpl length. lia.
    + by rewrite <-app_assoc in Hl2.
    + by rewrite !fmap_cons, Hnew.
    + by rewrite <-app_assoc in Hlo2.
    + rewrite fmap_cons. intros x [->|Hx]%elem_of_cons; [done|].
      destruct (next_of st x) eqn:E; [|done].
      destruct Hfr1 as (_ & _ & Hsame).
      destruct (decide (x ∈ s :: cells.*1)) as [Hin|Hout].
      * assert (is_Some (next_of st1 x)) as [? E1]; [|by rewrite Hfr in E1].
        eapply ring_live; [apply Hl1|]. unfold valid_pos. rewrite fmap_app. set_solver.
      * destruct (Hsame x) as (E1 & _); [eauto|done|].
        rewrite Hfr in E1; [|done]. congruence.
    + eapply frame_trans; [done|done|]. intros x Hx. rewrite fmap_app in Hx. simpl in Hx.
      destruct (decide (x = brk st)) as [->|]; [by right|left; set_solver].
Qed.

Lemma copy_from_list st this other s so cells co fuel :
  store_ok st → this ≠ other →
  is_list st this s cells → is_list st other so co → apart s cells so co →
  (length co < fuel)%nat → brk st + N.of_nat (length co) ≤ WORD →
  ∃ st' new, copy_from fuel this other st = Ok () st' ∧
    store_ok st' ∧ brk st' = brk st + N.of_nat (length co) ∧
    is_list st' this s (cells ++ new) ∧ new.*2 = co.*2 ∧
    is_list st' other so co ∧
    (∀ x, x ∈ new.*1 → next_of st x = None) ∧
    frame this (s :: cells.*1) st st'.
Proof.
  intros Hok Hne Hl Hlo Hap Hfuel Hroom.
  destruct (copy_loop_list st this other s so cells [] co fuel) as (st' & new & Hrun & ?);
    [done..|].
  exists st', new. split; [|done]. unfold copy_from.
  rewrite (bind_ok _ _ _ _ _ (begin_list _ _ _ _ Hlo)).
  by rewrite (bind_ok _ _ _ _ _ (end_list _ _ _ _ Hlo)).
Qed.

Lemma CircularList_copy_list st this other so co fuel :
  store_ok st → this ≠ other → is_list st other so co →
  (length co < fuel)%nat → brk st + N.of_nat (length co) + 1 ≤ WORD →
  ∃ st' cells, CircularList_copy fuel this other st = Ok () st' ∧
    store_ok st' ∧
    is_list st' this (brk st) cells ∧ cells.*2 = co.*2 ∧
    is_list st' other so co ∧
    apart (brk st) cells so co ∧
    frame this [] st st'.
Proof.
  intros Hok Hne Hlo Hfuel Hroom.
  destruct (CircularList_default_list st this Hok) as (st1 & Hrun1 & Hok1 & Hb1 & Hl1 & Hfr1); [lia|].
  assert (is_list st1 other so co) as Hlo1.
  { eapply is_list_frame; [done|done| |done]. set_solver. }
  assert (∀ x, valid_pos so co x → x ≠ brk st) as Hold.
  { intros x Hx ->.
    assert (is_Some (next_of st (brk st))) as [? E] by (eapply ring_live; [apply Hlo|done]).
    by rewrite (store_ok_fresh _ Hok) in E. }
  destruct (copy_from_list st1 this other (brk st) so [] co fuel)
    as (st2 & new & Hrun2 & Hok2 & Hb2 & Hl2 & Hnew & Hlo2 & Hfresh & Hfr2); [done..| |done|lia|].
  { intros x Hx [->|Hin]; [by apply (Hold _ Hx)|set_solver]. }
  exists st2, new. split_and!; [|done..| |].
  - unfold CircularList_copy. rewrite (bind_ok _ _ _ _ _ Hrun1). by apply unwind_ok.
  - intros x Hx [->|Hin]; [by apply (Hold _ Hx)|].
    assert (is_Some (next_of st1 x)) as [? E] by (eapply ring_live; [apply Hlo1|done]).
    rewrite Hfresh in E; [done|]. set_solver.
  - eapply frame_trans; [done|done|]. intros x [->|?]%elem_of_cons; [|set_solver].
    right. by apply store_ok_fresh.
Qed.

Lemma apart_nil s cells so (co : list (ptr * T)) :
  apart s cells so co → apart s [] so co.
Proof. intros Hap x Hx [->|Hin]; [|set_solver]. apply (Hap s Hx). by left. Qed.

Lemma apart_owned s cells so (co : list (ptr * T)) x :
  apart s cells so co → valid_pos so co x → x ∉ s :: cells.*1.
Proof. intros Hap Hx Hin. apply (Hap x Hx). unfold valid_pos. set_solver. Qed.

Lemma ring_set_lists st f s cells : ring st s cells → ring (set_lists f st) s cells.
Proof. intros Hr. by apply (ring_frame st). Qed.

Lemma CircularList_move_list st this other so co :
  store_ok st → this ≠ other → is_list st other so co →
  ∃ st', CircularList_move this other st = Ok () st' ∧
    store_ok st' ∧ is_list st' this so co ∧
    lists st' !! other = Some (mkList nullptr 0) ∧
    nodes st' = nodes st ∧ brk st' = brk st.
Proof.
  intros Hok Hne [Hlo Hro]. eexists. split.
  - unfold CircularList_move. apply noexcept_ok.
    rewrite (bind_ok _ _ _ _ _ (get_temp_node_ok _ _ _ Hlo)).
    rewrite (bind_ok _ _ _ _ _ (get_size_ok _ _ _ Hlo)).
    unfold init_members at 1. unfold bind at 1.
    erewrite bind_ok; [|apply set_temp_node_ok; simpl; by rewrite lookup_insert_ne].
    apply set_size_ok. simpl. apply lookup_insert_eq.
  - simpl. split_and!; [exact Hok| | |done..].
    + split; [|by do 3 apply ring_set_lists]. simpl.
      by rewrite !lookup_insert_ne, lookup_insert_eq by done.
    + by rewrite lookup_insert_eq.
Qed.

Lemma copy_assign_self st this fuel : copy_assign fuel this this st = Ok () st.
Proof. unfold copy_assign. by rewrite decide_False by naive_solver. Qed.

Lemma move_assign_self st this fuel : move_assign fuel this this st = Ok () st.
Proof. unfold move_assign, noexcept. by rewrite decide_False by naive_solver. Qed.

Lemma copy_assign_list st this other s so cells co fuel :
  store_ok st → this ≠ other →
  is_list st this s cells → is_list st other so co → apart s cells so co →
  (length cells < fuel)%nat → (length co < fuel)%nat →
  brk st + N.of_nat (length co) ≤ WORD →
  ∃ st' new, copy_assign fuel this other st = Ok () st' ∧
    store_ok st' ∧ is_list st' this s new ∧ new.*2 = co.*2 ∧
    is_list st' other so co ∧ apart s new so co.
Proof.
  intros Hok Hne Hl Hlo Hap Hf1 Hf2 Hroom.
  destruct (clear_list st this s cells fuel Hok Hl Hf1) as (st1 & Hrun1 & Hok1 & Hb1 & Hl1 & Hfr1).
  assert (is_list st1 other so co) as Hlo1.
  { eapply is_list_frame; [done|done| |done]. intros x Hx. by eapply apart_owned. }
  destruct (copy_from_list st1 this other s so [] co fuel)
    as (st2 & new & Hrun2 & Hok2 & Hb2 & Hl2 & Hnew & Hlo2 & Hfresh & Hfr2);
    [done..|by eapply apart_nil|done|lia|].
  exists st2, new. split_and!; [|done..|].
  - unfold copy_assign. rewrite decide_True by done.
    by rewrite (bind_ok _ _ _ _ _ Hrun1).
  - intros x Hx [->|Hin]; [apply (Hap s Hx); by left|].
    assert (is_Some (next_of st1 x)) as [? E] by (eapply ring_live; [apply Hlo1|done]).
    rewrite Hfresh in E; [done|]. set_solver.
Qed.

Lemma move_assign_list st this other s so cells co fuel :
  store_ok st → this ≠ other →
  is_list st this s cells → is_list st other so co → apart s cells so co →
  (length cells < fuel)%nat →
  ∃ st', move_assign fuel this other st = Ok () st' ∧
    store_ok st' ∧ is_list st' this so co ∧
    lists st' !! other = Some (mkList nullptr 0).
Proof.
  intros Hok Hne Hl Hlo Hap Hf1.
  destruct (clear_list st this s cells fuel Hok Hl Hf1) as (st1 & Hrun1 & Hok1 & Hb1 & Hl1 & Hfr1).
  assert (is_list st1 other so co) as Hlo1.
  { eapply is_list_frame; [done|done| |done]. intros x Hx. by eapply apart_owned. }
  destruct Hl1 as [Hlk1 Hr1]. destruct Hlo1 as [Hlko1 Hro1].
  assert (is_Some (next_of st1 s)) as Hlive by (eapply ring_live; [exact Hr1|by left]).
  assert (s ≠ nullptr) as Hnull.
  { intros ->. destruct Hok1 as (_ & _ & Hb). destruct (Hb nullptr); [|unfold nullptr in *; lia].
    by apply live_next. }
  eexists. split.
  - unfold move_assign. apply noexcept_ok. rewrite decide_True by done.
    rewrite (bind_ok _ _ _ _ _ Hrun1).
    rewrite (bind_ok _ _ _ _ _ (get_temp_node_ok _ _ _ Hlk1)). simpl.
    rewrite (bind_ok _ _ _ _ _ (delete_Node_view _ _ Hnull Hlive)).
    erewrite bind_ok; [|apply get_temp_node_ok; simpl; exact Hlko1].
    erewrite bind_ok; [|apply set_temp_node_ok; simpl; exact Hlk1].
    erewrite bind_ok; [|apply get_size_ok; simpl; by rewrite lookup_insert_ne].
    erewrite bind_ok; [|apply set_size_ok; simpl; apply lookup_insert_eq].
    erewrite bind_ok; [|apply set_temp_node_ok; simpl; by rewrite !lookup_insert_ne].
    apply set_size_ok. simpl. apply lookup_insert_eq.
  - split_and!.
    + apply (store_ok_grow st1); [done|simpl; lia|by destruct Hok1 as (? & ? & ?)|].
      intros x. rewrite !next_of_set_lists, next_of_free.
      case_decide; [by intros [? ?]|eauto].
    + split; [simpl; by rewrite !lookup_insert_ne, lookup_insert_eq by done|].
      do 4 apply ring_set_lists.
      eapply (ring_frame st1); [exact Hro1|]. intros x Hx.
      assert (x ≠ s) by (intros ->; apply (Hap s Hx); by left).
      rewrite next_of_free, prev_of_free, value_of_free.
      by rewrite !decide_False by done.
    + simpl. by rewrite lookup_insert_eq.
Qed.

(** Calls on one list leave a list that shares no node with it as it was,
    and the two lists stay apart. *)
Lemma op_step_apart st st' this other s so cells co :
  store_ok st → this ≠ other →
  is_list st this s cells → is_list st other so co → apart s cells so co →
  op_step this st st' →
  store_ok st' ∧ is_list st' other so co ∧
  ∃ cells', is_list st' this s cells' ∧ apart s cells' so co.
Proof.
  intros Hok Hne Hl Hlo Hap Hstep.
  destruct (op_step_list st st' this s cells Hok Hl Hstep) as (cells' & Hok' & Hl' & Hfr & Hnew).
  split_and!; [done| |].
  - eapply is_list_frame; [done|done| |done]. intros x Hx. by eapply apart_owned.
  - exists cells'. split; [done|]. intros x Hx Hin.
    destruct (Hnew x Hin) as [Hold|Hfresh]; [by apply (Hap x Hx)|].
    assert (is_Some (next_of st x)) as [? E] by (eapply ring_live; [apply Hlo|done]).
    congruence.
Qed.

Lemma op_steps_apart st st' this other s so cells co :
  store_ok st → this ≠ other →
  is_list st this s cells → is_list st other so co → apart s cells so co →
  rtc (op_step this) st st' →
  store_ok st' ∧ is_list st' other so co ∧
  ∃ cells', is_list st' this s cells' ∧ apart s cells' so co.
Proof.
  intros Hok Hne Hl Hlo Hap Hsteps. revert cells Hok Hl Hlo Hap.
  induction Hsteps as [st|st st1 st2 Hstep _ IH]; intros cells Hok Hl Hlo Hap; [eauto|].
  destruct (op_step_apart st st1 this other s so cells co) as (? & ? & cells1 & ? & ?); [done..|].
  by eapply IH.
Qed.

End Lifecycle.

(** ** Walking backwards *)

Section Backwards.
Context {T : Type} `{!Inhabited T}.
Implicit Types (st : state T) (p q x s this : ptr) (cells : list (ptr * T)).

Lemma decr_no_throw st it e st' : decr it st ≠ Throw e st'.
Proof.
  unfold decr, bind, load, ret.
  destruct (nodes st !! current_ it) as [n|]; [|done].
  case_decide; [|done]. by destruct (nodes st !! prev n).
Qed.

(** One decrement from the element at index [i] lands on the element at
    index [i - 1], or on the last element when [i] is 0. *)
Lemma decr_index st s cells i a :
  ring st s cells → cells.*1 !! i = Some a →
  ∃ b, decr (mkIter a s) st = Ok (mkIter b s) st ∧
       cells.*1 !! ((i + (length cells - 1)) mod length cells)%nat = Some b.
Proof.
  intros Hr Hi. rewrite list_lookup_fmap in Hi.
  destruct (cells !! i) as [[a' v]|] eqn:Hc; [|done]. simpl in Hi. simplify_eq.
  pose proof (lookup_lt_Some _ _ _ Hc) as Hlt.
  pose proof (take_drop_middle _ _ _ Hc) as Hsplit.
  pose proof Hr as Hr'. rewrite <-Hsplit in Hr'.
  pose proof (decr_pos st s (take i cells) ((a, v) :: drop (S i) cells) Hr') as Hd.
  rewrite Hsplit in Hd. change (first_or s ((a, v) :: drop (S i) cells).*1) with a in Hd.
  eexists. split; [exact Hd|].
  assert (∀ (l : list ptr) j, (j < length l)%nat →
            l !! j = Some (default s (l !! j))) as Hget.
  { intros l j Hj. destruct (l !! j) eqn:E; [done|]. apply lookup_ge_None in E. lia. }
  destruct i as [|i].
  - rewrite take_0, decide_True by done.
    rewrite Nat.mod_small by lia.
    unfold last_or. rewrite last_lookup, length_fmap.
    replace (Init.Nat.pred (length cells)) with (length cells - 1)%nat by lia.
    apply Hget. rewrite length_fmap. lia.
  - rewrite decide_False.
    2:{ intros E. apply (f_equal length) in E. rewrite length_take in E.
        change (length (@nil (ptr * T))) with 0%nat in E. lia. }
    replace (S i + (length cells - 1))%nat with (i + 1 * length cells)%nat by lia.
    rewrite Nat.Div0.mod_add, Nat.mod_small by lia.
    unfold last_or. rewrite last_lookup, length_fmap, length_take.
    replace (Init.Nat.pred (S i `min` length cells)) with i by lia.
    rewrite fmap_take, lookup_take_lt by lia.
    apply Hget. rewrite length_fmap. lia.
Qed.

(** [n] decrements from index [i] land on index [i - n] modulo the size:
    the walk keeps going round the elements. *)
Lemma decr_n_index st s cells n i a :
  ring st s cells → cells.*1 !! i = Some a →
  ∃ b, decr_n n (mkIter a s) st = Ok (mkIter b s) st ∧
       cells.*1 !! ((i + n * (length cells - 1)) mod length cells)%nat = Some b.
Proof.
  intros Hr. revert i a. induction n as [|n IH]; intros i a Hi.
  - exists a. split; [done|]. pose proof (lookup_lt_Some _ _ _ Hi) as Hlt.
    rewrite length_fmap in Hlt. rewrite Nat.add_0_r, Nat.mod_small by lia. done.
  - destruct (decr_index st s cells i a Hr Hi) as (b & Hd & Hb).
    destruct (IH _ _ Hb) as (c & Hdn & Hc).
    exists c. split.
    + simpl. by rewrite (bind_ok _ _ _ _ _ Hd).
    + rewrite Nat.Div0.add_mod_idemp_l in Hc.
      rewrite <-Hc. f_equal. f_equal. lia.
Qed.

(** From any position of a non-empty list, one decrement or more ends on an
    element, never on the sentinel. *)
Lemma decr_n_elem st s cells n pos :
  ring st s cells → cells ≠ [] → valid_pos s cells pos →
  ∃ a, decr_n (S n) (mkIter pos s) st = Ok (mkIter a s) st ∧ a ∈ cells.*1 ∧ a ≠ s.
Proof.
  intros Hr Hne Hpos.
  assert (∀ a, a ∈ cells.*1 → a ≠ s) as Hns.
  { intros a Ha ->. destruct Hr as (Hnd & _). apply NoDup_cons in Hnd as [? _]. done. }
  assert (∃ a, decr (mkIter pos s) st = Ok (mkIter a s) st ∧ a ∈ cells.*1) as (a & Hd & Ha).
  { apply valid_pos_split in Hpos as (L1 & L2 & -> & ->); [|apply Hr].
    eexists. split; [by apply decr_pos|].
    case_decide as HL1.
    - subst L1. simpl in *. unfold last_or.
      destruct (last L2.*1) as [y|] eqn:E; simpl.
      + by eapply last_Some_elem_of.
      + apply last_None in E. by destruct L2.
    - rewrite fmap_app. unfold last_or.
      destruct (last L1.*1) as [y|] eqn:E; simpl.
      + apply last_Some_elem_of in E. set_solver.
      + apply last_None in E. by destruct L1. }
  apply list_elem_of_lookup in Ha as [i Hi].
  destruct (decr_n_index st s cells n i a Hr Hi) as (b & Hdn & Hb).
  exists b. split_and!.
  - simpl. by rewrite (bind_ok _ _ _ _ _ Hd).
  - by eapply list_elem_of_lookup_2.
  - apply Hns. by eapply list_elem_of_lookup_2.
Qed.

End Backwards.

Ltac by_computation :=
  match goal with |- ?P => apply (bool_decide_unpack P) end; vm_compute; exact I.

Lemma list123_ok : store_ok list123 ∧ is_list list123 100 1 cells123.
Proof. split; by_computation. Qed.

(** * The claims of the specification *)

Section Claims.
Context {T : Type} `{!Inhabited T}.
Implicit Types (st : state T) (p q x s this other : ptr) (cells : list (ptr * T)).

(** C1: on a well-formed list and for a position [pos] of it, [erase(pos)]
    throws [out_of_range] exactly when the list is empty or [pos] is the
    sentinel; a throw leaves the whole state, so the size and the elements,
    as it was; otherwise the call unlinks and releases exactly the node at
    [pos], the size goes down by one, and the returned iterator points at the
    node that followed, which is [end()] exactly when the erased node was the
    last one.  On an empty list the call throws whatever iterator it is
    given. *)
Theorem C1_erase_contract st this s cells pos tn :
  store_ok st → is_list st this s cells → valid_pos s cells pos →
  ((∃ st', erase this (mkIter pos tn) st = Throw out_of_range st') ↔
     (cells = [] ∨ pos = s)) ∧
  (cells = [] → ∀ it, erase this it st = Throw out_of_range st) ∧
  (∀ e st', erase this (mkIter pos tn) st = Throw e st' → e = out_of_range ∧ st' = st) ∧
  (cells ≠ [] → pos ≠ s →
   ∃ L1 v L2 st' e,
     cells = L1 ++ (pos, v) :: L2 ∧
     erase this (mkIter pos tn) st = Ok (mkIter (first_or s L2.*1) s) st' ∧
     is_list st' this s (L1 ++ L2) ∧
     (∀ x, is_Some (nodes st' !! x) ↔ x ≠ pos ∧ is_Some (nodes st !! x)) ∧
     size this st' = Ok (N.of_nat (length cells) - 1) st' ∧
     end_ this st' = Ok e st' ∧
     (iter_eq (mkIter (first_or s L2.*1) s) e = true ↔ L2 = [])).
Proof.
  intros Hok Hl Hpos.
  assert (cells = [] ∨ pos = s ∨
          ∃ L1 v L2, cells = L1 ++ (pos, v) :: L2) as Hcases.
  { destruct Hpos as [->|Hin]; [by right; left|]. right. right.
    apply list_elem_of_fmap in Hin as ([a v] & -> & Hin).
    apply list_elem_of_split in Hin as (L1 & L2 & ->). by exists L1, v, L2. }
  assert (cells = [] ∨ pos = s → erase this (mkIter pos tn) st = Throw out_of_range st) as Hthrow.
  { intros [->| ->]; [by eapply erase_empty|by eapply erase_end]. }
  assert (∀ L1 v L2, cells = L1 ++ (pos, v) :: L2 → cells ≠ [] ∧ pos ≠ s) as Hmid.
  { intros L1 v L2 ->. split; [by destruct L1|].
    by destruct (ring_cell st s L1 L2 pos v (proj2 Hl)) as (_ & _ & _ & ?). }
  split_and!.
  - split; [|intros Hc; exists st; by apply Hthrow].
    intros [st' Hrun]. destruct Hcases as [?|[?|(L1 & v & L2 & ->)]]; [by left|by right|].
    destruct (erase_list st this s L1 L2 pos v tn Hok Hl) as (? & Hrun' & _). congruence.
  - intros -> it. by eapply erase_empty.
  - intros e st' Hrun. destruct Hcases as [?|[?|(L1 & v & L2 & ->)]].
    + rewrite Hthrow in Hrun by eauto. by simplify_eq.
    + rewrite Hthrow in Hrun by eauto. by simplify_eq.
    + destruct (erase_list st this s L1 L2 pos v tn Hok Hl) as (? & Hrun' & _). congruence.
  - intros Hne Hps. destruct Hcases as [?|[?|(L1 & v & L2 & ->)]]; [done..|].
    destruct (erase_list st this s L1 L2 pos v tn Hok Hl)
      as (st' & Hrun & Hok' & _ & Hl' & _ & Hnext & _).
    exists L1, v, L2, st', (mkIter s s). split_and!; [done..| | | |].
    + intros x. rewrite !live_next, Hnext.
      destruct (decide (x = pos)) as [->|Hx]; [split; [by intros [? ?]|by intros [? _]]|].
      destruct (decide (x = last_or s L1.*1)) as [->|]; [|naive_solver].
      split; [|eauto]. intros _. split; [done|].
      eapply ring_live; [apply Hl|apply valid_pos_last].
    + rewrite (size_list _ _ _ _ Hl'). do 2 f_equal. rewrite !length_app. simpl. lia.
    + by eapply end_list.
    + unfold iter_eq. simpl. rewrite bool_decide_eq_true. split; [|by intros ->].
      destruct L2 as [|[b w] L2]; [done|].
      change (first_or s ((b, w) :: L2).*1) with b. intros ->.
      destruct Hl' as [_ Hr']. by apply ring_cell in Hr' as (_ & _ & _ & ?).
Qed.

(** C2: incrementing an iterator at the sentinel ([end()]) throws
    [out_of_range], while a decrement never throws, whatever the state and
    the iterator: from a position of a well-formed list it moves to the
    previous node, and one node further when that is the sentinel.  So on a
    non-empty list [--begin()] is the last element, any number of decrements
    from any position ends on an element and never on the sentinel, and [n]
    decrements from the element at index [i] end at index [i - n] modulo the
    size: the walk wraps round the elements for ever.  An empty list has no
    element to land on: there the decrement of [end()] is [end()]. *)
Theorem C2_increment_decrement st this s cells :
  is_list st this s cells →
  (∃ e, end_ this st = Ok e st ∧ incr e st = Throw out_of_range st) ∧
  (∀ (st0 : state T) it e st', decr it st0 ≠ Throw e st') ∧
  (∀ pos, valid_pos s cells pos →
     ∃ p p', prev_of st pos = Some p ∧ prev_of st p = Some p' ∧
       decr (mkIter pos s) st = Ok (mkIter (if decide (p = s) then p' else p) s) st) ∧
  (cells ≠ [] →
     ∃ b, begin this st = Ok b st ∧
       decr b st = Ok (mkIter (last_or s cells.*1) s) st ∧
       last cells.*1 = Some (last_or s cells.*1) ∧
       last_or s cells.*1 ≠ s) ∧
  (cells ≠ [] →
     ∀ pos n, valid_pos s cells pos →
       ∃ a, decr_n (S n) (mkIter pos s) st = Ok (mkIter a s) st ∧ a ∈ cells.*1 ∧ a ≠ s) ∧
  (∀ i a n, cells.*1 !! i = Some a →
     ∃ b, decr_n n (mkIter a s) st = Ok (mkIter b s) st ∧
       cells.*1 !! ((i + n * (length cells - 1)) mod length cells)%nat = Some b) ∧
  (cells = [] → decr (mkIter s s) st = Ok (mkIter s s) st).
Proof.
  intros [Hlk Hr]. split_and!.
  - exists (mkIter s s). split; [by apply (end_list st this s cells)|apply incr_end].
  - intros. apply decr_no_throw.
  - intros pos Hpos.
    destruct (ring_neighbours st s cells pos Hr Hpos) as (_ & p & _ & _ & Hp & _ & _ & Hvp).
    destruct (ring_neighbours st s cells p Hr Hvp) as (_ & p' & _ & _ & Hp' & _).
    exists p, p'. split_and!; [done..|].
    unfold decr. rewrite (bind_ok _ _ _ _ _ (load_prev_view _ _ _ Hp)). simpl.
    case_decide; [|done]. subst p. by rewrite (bind_ok _ _ _ _ _ (load_prev_view _ _ _ Hp')).
  - intros Hne. exists (mkIter (first_or s cells.*1) s).
    split_and!.
    + by apply (begin_list st this s cells).
    + pose proof (decr_pos st s [] cells Hr) as Hd. by rewrite decide_True in Hd.
    + unfold last_or. destruct (last cells.*1) eqn:E; [done|].
      apply last_None in E. by destruct cells.
    + unfold last_or. destruct (last cells.*1) as [y|] eqn:E.
      * simpl. intros ->. apply last_Some_elem_of in E.
        destruct Hr as (Hnd & _). by apply NoDup_cons in Hnd as [? _].
      * apply last_None in E. by destruct cells.
  - intros Hne pos n Hpos. by apply decr_n_elem.
  - intros i a n Hi. by apply decr_n_index.
  - intros ->. apply (decr_pos st s [] [] Hr).
Qed.

(** C3: on an empty list [begin()] and the predecessor of [end()] are both
    the sentinel, [erase] of the sentinel throws [out_of_range], and so
    [pop_front()], which is [erase(begin())], and [pop_back()], which is
    [erase(--end())], both throw [out_of_range] and change nothing. *)
Theorem C3_pop_on_empty_throws st this s :
  is_list st this s [] →
  pop_front (T:=T) this = (b <- begin this ;; _ <- erase this b ;; ret ()) ∧
  pop_back (T:=T) this = (e <- end_ this ;; e' <- decr e ;; _ <- erase this e' ;; ret ()) ∧
  begin this st = Ok (mkIter s s) st ∧
  (e <- end_ this ;; decr e) st = Ok (mkIter s s) st ∧
  erase this (mkIter s s) st = Throw out_of_range st ∧
  pop_front this st = Throw out_of_range st ∧
  pop_back this st = Throw out_of_range st.
Proof.
  intros Hl. split_and!; [done|done|..].
  - by rewrite (begin_list _ _ _ _ Hl).
  - rewrite (bind_ok _ _ _ _ _ (end_list _ _ _ _ Hl)).
    apply (decr_pos st s [] [] (proj2 Hl)).
  - by eapply erase_end.
  - by eapply pop_front_empty.
  - by eapply pop_back_empty.
Qed.

(** C4: [front()] and [back()] throw [out_of_range] exactly when the size is
    0; on a non-empty list [front()] returns the value of the node after the
    sentinel and [back()] the value of the node before it. *)
Theorem C4_front_back st this s cells :
  is_list st this s cells →
  size this st = Ok (N.of_nat (length cells)) st ∧
  ((∃ e st', front this st = Throw e st') ↔ N.of_nat (length cells) = 0) ∧
  ((∃ e st', back this st = Throw e st') ↔ N.of_nat (length cells) = 0) ∧
  (N.of_nat (length cells) = 0 →
     front this st = Throw out_of_range st ∧ back this st = Throw out_of_range st) ∧
  (N.of_nat (length cells) ≠ 0 →
     ∃ a v b w,
       next_of st s = Some a ∧ value_of st a = Some v ∧ front this st = Ok v st ∧
       prev_of st s = Some b ∧ value_of st b = Some w ∧ back this st = Ok w st).
Proof.
  intros Hl.
  assert (cells ≠ [] →
          ∃ a v b w,
            next_of st s = Some a ∧ value_of st a = Some v ∧ front this st = Ok v st ∧
            prev_of st s = Some b ∧ value_of st b = Some w ∧ back this st = Ok w st) as Hne.
  { intros Hcells. destruct (ring_sentinel _ _ _ (proj2 Hl)) as [Hn Hp].
    destruct cells as [|[a v] cells]; [done|].
    assert (∃ K b w, (a, v) :: cells = K ++ [(b, w)]) as (K & b & w & E).
    { destruct ((a, v) :: cells) as [|[b w] K _] using rev_ind; [done|eauto]. }
    exists a, v, b, w. split_and!; [done| |by eapply front_list|..].
    - by destruct (ring_cell st s [] cells a v (proj2 Hl)) as (_ & _ & ? & _).
    - rewrite E in Hp. by rewrite last_or_fmap_snoc in Hp.
    - rewrite E in Hl. rewrite <-(app_nil_r (K ++ _)), <-app_assoc in Hl.
      by destruct (ring_cell _ _ _ _ _ _ (proj2 Hl)) as (_ & _ & ? & _).
    - rewrite E in Hl. by eapply back_list. }
  split_and!.
  - by eapply size_list.
  - split.
    + intros (e & st' & Hrun). destruct cells; [done|].
      destruct Hne as (? & ? & ? & ? & _ & _ & ? & _); [done|congruence].
    + intros Hz. destruct cells; [|simpl in Hz; lia].
      exists out_of_range, st. by eapply front_empty.
  - split.
    + intros (e & st' & Hrun). destruct cells; [done|].
      destruct Hne as (? & ? & ? & ? & _ & _ & _ & _ & _ & ?); [done|congruence].
    + intros Hz. destruct cells; [|simpl in Hz; lia].
      exists out_of_range, st. by eapply back_empty.
  - intros Hz. destruct cells; [|simpl in Hz; lia].
    split; [by eapply front_empty|by eapply back_empty].
  - intros Hz. apply Hne. by intros ->.
Qed.

(** C9: two default-constructed iterators compare equal, and dereferencing,
    member-accessing or incrementing one throws [out_of_range] in every
    state, because its null position equals its null sentinel; no pointer is
    dereferenced. *)
Theorem C9_default_iterator st :
  current_ iterator_default = nullptr ∧
  it_temp_node_ iterator_default = nullptr ∧
  iter_eq iterator_default iterator_default = true ∧
  iter_ne iterator_default iterator_default = false ∧
  deref iterator_default st = Throw out_of_range st ∧
  arrow iterator_default st = Throw out_of_range st ∧
  incr iterator_default st = Throw out_of_range st.
Proof. by split_and!. Qed.

(** C5: a list built by the initializer-list constructor from [xs], or by
    appending [xs] with [push_back] to a list that holds [ys], is traversed
    from [begin()] to [end()] in insertion order, and from [rbegin()] to
    [rend()] in exactly the reverse order. *)
Theorem C5_iteration_order st this (xs : list T) :
  store_ok st →
  (brk st + N.of_nat (length xs) + 1 ≤ WORD →
   ∃ st', CircularList_init this xs st = Ok () st' ∧
     ∀ fuel, (length xs < fuel)%nat →
       collect_forward fuel this st' = Ok xs st' ∧
       collect_reverse fuel this st' = Ok (reverse xs) st') ∧
  (∀ s cells,
     is_list st this s cells → brk st + N.of_nat (length xs) ≤ WORD →
     ∃ st', push_back_each this xs st = Ok () st' ∧
       ∀ fuel, (length cells + length xs < fuel)%nat →
         collect_forward fuel this st' = Ok (cells.*2 ++ xs) st' ∧
         collect_reverse fuel this st' = Ok (reverse (cells.*2 ++ xs)) st').
Proof.
  intros Hok. split.
  - intros Hroom.
    destruct (CircularList_init_list st this xs Hok Hroom)
      as (st' & cells & Hrun & _ & _ & Hl & Hxs & _).
    exists st'. split; [done|]. intros fuel Hfuel.
    assert (length cells < fuel)%nat by (by rewrite <-(length_fmap snd), Hxs).
    rewrite <-Hxs. split; [by eapply collect_forward_list|by eapply collect_reverse_list].
  - intros s cells Hl Hroom.
    destruct (push_back_each_list st this s cells xs Hok Hl Hroom)
      as (st' & new & Hrun & _ & _ & Hl' & Hxs & _).
    exists st'. split; [done|]. intros fuel Hfuel.
    assert (length (cells ++ new) < fuel)%nat.
    { rewrite length_app, <-(length_fmap snd new), Hxs. lia. }
    rewrite <-Hxs, <-fmap_app.
    split; [by eapply collect_forward_list|by eapply collect_reverse_list].
Qed.

(** C10: [emplace] and [insert] at a position [pos] of a well-formed list,
    [begin()] and [end()] included, put a new node right before [pos]: the
    cells before and after the cut keep their nodes, values and order, the
    size grows by one, the returned iterator dereferences to the new value,
    and of the nodes that existed before only the predecessor of [pos] has
    its [next] link changed and only [pos] has its [prev] link changed. *)
Theorem C10_insert_frame st this s cells pos tn v :
  store_ok st → is_list st this s cells → valid_pos s cells pos → brk st < WORD →
  ∃ L1 L2 st' it,
    cells = L1 ++ L2 ∧ pos = first_or s L2.*1 ∧
    prev_of st pos = Some (last_or s L1.*1) ∧
    emplace this (mkIter pos tn) v st = Ok it st' ∧
    insert this (mkIter pos tn) v st = Ok it st' ∧
    next_of st (current_ it) = None ∧
    is_list st' this s (L1 ++ (current_ it, v) :: L2) ∧
    size this st' = Ok (N.of_nat (length cells) + 1) st' ∧
    deref it st' = Ok v st' ∧
    next_of st' (last_or s L1.*1) = Some (current_ it) ∧
    prev_of st' pos = Some (current_ it) ∧
    (∀ x, is_Some (next_of st x) →
       value_of st' x = value_of st x ∧
       (x ≠ last_or s L1.*1 → next_of st' x = next_of st x) ∧
       (x ≠ pos → prev_of st' x = prev_of st x)).
Proof.
  intros Hok Hl Hpos Hroom.
  apply valid_pos_split in Hpos as (L1 & L2 & -> & ->); [|apply Hl].
  destruct (emplace_list st this s L1 L2 tn v Hok Hl Hroom)
    as (st' & Hrun & Hok' & Hb & Hl' & Hfr & Hnext & Hprev & Hval).
  pose proof (store_ok_fresh _ Hok) as Hfresh.
  assert (last_or s L1.*1 ≠ brk st) as Hp.
  { intros E. destruct (ring_live st s (L1 ++ L2) (last_or s L1.*1)) as [? E'];
      [apply Hl|apply valid_pos_last|]. rewrite E in E'. congruence. }
  assert (first_or s L2.*1 ≠ brk st) as Ht.
  { intros E. destruct (ring_live st s (L1 ++ L2) (first_or s L2.*1)) as [? E'];
      [apply Hl|apply valid_pos_first|]. rewrite E in E'. congruence. }
  exists L1, L2, st', (mkIter (brk st) s). simpl. split_and!; [done|done| |done|done|done|done|..].
  - by destruct (ring_cut _ _ _ _ (proj2 Hl)) as [_ ?].
  - rewrite (size_list _ _ _ _ Hl'). do 2 f_equal. rewrite !length_app. simpl. lia.
  - by eapply deref_cell, Hl'.
  - rewrite Hnext. by rewrite decide_False, decide_True.
  - rewrite Hprev. by rewrite decide_False, decide_True.
  - intros x [? Hx]. assert (x ≠ brk st) by congruence. split_and!.
    + rewrite Hval. by rewrite decide_False.
    + intros ?. rewrite Hnext. by rewrite !decide_False.
    + intros ?. rewrite Hprev. by rewrite !decide_False.
Qed.

(** C8: copy-constructing from a well-formed list gives a list with the same
    values in the same order, held in nodes of its own; whatever the client
    then does to the copy, inserting, erasing, overwriting through an
    iterator, pushing, popping or clearing, the original keeps its nodes,
    its size and its sequence of values. *)
Theorem C8_copy_independent st this other so co fuel :
  store_ok st → this ≠ other → is_list st other so co →
  (length co < fuel)%nat → brk st + N.of_nat (length co) + 1 ≤ WORD →
  ∃ st1 s cells,
    CircularList_copy fuel this other st = Ok () st1 ∧
    is_list st1 this s cells ∧ cells.*2 = co.*2 ∧
    is_list st1 other so co ∧
    apart s cells so co ∧
    collect_forward fuel this st1 = Ok co.*2 st1 ∧
    collect_forward fuel other st1 = Ok co.*2 st1 ∧
    ∀ st2, rtc (op_step this) st1 st2 →
      is_list st2 other so co ∧
      size other st2 = Ok (N.of_nat (length co)) st2 ∧
      collect_forward fuel other st2 = Ok co.*2 st2.
Proof.
  intros Hok Hne Hlo Hfuel Hroom.
  destruct (CircularList_copy_list st this other so co fuel Hok Hne Hlo Hfuel Hroom)
    as (st1 & cells & Hrun & Hok1 & Hl1 & Hvals & Hlo1 & Hap & _).
  exists st1, (brk st), cells. split_and!; [done..| | |].
  - rewrite <-Hvals. eapply collect_forward_list; [done|].
    by rewrite <-(length_fmap snd), Hvals, length_fmap.
  - by eapply collect_forward_list.
  - intros st2 Hsteps.
    destruct (op_steps_apart st1 st2 this other (brk st) so cells co) as (_ & Hlo2 & _);
      [done..|].
    split_and!; [done|by eapply size_list|by eapply collect_forward_list].
Qed.

End Claims.

(** * The claims at concrete lists *)

Lemma C1_erase_contract_witness :
  store_ok list123 ∧ is_list list123 100 1 cells123 ∧ valid_pos 1 cells123 3 ∧
  ∃ L1 v L2 st' e,
    cells123 = L1 ++ (3, v) :: L2 ∧
    erase 100 (mkIter 3 1) list123 = Ok (mkIter (first_or 1 L2.*1) 1) st' ∧
    is_list st' 100 1 (L1 ++ L2) ∧
    (∀ x, is_Some (nodes st' !! x) ↔ x ≠ 3 ∧ is_Some (nodes list123 !! x)) ∧
    size 100 st' = Ok (N.of_nat (length cells123) - 1) st' ∧
    end_ 100 st' = Ok e st' ∧
    (iter_eq (mkIter (first_or 1 L2.*1) 1) e = true ↔ L2 = []).
Proof.
  assert (store_ok list123) as H1 by by_computation.
  assert (is_list list123 100 1 cells123) as H2 by by_computation.
  assert (valid_pos 1 cells123 3) as H3 by by_computation.
  split_and!; [done..|].
  apply (C1_erase_contract list123 100 1 cells123 3 1 H1 H2 H3); by_computation.
Defined.

Lemma C2_increment_decrement_witness :
  is_list list123 100 1 cells123 ∧
  ∃ b, decr_n 4 (mkIter 2 1) list123 = Ok (mkIter b 1) list123 ∧
       cells123.*1 !! ((0 + 4 * (length cells123 - 1)) mod length cells123)%nat = Some b.
Proof.
  assert (is_list list123 100 1 cells123) as H1 by by_computation.
  split; [done|].
  apply (C2_increment_decrement list123 100 1 cells123 H1). reflexivity.
Defined.

Lemma C3_pop_on_empty_throws_witness :
  is_list list0 100 1 [] ∧
  pop_front 100 list0 = Throw out_of_range list0 ∧
  pop_back 100 list0 = Throw out_of_range list0.
Proof.
  assert (is_list list0 100 1 []) as H1 by by_computation.
  split; [done|]. split; apply (C3_pop_on_empty_throws list0 100 1 H1).
Defined.

Lemma C4_front_back_witness :
  is_list list123 100 1 cells123 ∧
  ((∃ e st', front 100 list123 = Throw e st') ↔ N.of_nat (length cells123) = 0) ∧
  ((∃ e st', back 100 list123 = Throw e st') ↔ N.of_nat (length cells123) = 0).
Proof.
  assert (is_list list123 100 1 cells123) as H1 by by_computation.
  split; [done|]. split; apply (C4_front_back list123 100 1 cells123 H1).
Defined.

Lemma C5_iteration_order_witness :
  store_ok (empty_state (T:=Z)) ∧
  (brk (empty_state (T:=Z)) + N.of_nat (length [1; 2; 3]%Z) + 1 ≤ WORD →
   ∃ st', CircularList_init 100 [1; 2; 3]%Z empty_state = Ok () st' ∧
     ∀ fuel, (length [1; 2; 3]%Z < fuel)%nat →
       collect_forward fuel 100 st' = Ok [1; 2; 3]%Z st' ∧
       collect_reverse fuel 100 st' = Ok (reverse [1; 2; 3]%Z) st').
Proof.
  assert (store_ok (empty_state (T:=Z))) as H1 by by_computation.
  split; [done|]. apply (C5_iteration_order empty_state 100 [1; 2; 3]%Z H1).
Defined.

Lemma C8_copy_independent_witness :
  store_ok list123 ∧ 200 ≠ 100 ∧ is_list list123 100 1 cells123 ∧
  (length cells123 < 4)%nat ∧ brk list123 + N.of_nat (length cells123) + 1 ≤ WORD ∧
  ∃ st1 s cells,
    CircularList_copy 4 200 100 list123 = Ok () st1 ∧
    is_list st1 200 s cells ∧ cells.*2 = cells123.*2 ∧
    is_list st1 100 1 cells123 ∧
    apart s cells 1 cells123 ∧
    collect_forward 4 200 st1 = Ok cells123.*2 st1 ∧
    collect_forward 4 100 st1 = Ok cells123.*2 st1 ∧
    ∀ st2, rtc (op_step 200) st1 st2 →
      is_list st2 100 1 cells123 ∧
      size 100 st2 = Ok (N.of_nat (length cells123)) st2 ∧
      collect_forward 4 100 st2 = Ok cells123.*2 st2.
Proof.
  assert (store_ok list123) as H1 by by_computation.
  assert (200 ≠ 100) as H2 by by_computation.
  assert (is_list list123 100 1 cells123) as H3 by by_computation.
  assert (length cells123 < 4)%nat as H4 by by_computation.
  assert (brk list123 + N.of_nat (length cells123) + 1 ≤ WORD) as H5 by by_computation.
  split_and!; [done..|].
  apply (C8_copy_independent list123 200 100 1 cells123 4 H1 H2 H3 H4 H5).
Defined.

Lemma C10_insert_frame_witness :
  store_ok list123 ∧ is_list list123 100 1 cells123 ∧ valid_pos 1 cells123 3 ∧
  brk list123 < WORD ∧
  ∃ L1 L2 st' it,
    cells123 = L1 ++ L2 ∧ 3 = first_or 1 L2.*1 ∧
    prev_of list123 3 = Some (last_or 1 L1.*1) ∧
    emplace 100 (mkIter 3 1) 9%Z list123 = Ok it st' ∧
    insert 100 (mkIter 3 1) 9%Z list123 = Ok it st' ∧
    next_of list123 (current_ it) = None ∧
    is_list st' 100 1 (L1 ++ (current_ it, 9%Z) :: L2) ∧
    size 100 st' = Ok (N.of_nat (length cells123) + 1) st' ∧
    deref it st' = Ok 9%Z st' ∧
    next_of st' (last_or 1 L1.*1) = Some (current_ it) ∧
    prev_of st' 3 = Some (current_ it) ∧
    (∀ x, is_Some (next_of list123 x) →
       value_of st' x = value_of list123 x ∧
       (x ≠ last_or 1 L1.*1 → next_of st' x = next_of list123 x) ∧
       (x ≠ 3 → prev_of st' x = prev_of list123 x)).
Proof.
  assert (store_ok list123) as H1 by by_computation.
  assert (is_list list123 100 1 cells123) as H2 by by_computation.
  assert (valid_pos 1 cells123 3) as H3 by by_computation.
  assert (brk list123 < WORD) as H4 by by_computation.
  split_and!; [done..|].
  apply (C10_insert_frame list123 100 1 cells123 3 1 9%Z H1 H2 H3 H4).
Defined.


(** * Further properties of the code *)

Section Further.
Context {T : Type} `{!Inhabited T}.
Implicit Types (st : state T) (p q x s this other : ptr) (cells : list (ptr * T)).

(** A node is determined by its three members. *)
Lemma nodes_views st st' x :
  next_of st' x = next_of st x → prev_of st' x = prev_of st x →
  value_of st' x = value_of st x → nodes st' !! x = nodes st !! x.
Proof.
  unfold next_of, prev_of, value_of.
  destruct (nodes st' !! x) as [[]|], (nodes st !! x) as [[]|]; simpl; congruence.
Qed.

Lemma frame_lists this O st st' :
  frame this O st st' → lists st' !! this = lists st !! this → lists st' = lists st.
Proof.
  intros (_ & Hl & _) Hthis. apply map_eq. intros o.
  destruct (decide (o = this)) as [->|Hne]; [done|by apply Hl].
Qed.

(** [insert] before the cut of a ring followed by [erase] of the new node. *)
Lemma emplace_erase_list st this s (L1 L2 : list (ptr * T)) tn tn' v :
  store_ok st → is_list st this s (L1 ++ L2) → brk st < WORD →
  ∃ st1 st2,
    emplace this (mkIter (first_or s L2.*1) tn) v st = Ok (mkIter (brk st) s) st1 ∧
    is_list st1 this s (L1 ++ (brk st, v) :: L2) ∧
    erase this (mkIter (brk st) tn') st1 = Ok (mkIter (first_or s L2.*1) s) st2 ∧
    nodes st2 = nodes st ∧ lists st2 = lists st ∧ brk st2 = brk st + 1 ∧
    is_list st2 this s (L1 ++ L2).
Proof.
  intros Hok Hl Hroom.
  destruct (emplace_list st this s L1 L2 tn v Hok Hl Hroom)
    as (st1 & He & Hok1 & Hb1 & Hl1 & Hf1 & Hn1 & Hp1 & Hv1).
  destruct (erase_list st1 this s L1 L2 (brk st) v tn' Hok1 Hl1)
    as (st2 & Hr & Hok2 & Hb2 & Hl2 & Hf2 & Hn2 & Hp2 & Hv2).
  exists st1, st2. split_and!; [done..| | |congruence|done].
  - pose proof (store_ok_fresh st Hok) as Hfresh.
    destruct (ring_cut st s L1 L2 (proj2 Hl)) as [Hcn Hcp].
    apply map_eq. intros x. apply nodes_views.
    + rewrite Hn2, Hn1. repeat case_decide; subst; try done; congruence.
    + rewrite Hp2, Hp1. pose proof (dead_prev st _ Hfresh).
      repeat case_decide; subst; try done; congruence.
    + rewrite Hv2, Hv1. pose proof (dead_value st _ Hfresh).
      repeat case_decide; subst; try done; congruence.
  - apply (frame_lists this (s :: (L1 ++ L2).*1)).
    + apply (frame_trans _ _ (s :: (L1 ++ (brk st, v) :: L2).*1) _ st1); [done..|].
      intros x Hx. rewrite fmap_app, fmap_cons in Hx. rewrite fmap_app. cbn [fst] in Hx.
      destruct (decide (x = brk st)) as [->|]; [right; by apply store_ok_fresh|].
      left. set_solver.
    + rewrite (is_list_size _ _ _ _ Hl2), (is_list_size _ _ _ _ Hl). done.
Qed.

(** X1: inserting a value before any position of a well-formed list and then
    erasing the iterator that [insert] returned gives back an iterator at
    that position and leaves every node and every list object exactly as
    they were; only the allocation frontier has moved.  The same holds for
    [push_back] followed by [pop_back] and for [push_front] followed by
    [pop_front]. *)
Theorem X1_insert_erase_round_trip st this s cells v :
  store_ok st → is_list st this s cells → brk st < WORD →
  (∀ pos tn, valid_pos s cells pos →
     ∃ it st1 st2,
       insert this (mkIter pos tn) v st = Ok it st1 ∧
       erase this it st1 = Ok (mkIter pos s) st2 ∧
       nodes st2 = nodes st ∧ lists st2 = lists st ∧ is_list st2 this s cells) ∧
  (∃ st2, (push_back this v ;;; pop_back this) st = Ok () st2 ∧
     nodes st2 = nodes st ∧ lists st2 = lists st ∧ is_list st2 this s cells) ∧
  (∃ st2, (push_front this v ;;; pop_front this) st = Ok () st2 ∧
     nodes st2 = nodes st ∧ lists st2 = lists st ∧ is_list st2 this s cells).
Proof.
  intros Hok Hl Hroom. split_and!.
  - intros pos tn Hpos.
    apply (valid_pos_split s cells pos) in Hpos; [|apply Hl].
    destruct Hpos as (L1 & L2 & -> & ->).
    destruct (emplace_erase_list st this s L1 L2 tn s v Hok Hl Hroom)
      as (st1 & st2 & He & _ & Hr & Hn & Hls & _ & Hl2).
    exists (mkIter (brk st) s), st1, st2. done.
  - assert (is_list st this s (cells ++ [])) as Hl' by by rewrite app_nil_r.
    destruct (emplace_erase_list st this s cells [] s s v Hok Hl' Hroom)
      as (st1 & st2 & He & Hl1 & Hr & Hn & Hls & _ & Hl2).
    rewrite app_nil_r in Hl2. exists st2. split_and!; [|done..].
    assert (push_back this v st = Ok () st1) as Hpush.
    { unfold push_back, insert.
      rewrite (bind_ok _ _ _ _ _ (end_list _ _ _ _ Hl)).
      change (first_or s ([] : list (ptr * T)).*1) with s in He.
      by rewrite (bind_ok _ _ _ _ _ He). }
    rewrite (bind_ok _ _ _ _ _ Hpush).
    unfold pop_back. rewrite (bind_ok _ _ _ _ _ (end_list _ _ _ _ Hl1)).
    pose proof (decr_pos st1 s (cells ++ [(brk st, v)]) [] ) as Hd.
    rewrite app_nil_r in Hd. specialize (Hd (proj2 Hl1)).
    rewrite decide_False in Hd by (by destruct cells).
    rewrite last_or_fmap_snoc in Hd.
    change (first_or s ([] : list (ptr * T)).*1) with s in Hd.
    rewrite (bind_ok _ _ _ _ _ Hd).
    by rewrite (bind_ok _ _ _ _ _ Hr).
  - destruct (emplace_erase_list st this s [] cells s s v Hok Hl Hroom)
      as (st1 & st2 & He & Hl1 & Hr & Hn & Hls & _ & Hl2).
    exists st2. split_and!; [|done..].
    assert (push_front this v st = Ok () st1) as Hpush.
    { unfold push_front, insert.
      rewrite (bind_ok _ _ _ _ _ (begin_list _ _ _ _ Hl)).
      by rewrite (bind_ok _ _ _ _ _ He). }
    rewrite (bind_ok _ _ _ _ _ Hpush).
    unfold pop_front. rewrite (bind_ok _ _ _ _ _ (begin_list _ _ _ _ Hl1)).
    change (first_or s (([] : list (ptr * T)) ++ (brk st, v) :: cells).*1) with (brk st).
    by rewrite (bind_ok _ _ _ _ _ Hr).
Qed.

Lemma elem_cells_split cells a :
  a ∈ cells.*1 → ∃ L1 v L2, cells = L1 ++ (a, v) :: L2.
Proof.
  intros ([a' v] & -> & Hin)%list_elem_of_fmap.
  apply list_elem_of_split in Hin as (L1 & L2 & ->). by exists L1, v, L2.
Qed.

(** X2: on a well-formed list a step forward from an element followed by a
    step back returns to that element, and a step back from any position
    other than [begin()], [end()] included, followed by a step forward
    returns to that position.  [begin()] is the exception: [--begin()] wraps
    past the sentinel to the last element, and the step forward from there
    ends at [end()], which differs from [begin()] on a non-empty list. *)
Theorem X2_incr_decr_inverse st this s cells :
  is_list st this s cells →
  (∀ a, a ∈ cells.*1 →
     (it <- incr (mkIter a s) ;; decr it) st = Ok (mkIter a s) st) ∧
  (∀ pos, valid_pos s cells pos → pos ≠ first_or s cells.*1 →
     (it <- decr (mkIter pos s) ;; incr it) st = Ok (mkIter pos s) st) ∧
  (cells ≠ [] →
     ∃ b e, begin this st = Ok b st ∧ end_ this st = Ok e st ∧
       (it <- decr b ;; incr it) st = Ok e st ∧ iter_ne b e = true).
Proof.
  intros Hl. pose proof (proj2 Hl) as Hr. split_and!.
  - intros a (L1 & v & L2 & ->)%elem_cells_split.
    rewrite (bind_ok _ _ _ _ _ (incr_cell _ _ _ _ _ _ Hr)).
    pose proof (decr_pos st s (L1 ++ [(a, v)]) L2) as Hd.
    rewrite <- app_assoc in Hd. specialize (Hd Hr).
    rewrite decide_False in Hd by (by destruct L1).
    by rewrite last_or_fmap_snoc in Hd.
  - intros pos Hpos Hne.
    apply (valid_pos_split s cells pos) in Hpos; [|apply Hr].
    destruct Hpos as (L1 & L2 & -> & ->).
    destruct L1 as [|[a v] L1 _] using rev_ind; [done|].
    rewrite (bind_ok _ _ _ _ _ (decr_pos _ _ _ _ Hr)).
    rewrite decide_False by (by destruct L1).
    rewrite last_or_fmap_snoc.
    rewrite <- app_assoc in Hr. apply (incr_cell _ _ _ _ _ _ Hr).
  - intros Hne. destruct cells as [|[a v] cells _] using rev_ind; [done|].
    exists (mkIter (first_or s (cells ++ [(a, v)]).*1) s), (mkIter s s).
    split_and!.
    + by apply begin_list.
    + by apply (end_list _ _ _ _ Hl).
    + pose proof (decr_pos st s [] (cells ++ [(a, v)]) Hr) as Hd.
      rewrite decide_True in Hd by done. cbn [app] in Hd.
      rewrite last_or_fmap_snoc in Hd.
      rewrite (bind_ok _ _ _ _ _ Hd).
      pose proof (incr_cell st s cells [] a v Hr) as Hi. apply Hi.
    + unfold iter_ne, iter_eq. cbn [current_].
      rewrite bool_decide_eq_false_2; [done|].
      destruct Hr as (Hnd & _ & _). apply NoDup_cons in Hnd as [Hnot _].
      intros E. apply Hnot. rewrite <- E.
      destruct (first_or_elem s (cells ++ [(a, v)]).*1) as [E'|Hin]; [|done].
      exfalso. destruct cells; simpl in E'; rewrite <- E' in Hnot; set_solver.
Qed.

(** [n] steps forward from the cut of a ring. *)
Lemma incr_n_list st s (L1 L2 : list (ptr * T)) n :
  ring st s (L1 ++ L2) →
  incr_n n (mkIter (first_or s L2.*1) s) st =
  if decide (n ≤ length L2)%nat
  then Ok (mkIter (first_or s (drop n L2).*1) s) st
  else Throw out_of_range st.
Proof.
  revert L1 L2. induction n as [|n IH]; intros L1 L2 Hr.
  - rewrite decide_True by lia. done.
  - destruct L2 as [|[a v] L2].
    + rewrite decide_False by (simpl; lia). cbn [incr_n].
      apply bind_throw. apply incr_end.
    + cbn [incr_n]. change (first_or s ((a, v) :: L2).*1) with a.
      rewrite (bind_ok _ _ _ _ _ (incr_cell _ _ _ _ _ _ Hr)).
      rewrite (IH (L1 ++ [(a, v)]) L2) by by rewrite <- app_assoc.
      cbn [length drop]. repeat case_decide; try done; lia.
Qed.

Lemma nth_pos_list st this s cells i :
  is_list st this s cells →
  nth_pos this i st =
  if decide (i ≤ length cells)%nat
  then Ok (mkIter (first_or s (drop i cells).*1) s) st
  else Throw out_of_range st.
Proof.
  intros Hl. unfold nth_pos. rewrite (bind_ok _ _ _ _ _ (begin_list _ _ _ _ Hl)).
  apply (incr_n_list st s [] cells). apply Hl.
Qed.

(** X3: the position reached by advancing [begin()] [i] times.  On a
    well-formed list of [n] elements the walk arrives at the [i]-th element
    for [i < n], whose value it dereferences to, and at [end()] for [i = n];
    for [i > n] a step from [end()] throws [out_of_range].  Inserting [v] at
    that position makes the traversal [take i xs ++ v :: drop i xs], and
    erasing it makes the traversal [take i xs ++ drop (i + 1) xs]. *)
Theorem X3_positions_by_index st this s cells :
  store_ok st → is_list st this s cells →
  (∀ i, (i ≤ length cells)%nat →
     nth_pos this i st = Ok (mkIter (first_or s (drop i cells).*1) s) st) ∧
  (∀ i, (length cells < i)%nat → nth_pos this i st = Throw out_of_range st) ∧
  (∀ i w, cells.*2 !! i = Some w →
     (it <- nth_pos this i ;; deref it) st = Ok w st) ∧
  (∀ i v, (i ≤ length cells)%nat → brk st < WORD →
     ∃ st', (it <- nth_pos this i ;; _ <- insert this it v ;; ret ()) st = Ok () st' ∧
       ∀ fuel, (S (length cells) < fuel)%nat →
         collect_forward fuel this st' =
         Ok (take i cells.*2 ++ v :: drop i cells.*2) st') ∧
  (∀ i, (i < length cells)%nat →
     ∃ st', (it <- nth_pos this i ;; _ <- erase this it ;; ret ()) st = Ok () st' ∧
       ∀ fuel, (length cells ≤ fuel)%nat →
         collect_forward fuel this st' =
         Ok (take i cells.*2 ++ drop (S i) cells.*2) st').
Proof.
  intros Hok Hl. split_and!.
  - intros i Hi. rewrite (nth_pos_list _ _ _ _ _ Hl). by rewrite decide_True.
  - intros i Hi. rewrite (nth_pos_list _ _ _ _ _ Hl). by rewrite decide_False by lia.
  - intros i w Hw. rewrite list_lookup_fmap in Hw.
    destruct (cells !! i) as [[a w']|] eqn:Hi; [|done]. simpl in Hw. simplify_eq.
    pose proof (lookup_lt_Some _ _ _ Hi) as Hlt.
    assert (nth_pos this i st = Ok (mkIter a s) st) as Hn.
    { rewrite (nth_pos_list _ _ _ _ _ Hl), decide_True by lia.
      by rewrite (drop_S _ _ _ Hi). }
    rewrite (bind_ok _ _ _ _ _ Hn).
    apply (deref_cell st s (take i cells) (drop (S i) cells) a w).
    rewrite <- (drop_S _ _ _ Hi), take_drop. apply Hl.
  - intros i v Hi Hroom.
    assert (is_list st this s (take i cells ++ drop i cells)) as Hl'
      by by rewrite take_drop.
    destruct (emplace_list st this s _ _ s v Hok Hl' Hroom)
      as (st' & He & _ & _ & Hl1 & _).
    exists st'. split.
    + pose proof (nth_pos_list _ _ _ _ i Hl) as Hn.
      rewrite decide_True in Hn by done.
      rewrite (bind_ok _ _ _ _ _ Hn). unfold insert.
      by rewrite (bind_ok _ _ _ _ _ He).
    + intros fuel Hfuel.
      rewrite (collect_forward_list _ _ _ _ fuel Hl1).
      * by rewrite fmap_app, fmap_cons, fmap_take, fmap_drop.
      * rewrite length_app. cbn [length].
        rewrite length_take, length_drop. lia.
  - intros i Hi.
    destruct (lookup_lt_is_Some_2 cells i Hi) as [[a w] Hc].
    assert (is_list st this s (take i cells ++ (a, w) :: drop (S i) cells)) as Hl'
      by by rewrite <- (drop_S _ _ _ Hc), take_drop.
    destruct (erase_list st this s _ _ a w s Hok Hl')
      as (st' & He & _ & _ & Hl1 & _).
    exists st'. split.
    + pose proof (nth_pos_list _ _ _ _ i Hl) as Hn.
      rewrite decide_True in Hn by lia. rewrite (drop_S _ _ _ Hc) in Hn.
      rewrite (bind_ok _ _ _ _ _ Hn).
      change (first_or s ((a, w) :: drop (S i) cells).*1) with a.
      by rewrite (bind_ok _ _ _ _ _ He).
    + intros fuel Hfuel.
      rewrite (collect_forward_list _ _ _ _ fuel Hl1).
      * by rewrite fmap_app, fmap_take, fmap_drop.
      * rewrite length_app, length_take, length_drop. lia.
Qed.

End Further.

Section Contract.
Context {T : Type} `{!Inhabited T}.
Implicit Types (st : state T) (p q x s this other : ptr) (cells : list (ptr * T)).

Lemma contract_ok (m : M T unit) st st1 (ex : option exn) :
  m st = Ok () st1 → ex = None →
  (∀ e st', m st = Throw e st' ↔ ex = Some e ∧ st' = st) ∧
  (ex = None → ∃ st', m st = Ok () st').
Proof. intros -> ->. split; [|by eauto]. intros e st'. split; [done|]. by intros [? _]. Qed.

Lemma contract_throw (m : M T unit) st e0 (ex : option exn) :
  m st = Throw e0 st → ex = Some e0 →
  (∀ e st', m st = Throw e st' ↔ ex = Some e ∧ st' = st) ∧
  (ex = None → ∃ st', m st = Ok () st').
Proof.
  intros -> ->. split; [|done]. intros e st'. split.
  - by intros [= -> ->].
  - by intros [[= ->] ->].
Qed.

Lemma cells_snoc cells : cells ≠ [] → ∃ L a v, cells = L ++ [(a, v)].
Proof. destruct cells as [|[a v] L _] using rev_ind; [done|eauto]. Qed.

Lemma iter_of_list st this s cells c tn :
  is_list st this s cells → iter_of st this (mkIter c tn) →
  tn = s ∧ valid_pos s cells c.
Proof.
  intros [Hlk Hr] (l & Hl & Htn & Hreach). simpl in *.
  rewrite Hlk in Hl. injection Hl as <-. simpl in *. split; [done|].
  by apply (reach_valid st).
Qed.

(** X4: which exception each call raises on a well-formed list, and
    nothing else: the inserting members throw [bad_alloc] exactly when the
    allocator has nothing left, [erase] throws [out_of_range] exactly on an
    empty list or at the sentinel, [pop_front], [pop_back], [front] and
    [back] exactly on an empty list, assignment through an iterator exactly
    at [end()], and [clear], [size], [empty], [begin], [end], [rbegin] and
    [rend] never throw.  Every throw leaves the whole state as it was, and a
    call that does not throw completes. *)
Theorem X4_error_contract st this s cells (o : op T) :
  store_ok st → is_list st this s cells → op_pre st this o →
  (∀ e st', run_op this o st = Throw e st' ↔
     expected_throw st s cells o = Some e ∧ st' = st) ∧
  (expected_throw st s cells o = None → ∃ st', run_op this o st = Ok () st').
Proof.
  intros Hok Hl Hpre.
  destruct o as [v|v|[c tn] v|[c tn] v|[c tn]| | |fuel|[c tn] v| | | | | | | | ];
    cbn [run_op expected_throw current_ it_temp_node_].
  - destruct (decide (brk st < WORD)) as [Hroom|Hfull].
    + destruct (push_back_list st this s cells v Hok Hl Hroom) as (st1 & H1 & _).
      by apply (contract_ok _ _ st1).
    + apply (contract_throw _ _ bad_alloc); [|done].
      by apply (push_back_bad_alloc _ _ s cells).
  - destruct (decide (brk st < WORD)) as [Hroom|Hfull].
    + destruct (push_front_list st this s cells v Hok Hl Hroom) as (st1 & H1 & _).
      by apply (contract_ok _ _ st1).
    + apply (contract_throw _ _ bad_alloc); [|done].
      by apply (push_front_bad_alloc _ _ s cells).
  - destruct (iter_of_list _ _ _ _ _ _ Hl Hpre) as [-> Hpos].
    destruct (decide (brk st < WORD)) as [Hroom|Hfull].
    + apply (valid_pos_split s cells c) in Hpos; [|apply Hl].
      destruct Hpos as (L1 & L2 & -> & ->).
      destruct (emplace_list st this s L1 L2 s v Hok Hl Hroom) as (st1 & H1 & _).
      apply (contract_ok _ _ st1); [|done]. by rewrite (bind_ok _ _ _ _ _ H1).
    + apply (contract_throw _ _ bad_alloc); [|done].
      apply bind_throw. by apply emplace_bad_alloc.
  - destruct (iter_of_list _ _ _ _ _ _ Hl Hpre) as [-> Hpos].
    destruct (decide (brk st < WORD)) as [Hroom|Hfull].
    + apply (valid_pos_split s cells c) in Hpos; [|apply Hl].
      destruct Hpos as (L1 & L2 & -> & ->).
      destruct (emplace_list st this s L1 L2 s v Hok Hl Hroom) as (st1 & H1 & _).
      apply (contract_ok _ _ st1); [|done]. unfold insert.
      by rewrite (bind_ok _ _ _ _ _ H1).
    + apply (contract_throw _ _ bad_alloc); [|done].
      apply bind_throw. by apply emplace_bad_alloc.
  - destruct (iter_of_list _ _ _ _ _ _ Hl Hpre) as [-> Hpos].
    destruct cells as [|c0 cells0].
    { apply (contract_throw _ _ out_of_range); [|done].
      apply bind_throw. by apply (erase_empty _ _ s). }
    destruct (decide (c = s)) as [->|Hne].
    { apply (contract_throw _ _ out_of_range); [|done].
      apply bind_throw. by apply (erase_end _ _ _ (c0 :: cells0)). }
    destruct Hpos as [?|Hin]; [done|].
    apply elem_cells_split in Hin as (L1 & v & L2 & E). rewrite E in Hl.
    destruct (erase_list st this s L1 L2 c v s Hok Hl) as (st1 & H1 & _).
    apply (contract_ok _ _ st1); [|done]. by rewrite (bind_ok _ _ _ _ _ H1).
  - destruct cells as [|[a v] cells0].
    + apply (contract_throw _ _ out_of_range); [|done]. by apply (pop_front_empty _ _ s).
    + destruct (pop_front_list st this s a v cells0 Hok Hl) as (st1 & H1 & _).
      by apply (contract_ok _ _ st1).
  - destruct cells as [|c0 cells0].
    + apply (contract_throw _ _ out_of_range); [|done]. by apply (pop_back_empty _ _ s).
    + destruct (cells_snoc (c0 :: cells0)) as (L & a & v & E); [done|].
      assert (∃ st1, pop_back this st = Ok () st1) as [st1 H1].
      { rewrite E in Hl.
        destruct (pop_back_list st this s a v L Hok Hl) as (st1 & H1 & _). eauto. }
      by apply (contract_ok _ _ st1).
  - destruct Hpre as (l & Hlk & Hfuel).
    rewrite (is_list_size _ _ _ _ Hl) in Hlk. injection Hlk as <-. simpl in Hfuel.
    rewrite Nat2N.id in Hfuel.
    destruct (clear_list st this s cells fuel Hok Hl Hfuel) as (st1 & H1 & _).
    by apply (contract_ok _ _ st1).
  - destruct (iter_of_list _ _ _ _ _ _ Hl Hpre) as [-> Hpos].
    destruct (decide (c = s)) as [->|Hne].
    + apply (contract_throw _ _ out_of_range); [|done]. apply assign_end.
    + destruct Hpos as [?|Hin]; [done|].
      apply elem_cells_split in Hin as (L1 & w & L2 & E). rewrite E in Hl.
      destruct (assign_list st this s L1 L2 c w v Hok Hl) as (H1 & _).
      by apply (contract_ok _ _ _ _ H1).
  - destruct cells as [|[a v] cells0].
    + apply (contract_throw _ _ out_of_range); [|done].
      apply bind_throw. by apply (front_empty _ _ s).
    + apply (contract_ok _ _ st); [|done].
      by rewrite (bind_ok _ _ _ _ _ (front_list _ _ _ _ _ _ Hl)).
  - destruct cells as [|c0 cells0].
    + apply (contract_throw _ _ out_of_range); [|done].
      apply bind_throw. by apply (back_empty _ _ s).
    + destruct (cells_snoc (c0 :: cells0)) as (L & a & v & E); [done|].
      apply (contract_ok _ _ st); [|done]. rewrite E in Hl.
      by rewrite (bind_ok _ _ _ _ _ (back_list _ _ _ _ _ _ Hl)).
  - apply (contract_ok _ _ st); [|done].
    by rewrite (bind_ok _ _ _ _ _ (size_list _ _ _ _ Hl)).
  - apply (contract_ok _ _ st); [|done].
    by rewrite (bind_ok _ _ _ _ _ (empty_list _ _ _ _ Hl)).
  - apply (contract_ok _ _ st); [|done].
    by rewrite (bind_ok _ _ _ _ _ (begin_list _ _ _ _ Hl)).
  - apply (contract_ok _ _ st); [|done].
    by rewrite (bind_ok _ _ _ _ _ (end_list _ _ _ _ Hl)).
  - apply (contract_ok _ _ st); [|done]. unfold rbegin.
    erewrite bind_ok; [done|]. apply noexcept_ok.
    by rewrite (bind_ok _ _ _ _ _ (end_list _ _ _ _ Hl)).
  - apply (contract_ok _ _ st); [|done]. unfold rend.
    erewrite bind_ok; [done|]. apply noexcept_ok.
    by rewrite (bind_ok _ _ _ _ _ (begin_list _ _ _ _ Hl)).
Qed.

End Contract.

Section Release.
Context {T : Type} `{!Inhabited T}.
Implicit Types (st : state T) (p q x s this other : ptr) (cells : list (ptr * T)).

Lemma path_unique st a (l1 l2 : list ptr) s :
  path st (a :: l1 ++ [s]) → path st (a :: l2 ++ [s]) → s ∉ l1 → s ∉ l2 → l1 = l2.
Proof.
  revert a l2. induction l1 as [|b l1 IH]; intros a [|b' l2] H1 H2 Hn1 Hn2.
  - done.
  - simpl in H1, H2. destruct H1 as [[E1 _] _], H2 as [[E2 _] _].
    assert (b' = s) by congruence. set_solver.
  - simpl in H1, H2. destruct H1 as [[E1 _] _], H2 as [[E2 _] _].
    assert (b = s) by congruence. set_solver.
  - change (path st (a :: b :: l1 ++ [s])) in H1.
    change (path st (a :: b' :: l2 ++ [s])) in H2.
    apply path_cons in H1 as [[E1 _] H1]. apply path_cons in H2 as [[E2 _] H2].
    assert (b' = b) as -> by congruence. f_equal.
    apply (IH b); [done|done|set_solver|set_solver].
Qed.

(** The store determines the contents of a ring. *)
Lemma ring_unique st s c1 c2 : ring st s c1 → ring st s c2 → c1 = c2.
Proof.
  intros (Hnd1 & Hp1 & Hv1) (Hnd2 & Hp2 & Hv2).
  assert (c1.*1 = c2.*1) as Hfst.
  { apply (path_unique st s _ _ s); [done|done|..].
    - by apply NoDup_cons in Hnd1 as [? _].
    - by apply NoDup_cons in Hnd2 as [? _]. }
  clear Hnd1 Hnd2 Hp1 Hp2. revert c2 Hv2 Hfst.
  induction Hv1 as [|[a v] c1 Hv Hv1 IH]; intros [|[a' v'] c2] Hv2 Hfst; try done.
  apply Forall_cons in Hv2 as [Hv' Hv2]. simpl in *.
  injection Hfst as -> Hfst. f_equal; [|by apply IH].
  f_equal. congruence.
Qed.

Lemma dead_node st x : next_of st x = None → nodes st !! x = None.
Proof. unfold next_of. by intros ?%fmap_None. Qed.

Lemma frame_lists_insert this O st st' l :
  frame this O st st' → lists st' !! this = Some l → lists st' = <[this := l]> (lists st).
Proof.
  intros (_ & Hl & _) Hthis. apply map_eq. intros o.
  destruct (decide (o = this)) as [->|Hne].
  - by rewrite lookup_insert_eq.
  - rewrite lookup_insert_ne by done. by apply Hl.
Qed.

(** [pop_front()] and the node store. *)
Lemma pop_front_nodes st this s a v cells :
  store_ok st → is_list st this s ((a, v) :: cells) →
  ∃ st', pop_front this st = Ok () st' ∧
    store_ok st' ∧ brk st' = brk st ∧ is_list st' this s cells ∧
    frame this (s :: a :: cells.*1) st st' ∧
    nodes st' !! a = None ∧
    (∀ x, x ∉ s :: a :: cells.*1 → nodes st' !! x = nodes st !! x) ∧
    value_of st' s = value_of st s.
Proof.
  intros Hok Hl.
  destruct (erase_list st this s [] cells a v s Hok Hl)
    as (st' & Hrun & ? & ? & ? & Hfr & Hn & Hp & Hv).
  destruct (ring_cell st s [] cells a v (proj2 Hl)) as (_ & _ & _ & Has).
  exists st'. split_and!; [|done..| | |].
  - unfold pop_front. rewrite (bind_ok _ _ _ _ _ (begin_list _ _ _ _ Hl)).
    simpl. by rewrite (bind_ok _ _ _ _ _ Hrun).
  - apply dead_node. rewrite Hn. by rewrite decide_True.
  - intros x Hx. change (last_or s ([] : list (ptr * T)).*1) with s in *.
    pose proof (first_or_elem s cells.*1).
    apply nodes_views.
    + rewrite Hn. rewrite !decide_False; [done|set_solver..].
    + rewrite Hp. rewrite !decide_False; [done|set_solver..].
    + rewrite Hv. rewrite !decide_False; [done|set_solver..].
  - rewrite Hv. by rewrite decide_False.
Qed.

(** The loop of [clear()] releases the element nodes one by one and touches
    no node outside the ring. *)
Lemma clear_loop_nodes st this s cells fuel :
  store_ok st → is_list st this s cells → (length cells < fuel)%nat →
  ∃ st', clear_loop fuel this st = Ok () st' ∧
    store_ok st' ∧ brk st' = brk st ∧ is_list st' this s [] ∧
    frame this (s :: cells.*1) st st' ∧
    (∀ x, x ∈ cells.*1 → nodes st' !! x = None) ∧
    (∀ x, x ∉ s :: cells.*1 → nodes st' !! x = nodes st !! x) ∧
    value_of st' s = value_of st s.
Proof.
  revert st fuel. induction cells as [|[a v] cells IH]; intros st fuel Hok Hl Hfuel.
  - destruct fuel as [|fuel]; [lia|].
    exists st. split_and!; [|done..|apply frame_refl|set_solver|done|done].
    simpl. by rewrite (bind_ok _ _ _ _ _ (empty_list _ _ _ _ Hl)).
  - destruct fuel as [|fuel]; [simpl in Hfuel; lia|].
    destruct (pop_front_nodes _ _ _ _ _ _ Hok Hl)
      as (st1 & Hrun & Hok1 & Hb1 & Hl1 & Hfr1 & Ha1 & Hout1 & Hs1).
    destruct (IH st1 fuel Hok1 Hl1)
      as (st2 & Hrun2 & Hok2 & Hb2 & Hl2 & Hfr2 & Hin2 & Hout2 & Hs2);
      [simpl in Hfuel; lia|].
    pose proof (proj1 (proj2 Hl)) as Hnd.
    exists st2. split_and!; [|done|congruence|done| | | |congruence].
    + simpl. rewrite (bind_ok _ _ _ _ _ (empty_list _ _ _ _ Hl)). simpl.
      by rewrite (bind_ok _ _ _ _ _ Hrun).
    + eapply frame_trans; [done|done|]. simpl. set_solver.
    + rewrite fmap_cons. cbn [fst]. intros x [->|Hx]%elem_of_cons; [|by apply Hin2].
      rewrite Hout2; [done|]. rewrite fmap_cons in Hnd. cbn [fst] in Hnd.
      apply NoDup_cons in Hnd as [Hs Hnd]. apply NoDup_cons in Hnd as [? _].
      set_solver.
    + rewrite fmap_cons. cbn [fst]. intros x Hx.
      rewrite Hout2 by set_solver. by apply Hout1.
Qed.

(** X5: [clear()] on a well-formed list, given the loop rounds its size
    asks for, completes and leaves the list empty on the same sentinel, so
    [end()] iterators stay valid; every element node has been released, the
    sentinel keeps its value, no node outside the list and no other list
    object is touched, and a second [clear()] changes nothing. *)
Theorem X5_clear_releases_elements st this s cells fuel :
  store_ok st → is_list st this s cells → (length cells < fuel)%nat →
  ∃ st', clear fuel this st = Ok () st' ∧
    is_list st' this s [] ∧
    lists st' = <[this := mkList s 0]> (lists st) ∧
    brk st' = brk st ∧
    (∀ x, x ∈ cells.*1 → nodes st' !! x = None) ∧
    (∀ x, x ∉ s :: cells.*1 → nodes st' !! x = nodes st !! x) ∧
    value_of st' s = value_of st s ∧
    end_ this st = Ok (mkIter s s) st ∧
    end_ this st' = Ok (mkIter s s) st' ∧
    begin this st' = Ok (mkIter s s) st' ∧
    size this st' = Ok 0 st' ∧
    clear fuel this st' = Ok () st'.
Proof.
  intros Hok Hl Hfuel.
  destruct (clear_loop_nodes st this s cells fuel Hok Hl Hfuel)
    as (st' & Hrun & Hok' & Hb & Hl' & Hfr & Hin & Hout & Hs).
  exists st'. split_and!; try done.
  - by apply noexcept_ok.
  - apply (frame_lists_insert _ _ _ _ _ Hfr). apply Hl'.
  - apply (end_list _ _ _ _ Hl).
  - apply (end_list _ _ _ _ Hl').
  - apply (begin_list _ _ _ _ Hl').
  - apply (size_list _ _ _ _ Hl').
  - apply noexcept_ok. destruct fuel as [|fuel]; [lia|].
    simpl. by rewrite (bind_ok _ _ _ _ _ (empty_list _ _ _ _ Hl')).
Qed.

(** [clear()] and the release of the sentinel, the common part of the
    destructor and of move assignment. *)
Lemma release_ring st this s cells fuel :
  store_ok st → is_list st this s cells → (length cells < fuel)%nat →
  ∃ st1, clear fuel this st = Ok () st1 ∧
    delete_Node s st1 = Ok () (free_node s st1) ∧
    store_ok (free_node s st1) ∧ brk st1 = brk st ∧
    lists st1 = <[this := mkList s 0]> (lists st) ∧
    (∀ x, nodes (free_node s st1) !! x =
          if decide (x ∈ s :: cells.*1) then None else nodes st !! x).
Proof.
  intros Hok Hl Hfuel.
  destruct (clear_loop_nodes st this s cells fuel Hok Hl Hfuel)
    as (st1 & Hrun & Hok1 & Hb & Hl1 & Hfr & Hin & Hout & Hs).
  assert (is_Some (next_of st1 s)) as Hlive
    by (eapply ring_live; [exact (proj2 Hl1)|by left]).
  assert (s ≠ nullptr) as Hnull.
  { intros ->. destruct Hok1 as (_ & _ & Hb1).
    destruct (Hb1 nullptr); [by apply live_next|unfold nullptr in *; lia]. }
  exists st1. split_and!.
  - by apply noexcept_ok.
  - by apply delete_Node_view.
  - apply (store_ok_grow st1); [done|simpl; lia|by destruct Hok1 as (? & ? & ?)|].
    intros x. rewrite next_of_free. case_decide; [by intros [? ?]|eauto].
  - done.
  - apply (frame_lists_insert _ _ _ _ _ Hfr). apply Hl1.
  - intros x. unfold free_node, set_nodes. simpl. rewrite lookup_delete.
    destruct (decide (x = s)) as [->|Hne].
    { rewrite decide_True by done. rewrite decide_True by set_solver. done. }
    rewrite decide_False by done.
    destruct (decide (x ∈ s :: cells.*1)) as [Hx|Hx].
    + apply Hin. set_solver.
    + by apply Hout.
Qed.

Lemma CircularList_dtor_list st this s cells fuel :
  store_ok st → is_list st this s cells → (length cells < fuel)%nat →
  ∃ st', CircularList_dtor fuel this st = Ok () st' ∧
    store_ok st' ∧ brk st' = brk st ∧
    lists st' = delete this (lists st) ∧
    (∀ x, nodes st' !! x = if decide (x ∈ s :: cells.*1) then None else nodes st !! x).
Proof.
  intros Hok Hl Hfuel.
  destruct (release_ring st this s cells fuel Hok Hl Hfuel)
    as (st1 & Hclear & Hdel & Hok1 & Hb & Hls & Hnodes).
  exists (set_lists (delete this) (free_node s st1)). split_and!.
  - unfold CircularList_dtor. rewrite (bind_ok _ _ _ _ _ Hclear).
    assert (lists st1 !! this = Some (mkList s 0)) as Hlk
      by (rewrite Hls; apply lookup_insert_eq).
    rewrite (bind_ok _ _ _ _ _ (get_temp_node_ok _ _ _ Hlk)). simpl.
    rewrite (bind_ok _ _ _ _ _ Hdel).
    unfold end_lifetime. simpl. by rewrite Hlk.
  - by apply (store_ok_grow (free_node s st1)); [|simpl; lia|destruct Hok1 as (?&?&?)|eauto].
  - done.
  - simpl. rewrite Hls. apply delete_insert_eq.
  - done.
Qed.

(** X6: the destructor of a well-formed list, given the loop rounds its size
    asks for, completes; it releases every node of the list, the sentinel
    included, and nothing else: all other nodes keep their contents, the list
    object is gone, every other list object is as before, and a list that
    shares no node with the destroyed one is still well formed. *)
Theorem X6_destructor_releases_ring st this s cells fuel :
  store_ok st → is_list st this s cells → (length cells < fuel)%nat →
  ∃ st', CircularList_dtor fuel this st = Ok () st' ∧
    store_ok st' ∧ brk st' = brk st ∧
    lists st' = delete this (lists st) ∧
    (∀ x, nodes st' !! x = if decide (x ∈ s :: cells.*1) then None else nodes st !! x) ∧
    (∀ other so co, other ≠ this → is_list st other so co → apart s cells so co →
       is_list st' other so co).
Proof.
  intros Hok Hl Hfuel.
  destruct (CircularList_dtor_list st this s cells fuel Hok Hl Hfuel)
    as (st' & Hrun & Hok' & Hb & Hls & Hnodes).
  exists st'. split_and!; [done..|].
  intros other so co Hne [Hlk Hr] Hap. split.
  - rewrite Hls. by rewrite lookup_delete_ne.
  - apply (ring_frame st); [done|]. intros x Hx.
    pose proof (apart_owned _ _ _ _ _ Hap Hx) as Hout.
    unfold next_of, prev_of, value_of. rewrite Hnodes.
    by rewrite decide_False.
Qed.

End Release.

Section Allocation.
Context {T : Type} `{!Inhabited T}.
Implicit Types (st : state T) (p q x s this other : ptr) (cells : list (ptr * T)).

(** The constructors and [push_back] allocate the nodes of the list and no
    other. *)
Lemma CircularList_default_alloc st this :
  store_ok st → brk st < WORD →
  ∃ st', CircularList_default this st = Ok () st' ∧
    store_ok st' ∧ brk st' = brk st + 1 ∧
    is_list st' this (brk st) [] ∧ frame this [] st st' ∧
    (∀ x, is_Some (next_of st' x) → x = brk st ∨ is_Some (next_of st x)).
Proof.
  intros Hok Hroom. pose proof (store_ok_fresh _ Hok) as Hfresh.
  destruct (CircularList_default_list st this Hok Hroom) as (st' & Hrun & H1 & H2 & H3 & H4).
  exists st'. split_and!; [done..|].
  revert Hrun. unfold CircularList_default.
  rewrite (bind_ok _ _ _ _ _ (new_Node_ok _ _ Hroom)).
  unfold init_members at 1. unfold bind at 1.
  erewrite bind_ok; [|apply get_temp_node_ok; simpl; apply lookup_insert_eq].
  erewrite bind_ok; [|apply get_temp_node_ok; simpl; apply lookup_insert_eq].
  erewrite bind_ok; [|apply store_next_view; views].
  erewrite bind_ok; [|apply get_temp_node_ok; simpl; apply lookup_insert_eq].
  erewrite bind_ok; [|apply get_temp_node_ok; simpl; apply lookup_insert_eq].
  simpl. rewrite store_prev_view by views.
  intros [= <-] x. views.
Qed.

Lemma push_back_alloc st this s cells v :
  store_ok st → is_list st this s cells → brk st < WORD →
  ∃ st', push_back this v st = Ok () st' ∧
    store_ok st' ∧ brk st' = brk st + 1 ∧
    is_list st' this s (cells ++ [(brk st, v)]) ∧
    frame this (s :: cells.*1) st st' ∧
    (∀ x, is_Some (next_of st' x) → x = brk st ∨ is_Some (next_of st x)).
Proof.
  intros Hok Hl Hroom.
  destruct (emplace_list st this s cells [] s v) as (st' & Hrun & ? & ? & ? & Hfr & Hn & _);
    [done|by rewrite app_nil_r|done|].
  exists st'. rewrite app_nil_r in Hfr. split_and!; [|done..|].
  - unfold push_back, insert. rewrite (bind_ok _ _ _ _ _ (end_list _ _ _ _ Hl)).
    simpl in Hrun. by rewrite (bind_ok _ _ _ _ _ Hrun).
  - intros x. rewrite Hn. case_decide; [by left|]. right.
    case_decide; [|done]. subst x.
    apply (ring_live st s cells); [apply Hl|].
    pose proof (valid_pos_last s cells []) as Hv. by rewrite app_nil_r in Hv.
Qed.

Lemma push_back_each_alloc st this s cells items :
  store_ok st → is_list st this s cells →
  brk st + N.of_nat (length items) ≤ WORD →
  ∃ st' new, push_back_each this items st = Ok () st' ∧
    store_ok st' ∧ brk st' = brk st + N.of_nat (length items) ∧
    is_list st' this s (cells ++ new) ∧ new.*2 = items ∧
    (∀ x, x ∈ new.*1 → next_of st x = None) ∧
    frame this (s :: cells.*1) st st' ∧
    (∀ x, is_Some (next_of st' x) → x ∈ new.*1 ∨ is_Some (next_of st x)).
Proof.
  revert st cells. induction items as [|v items IH]; intros st cells Hok Hl Hroom.
  - exists st, []. rewrite app_nil_r.
    split_and!; [done|done|simpl; lia|done|done|set_solver|apply frame_refl|by right].
  - simpl in Hroom.
    destruct (push_back_alloc _ _ _ _ v Hok Hl)
      as (st1 & Hrun & Hok1 & Hb1 & Hl1 & Hfr1 & Ha1); [lia|].
    destruct (IH st1 _ Hok1 Hl1)
      as (st2 & new & Hrun2 & Hok2 & Hb2 & Hl2 & Hnew & Hfresh & Hfr2 & Ha2); [lia|].
    pose proof (store_ok_fresh _ Hok) as Hf.
    exists st2, ((brk st, v) :: new). split_and!.
    + simpl. by rewrite (bind_ok _ _ _ _ _ Hrun).
    + done.
    + simpl length. lia.
    + by rewrite <-app_assoc in Hl2.
    + by rewrite fmap_cons, Hnew.
    + rewrite fmap_cons. intros x [->|Hx]%elem_of_cons; [done|].
      destruct (next_of st x) eqn:E; [|done].
      destruct Hfr1 as (_ & _ & Hsame).
      destruct (decide (x ∈ s :: cells.*1)) as [Hin|Hout].
      * assert (is_Some (next_of st1 x)) as [? E1]; [|by rewrite Hfresh in E1].
        eapply ring_live; [apply Hl1|]. unfold valid_pos. rewrite fmap_app. set_solver.
      * destruct (Hsame x) as (E1 & _); [eauto|done|].
        rewrite Hfresh in E1; [|done]. congruence.
    + eapply frame_trans; [done|done|]. intros x Hx. rewrite fmap_app in Hx. simpl in Hx.
      destruct (decide (x = brk st)) as [->|]; [by right|left; set_solver].
    + rewrite fmap_cons. cbn [fst]. intros x Hx.
      destruct (Ha2 x Hx) as [?|Hx1]; [left; set_solver|].
      destruct (Ha1 x Hx1) as [->|?]; [left; set_solver|by right].
Qed.

Lemma CircularList_init_alloc st this (init : list T) :
  store_ok st → brk st + N.of_nat (length init) + 1 ≤ WORD →
  ∃ st' cells, CircularList_init this init st = Ok () st' ∧
    store_ok st' ∧ brk st' = brk st + N.of_nat (length init) + 1 ∧
    is_list st' this (brk st) cells ∧ cells.*2 = init ∧
    frame this [] st st' ∧
    (∀ x, valid_pos (brk st) cells x → next_of st x = None) ∧
    (∀ x, is_Some (next_of st' x) → valid_pos (brk st) cells x ∨ is_Some (next_of st x)).
Proof.
  intros Hok Hroom.
  destruct (CircularList_default_alloc st this Hok)
    as (st1 & Hrun1 & Hok1 & Hb1 & Hl1 & Hfr1 & Ha1); [lia|].
  destruct (push_back_each_alloc st1 this (brk st) [] init Hok1 Hl1)
    as (st2 & new & Hrun2 & Hok2 & Hb2 & Hl2 & Hnew & Hfresh & Hfr2 & Ha2); [lia|].
  exists st2, new. split_and!; [|done|lia|done|done| | |].
  - unfold CircularList_init. rewrite (bind_ok _ _ _ _ _ Hrun1). by apply unwind_ok.
  - eapply frame_trans; [done|done|]. intros x [->|?]%elem_of_cons; [|set_solver].
    right. by apply store_ok_fresh.
  - intros x [->|Hx]; [by apply store_ok_fresh|].
    destruct (next_of st x) eqn:E; [|done].
    destruct Hfr1 as (_ & _ & Hsame). destruct (Hsame x) as (E1 & _); [eauto|set_solver|].
    rewrite Hfresh in E1; [|done]. congruence.
  - intros x Hx. destruct (Ha2 x Hx) as [?|Hx1]; [left; by right|].
    destruct (Ha1 x Hx1) as [->|?]; [left; by left|by right].
Qed.

(** X7: constructing a list from an initializer list in storage that holds
    no list object and destroying it again leaves the node store and the
    list objects exactly as they were before the construction: every node
    the list allocated has been released, and no other node has been
    touched. *)
Theorem X7_construct_destroy_round_trip st this (xs : list T) fuel :
  store_ok st → brk st + N.of_nat (length xs) + 1 ≤ WORD →
  (length xs < fuel)%nat → lists st !! this = None →
  ∃ st1 st2,
    CircularList_init this xs st = Ok () st1 ∧
    CircularList_dtor fuel this st1 = Ok () st2 ∧
    nodes st2 = nodes st ∧ lists st2 = lists st.
Proof.
  intros Hok Hroom Hfuel Hnone.
  destruct (CircularList_init_alloc st this xs Hok Hroom)
    as (st1 & cells & Hrun1 & Hok1 & Hb1 & Hl1 & Hval & Hfr1 & Hfresh & Ha1).
  assert (length cells = length xs) as Hlen by by rewrite <- Hval, length_fmap.
  destruct (CircularList_dtor_list st1 this (brk st) cells fuel Hok1 Hl1)
    as (st2 & Hrun2 & Hok2 & Hb2 & Hls2 & Hn2); [lia|].
  exists st1, st2. split_and!; [done|done| |].
  - apply map_eq. intros x. rewrite Hn2.
    destruct (decide (x ∈ brk st :: cells.*1)) as [Hin|Hout].
    + symmetry. apply dead_node. apply Hfresh.
      apply elem_of_cons in Hin as [->|?]; [by left|by right].
    + destruct (nodes st !! x) as [n|] eqn:E.
      * rewrite <- E. destruct Hfr1 as (_ & _ & Hsame).
        destruct (Hsame x) as (E1 & E2 & E3);
          [apply live_next; by rewrite E|apply not_elem_of_nil|].
        by apply nodes_views.
      * apply dead_node. destruct (next_of st1 x) eqn:E1; [|done].
        destruct (Ha1 x) as [[->|?]|[? Hx]]; [eauto|set_solver|set_solver|].
        unfold next_of in Hx. by rewrite E in Hx.
  - rewrite Hls2, (frame_lists_insert _ _ _ _ _ Hfr1 (proj1 Hl1)).
    by apply delete_insert_id.
Qed.

End Allocation.

Section Moves.
Context {T : Type} `{!Inhabited T}.
Implicit Types (st : state T) (p q x s this other : ptr) (cells : list (ptr * T)).

Lemma bind_undefined {A B} (m : M T A) (k : A → M T B) st :
  m st = Undefined → bind m k st = Undefined.
Proof. unfold bind. by intros ->. Qed.

Lemma null_dead st : store_ok st → nodes st !! nullptr = None.
Proof.
  intros (_ & _ & Hb). destruct (nodes st !! nullptr) eqn:E; [|done].
  destruct (Hb nullptr); [by rewrite E|]. unfold nullptr in *. lia.
Qed.

(** Dereferencing and stepping read the node store only. *)
Lemma deref_nodes st st' it v :
  nodes st' = nodes st → deref it st = Ok v st → deref it st' = Ok v st'.
Proof.
  intros Hn. unfold deref. case_decide; [done|]. unfold load. rewrite Hn.
  destruct (nodes st !! current_ it); [|done]. by intros [= ->].
Qed.

Lemma incr_nodes st st' it it' :
  nodes st' = nodes st → incr it st = Ok it' st → incr it st' = Ok it' st'.
Proof.
  intros Hn. unfold incr. case_decide; [done|]. unfold bind, load, ret. rewrite Hn.
  destruct (nodes st !! current_ it); [|done]. by intros [= ->].
Qed.

Lemma decr_nodes st st' it it' :
  nodes st' = nodes st → decr it st = Ok it' st → decr it st' = Ok it' st'.
Proof.
  intros Hn. unfold decr, bind, load. rewrite Hn.
  destruct (nodes st !! current_ it) as [n|]; [|done].
  case_decide.
  - rewrite Hn. unfold ret. destruct (nodes st !! prev n); [|done]. by intros [= ->].
  - unfold ret. by intros [= ->].
Qed.

(** The second half of move assignment: taking the members of [other]. *)
Lemma take_members st this other l so n :
  this ≠ other →
  lists st !! this = Some l → lists st !! other = Some (mkList so n) →
  ∃ st', (ot <- get_temp_node other ;; set_temp_node this ot ;;;
          os <- get_size other ;; set_size this os ;;;
          set_temp_node other nullptr ;;;
          set_size other 0) st = Ok () st' ∧
    nodes st' = nodes st ∧ brk st' = brk st ∧
    lists st' = <[other := mkList nullptr 0]> (<[this := mkList so n]> (lists st)).
Proof.
  intros Hne Hl Hlo. eexists. split.
  - erewrite bind_ok; [|apply get_temp_node_ok; exact Hlo].
    erewrite bind_ok; [|apply set_temp_node_ok; exact Hl].
    erewrite bind_ok; [|apply get_size_ok; simpl; by rewrite lookup_insert_ne].
    erewrite bind_ok; [|apply set_size_ok; simpl; apply lookup_insert_eq].
    erewrite bind_ok; [|apply set_temp_node_ok; simpl; by rewrite !lookup_insert_ne].
    apply set_size_ok. simpl. apply lookup_insert_eq.
  - simpl. split_and!; [done..|].
    apply map_eq. intros o.
    destruct (decide (o = other)) as [->|Ho]; [by rewrite !lookup_insert_eq|].
    rewrite !(lookup_insert_ne _ other) by done.
    destruct (decide (o = this)) as [->|Ht]; [by rewrite !lookup_insert_eq|].
    by rewrite !(lookup_insert_ne _ this) by done.
Qed.

(** Move assignment and the node store. *)
Lemma move_assign_nodes st this other s so cells co fuel :
  store_ok st → this ≠ other →
  is_list st this s cells → is_list st other so co → apart s cells so co →
  (length cells < fuel)%nat →
  ∃ st', move_assign fuel this other st = Ok () st' ∧
    store_ok st' ∧ brk st' = brk st ∧
    is_list st' this so co ∧ moved_from st' other ∧
    (∀ x, nodes st' !! x = if decide (x ∈ s :: cells.*1) then None else nodes st !! x) ∧
    (∀ o, o ≠ this → o ≠ other → lists st' !! o = lists st !! o).
Proof.
  intros Hok Hne Hl Hlo Hap Hfuel.
  destruct (release_ring st this s cells fuel Hok Hl Hfuel)
    as (st1 & Hclear & Hdel & Hok1 & Hb & Hls & Hnodes).
  assert (lists st1 !! this = Some (mkList s 0)) as Hlk
    by (rewrite Hls; apply lookup_insert_eq).
  assert (lists (free_node s st1) !! other = Some (mkList so (N.of_nat (length co)))) as Hlko.
  { simpl. rewrite Hls. rewrite lookup_insert_ne by done. apply Hlo. }
  destruct (take_members (free_node s st1) this other _ so _ Hne Hlk Hlko)
    as (st' & Hrun & Hn & Hb' & Hls').
  exists st'. split_and!.
  - unfold move_assign. apply noexcept_ok. rewrite decide_True by done.
    rewrite (bind_ok _ _ _ _ _ Hclear).
    rewrite (bind_ok _ _ _ _ _ (get_temp_node_ok _ _ _ Hlk)). simpl.
    by rewrite (bind_ok _ _ _ _ _ Hdel).
  - apply (store_ok_grow (free_node s st1)); [done|lia|rewrite Hb'; apply Hok1|].
    intros a. unfold next_of. rewrite Hn. by left.
  - rewrite Hb'. simpl. done.
  - split.
    + rewrite Hls'. rewrite lookup_insert_ne by done. apply lookup_insert_eq.
    + apply (ring_frame st); [apply Hlo|]. intros x Hx.
      pose proof (apart_owned _ _ _ _ _ Hap Hx) as Hout.
      unfold next_of, prev_of, value_of. rewrite Hn, Hnodes.
      by rewrite decide_False.
  - unfold moved_from. rewrite Hls'. apply lookup_insert_eq.
  - intros x. rewrite Hn. apply Hnodes.
  - intros o Ho1 Ho2. rewrite Hls'. rewrite !lookup_insert_ne by done.
    simpl. rewrite Hls. by rewrite lookup_insert_ne.
Qed.

(** The destructor of a moved-from object releases nothing. *)
Lemma dtor_moved_from st this fuel :
  moved_from st this → (0 < fuel)%nat →
  CircularList_dtor fuel this st = Ok () (set_lists (delete this) st).
Proof.
  intros Hmv Hfuel. unfold moved_from in Hmv.
  assert (clear fuel this st = Ok () st) as Hclear.
  { destruct fuel as [|fuel]; [lia|]. apply noexcept_ok. simpl.
    by rewrite (bind_ok _ _ _ _ _ (empty_ok _ _ _ Hmv)). }
  unfold CircularList_dtor. rewrite (bind_ok _ _ _ _ _ Hclear).
  rewrite (bind_ok _ _ _ _ _ (get_temp_node_ok _ _ _ Hmv)). simpl.
  unfold delete_Node at 1. unfold bind at 1. rewrite decide_True by done.
  unfold end_lifetime. by rewrite Hmv.
Qed.

(** X8: the move constructor allocates nothing and copies nothing: the node
    store is unchanged, the new list owns the ring of its argument with the
    same sentinel and the same element nodes, so it is traversed with the
    values the argument had, and every iterator of the argument is now an
    iterator of the new list that dereferences and steps as before.  The
    argument is left with a null sentinel pointer and size 0. *)
Theorem X8_move_constructor_transfers st this other so co :
  store_ok st → this ≠ other → is_list st other so co →
  ∃ st', CircularList_move this other st = Ok () st' ∧
    nodes st' = nodes st ∧ brk st' = brk st ∧
    lists st' = <[other := mkList nullptr 0]>
                  (<[this := mkList so (N.of_nat (length co))]> (lists st)) ∧
    is_list st' this so co ∧ moved_from st' other ∧
    (∀ fuel, (length co < fuel)%nat → collect_forward fuel this st' = Ok co.*2 st') ∧
    (∀ it, iter_of st other it → iter_of st' this it) ∧
    (∀ it v, deref it st = Ok v st → deref it st' = Ok v st') ∧
    (∀ it it', incr it st = Ok it' st → incr it st' = Ok it' st') ∧
    (∀ it it', decr it st = Ok it' st → decr it st' = Ok it' st').
Proof.
  intros Hok Hne Hlo.
  destruct (CircularList_move_list st this other so co Hok Hne Hlo)
    as (st' & Hrun & Hok' & Hl' & Hmv & Hn & Hb).
  exists st'. split_and!; try done.
  - apply map_eq. intros o. pose proof (proj1 Hlo) as Hlk.
    revert Hrun. unfold CircularList_move, noexcept.
    rewrite (bind_ok _ _ _ _ _ (get_temp_node_ok _ _ _ (proj1 Hlo))).
    rewrite (bind_ok _ _ _ _ _ (get_size_ok _ _ _ (proj1 Hlo))).
    unfold init_members at 1. unfold bind at 1.
    erewrite bind_ok; [|apply set_temp_node_ok; simpl; by rewrite lookup_insert_ne].
    erewrite set_size_ok; [|simpl; apply lookup_insert_eq].
    intros [= <-]. simpl.
    destruct (decide (o = other)) as [->|Ho]; [by rewrite !lookup_insert_eq|].
    by rewrite !(lookup_insert_ne _ other) by done.
  - intros fuel Hfuel. by apply (collect_forward_list _ _ so).
  - intros it (l & Hl & Htn & Hreach).
    rewrite (proj1 Hlo) in Hl. injection Hl as <-. simpl in *.
    exists (mkList so (N.of_nat (length co))). split_and!; [apply Hl'|done|]. simpl.
    apply (valid_reach st' so co); [apply Hl'|].
    by apply (reach_valid st so co); [apply Hlo|].
  - intros it v. by apply deref_nodes.
  - intros it it'. by apply incr_nodes.
  - intros it it'. by apply decr_nodes.
Qed.

(** X9: what a moved-from list object, with its null sentinel pointer and
    size 0, still supports.  [size()], [empty()] and [end()] answer,
    [front()], [back()] and [erase()] throw [out_of_range] as on an empty
    list, [clear()] and the destructor complete without touching a node, and
    move assignment from a well-formed list makes it a well-formed owner of
    that list's ring.  [begin()], [pop_front()], [pop_back()],
    [push_front()], [push_back()] with memory available, and copy
    assignment from a non-empty list all go through the null sentinel
    pointer, which is undefined behaviour. *)
Theorem X9_moved_from_object st this :
  store_ok st → moved_from st this →
  (size this st = Ok 0 st ∧ empty this st = Ok true st ∧
   end_ this st = Ok (mkIter nullptr nullptr) st) ∧
  (front this st = Throw out_of_range st ∧ back this st = Throw out_of_range st ∧
   ∀ pos, erase this pos st = Throw out_of_range st) ∧
  (∀ fuel, (0 < fuel)%nat →
     clear fuel this st = Ok () st ∧
     CircularList_dtor fuel this st = Ok () (set_lists (delete this) st)) ∧
  (∀ fuel other so co, (0 < fuel)%nat → this ≠ other → is_list st other so co →
     ∃ st', move_assign fuel this other st = Ok () st' ∧
       nodes st' = nodes st ∧ is_list st' this so co ∧ moved_from st' other) ∧
  (begin this st = Undefined ∧ pop_front this st = Undefined ∧
   pop_back this st = Undefined ∧ ∀ v, push_front this v st = Undefined) ∧
  (∀ v, brk st < WORD → push_back this v st = Undefined) ∧
  (∀ fuel other so a w co, (0 < fuel)%nat → this ≠ other →
     is_list st other so ((a, w) :: co) → brk st < WORD →
     copy_assign fuel this other st = Undefined).
Proof.
  intros Hok Hmv. unfold moved_from in Hmv.
  pose proof (null_dead st Hok) as Hnull.
  assert (empty this st = Ok true st) as Hempty by apply (empty_ok _ _ _ Hmv).
  assert (begin this st = Undefined) as Hbegin.
  { unfold begin, noexcept.
    rewrite (bind_ok _ _ _ _ _ (get_temp_node_ok _ _ _ Hmv)). simpl.
    by rewrite (bind_undefined _ _ _ (load_dead _ _ _ Hnull)). }
  assert (∀ fuel, (0 < fuel)%nat → clear fuel this st = Ok () st) as Hclear.
  { intros [|fuel] ?; [lia|]. apply noexcept_ok. simpl.
    by rewrite (bind_ok _ _ _ _ _ Hempty). }
  assert (∀ tn v, brk st < WORD → emplace this (mkIter nullptr tn) v st = Undefined) as Hemplace.
  { intros tn v Hroom. unfold emplace.
    rewrite (bind_ok _ _ _ _ _ (new_Node_ok _ _ Hroom)). simpl.
    erewrite bind_ok; [|apply store_next_view; views].
    apply bind_undefined. apply load_dead. simpl.
    destruct Hok as (Hpos & _). unfold nullptr in *.
    rewrite lookup_alter_ne by lia. rewrite lookup_insert_ne by lia. done. }
  assert (∀ v, brk st < WORD → push_back this v st = Undefined) as Hpush.
  { intros v Hroom. unfold push_back, insert.
    rewrite (bind_ok _ _ _ _ _ (end_ok _ _ _ Hmv)). simpl.
    by rewrite (bind_undefined _ _ _ (Hemplace _ _ Hroom)). }
  split_and!.
  - apply (get_size_ok _ _ _ Hmv).
  - done.
  - apply (end_ok _ _ _ Hmv).
  - unfold front. by rewrite (bind_ok _ _ _ _ _ Hempty).
  - unfold back. by rewrite (bind_ok _ _ _ _ _ Hempty).
  - intros pos. unfold erase. by rewrite (bind_ok _ _ _ _ _ Hempty).
  - intros fuel Hfuel. split; [by apply Hclear|].
    unfold CircularList_dtor. rewrite (bind_ok _ _ _ _ _ (Hclear fuel Hfuel)).
    rewrite (bind_ok _ _ _ _ _ (get_temp_node_ok _ _ _ Hmv)). simpl.
    unfold delete_Node at 1. unfold bind at 1. rewrite decide_True by done.
    unfold end_lifetime. by rewrite Hmv.
  - intros fuel other so co Hfuel Hne Hlo.
    destruct (take_members st this other _ so _ Hne Hmv (proj1 Hlo))
      as (st' & Hrun & Hn & Hb & Hls).
    exists st'. split_and!.
    + unfold move_assign. apply noexcept_ok. rewrite decide_True by done.
      rewrite (bind_ok _ _ _ _ _ (Hclear fuel Hfuel)).
      rewrite (bind_ok _ _ _ _ _ (get_temp_node_ok _ _ _ Hmv)). simpl.
      unfold delete_Node at 1. unfold bind at 1. by rewrite decide_True by done.
    + done.
    + split.
      * rewrite Hls. rewrite lookup_insert_ne by done. apply lookup_insert_eq.
      * apply (ring_frame st); [apply Hlo|]. intros x _.
        unfold next_of, prev_of, value_of. by rewrite Hn.
    + unfold moved_from. rewrite Hls. apply lookup_insert_eq.
  - done.
  - unfold pop_front. by rewrite (bind_undefined _ _ _ Hbegin).
  - unfold pop_back. rewrite (bind_ok _ _ _ _ _ (end_ok _ _ _ Hmv)). simpl.
    apply bind_undefined. unfold decr. simpl.
    by rewrite (bind_undefined _ _ _ (load_dead _ _ _ Hnull)).
  - intros v. unfold push_front. by rewrite (bind_undefined _ _ _ Hbegin).
  - done.
  - intros fuel other so a w co Hfuel Hne Hlo Hroom.
    unfold copy_assign. rewrite decide_True by done.
    rewrite (bind_ok _ _ _ _ _ (Hclear fuel Hfuel)).
    unfold copy_from.
    rewrite (bind_ok _ _ _ _ _ (begin_list _ _ _ _ Hlo)).
    rewrite (bind_ok _ _ _ _ _ (end_list _ _ _ _ Hlo)).
    destruct fuel as [|fuel]; [lia|]. cbn [copy_loop].
    change (first_or so ((a, w) :: co).*1) with a.
    destruct (ring_cell st so [] co a w (proj2 Hlo)) as (_ & _ & _ & Has).
    unfold iter_ne, iter_eq. cbn [current_].
    rewrite bool_decide_eq_false_2 by done. cbn [negb].
    rewrite (bind_ok _ _ _ _ _ (deref_cell st so [] co a w (proj2 Hlo))).
    by rewrite (bind_undefined _ _ _ (Hpush w Hroom)).
Qed.

(** X10: move assignment between two well-formed lists that share no node,
    given the loop rounds the size of the destination asks for, completes;
    it releases every node the destination owned, the sentinel included,
    leaves all other nodes as they were, makes the destination the owner of
    the ring of the source, and leaves the source with a null sentinel
    pointer and size 0.  No other list object changes, and assigning a list
    to itself does nothing. *)
Theorem X10_move_assignment st this other s so cells co fuel :
  store_ok st → this ≠ other →
  is_list st this s cells → is_list st other so co → apart s cells so co →
  (length cells < fuel)%nat →
  (∃ st', move_assign fuel this other st = Ok () st' ∧
     store_ok st' ∧ brk st' = brk st ∧
     is_list st' this so co ∧ moved_from st' other ∧
     (∀ x, nodes st' !! x = if decide (x ∈ s :: cells.*1) then None else nodes st !! x) ∧
     (∀ o, o ≠ this → o ≠ other → lists st' !! o = lists st !! o)) ∧
  move_assign fuel this this st = Ok () st.
Proof.
  intros Hok Hne Hl Hlo Hap Hfuel. split; [|apply move_assign_self].
  exact (move_assign_nodes st this other s so cells co fuel Hok Hne Hl Hlo Hap Hfuel).
Qed.

End Moves.

Section Termination.
Context {T : Type} `{!Inhabited T}.
Implicit Types (st : state T) (p q x s this other : ptr) (cells : list (ptr * T)).

Lemma bind_loop_free {A B} (m : M T A) (k : A → M T B) :
  loop_free m → (∀ a, loop_free (k a)) → loop_free (bind m k).
Proof.
  intros Hm Hk st. unfold bind. specialize (Hm st).
  destruct (m st) eqn:E; try done. apply Hk.
Qed.

Lemma bind_keeps_lists {A B} (m : M T A) (k : A → M T B) :
  keeps_lists m → (∀ a, keeps_lists (k a)) → keeps_lists (bind m k).
Proof.
  intros Hm Hk st b st'. unfold bind.
  destruct (m st) as [a st1| | | |] eqn:E; try done.
  intros Hrun. rewrite (Hk a _ _ _ Hrun). by apply (Hm st a).
Qed.

Lemma noexcept_loop_free {A} (m : M T A) : loop_free m → loop_free (noexcept m).
Proof. intros Hm st. unfold noexcept. specialize (Hm st). by destruct (m st). Qed.

Lemma noexcept_keeps_lists {A} (m : M T A) : keeps_lists m → keeps_lists (noexcept m).
Proof.
  intros Hm st a st'. unfold noexcept. specialize (Hm st).
  destruct (m st); try done. intros [= -> ->]. by apply (Hm _ _ eq_refl).
Qed.

Lemma ret_loop_free {A} (a : A) : loop_free (ret (T:=T) a).
Proof. intros st. by unfold ret. Qed.

Lemma throw_loop_free {A} e : loop_free (throw (T:=T) (A:=A) e).
Proof. intros st. by unfold throw. Qed.

Lemma load_loop_free {A} (f : Node T → A) p : loop_free (load f p).
Proof. intros st. unfold load. by destruct (nodes st !! p). Qed.

Lemma store_next_loop_free p q : loop_free (store_next (T:=T) p q).
Proof. intros st. unfold store_next. by destruct (nodes st !! p). Qed.

Lemma store_prev_loop_free p q : loop_free (store_prev (T:=T) p q).
Proof. intros st. unfold store_prev. by destruct (nodes st !! p). Qed.

Lemma delete_Node_loop_free p : loop_free (delete_Node (T:=T) p).
Proof. intros st. unfold delete_Node. case_decide; [done|]. by destruct (nodes st !! p). Qed.

Lemma get_temp_node_loop_free this : loop_free (get_temp_node (T:=T) this).
Proof. intros st. unfold get_temp_node. by destruct (lists st !! this). Qed.

Lemma get_size_loop_free this : loop_free (get_size (T:=T) this).
Proof. intros st. unfold get_size. by destruct (lists st !! this). Qed.

Lemma set_size_loop_free this n : loop_free (set_size (T:=T) this n).
Proof. intros st. unfold set_size. by destruct (lists st !! this). Qed.

Lemma ret_keeps_lists {A} (a : A) : keeps_lists (ret (T:=T) a).
Proof. intros st b st'. unfold ret. intros ?. by simplify_eq. Qed.

Lemma load_keeps_lists {A} (f : Node T → A) p : keeps_lists (load f p).
Proof. intros st a st'. unfold load. cbv beta. destruct (nodes st !! p); [|done]. intros ?. by simplify_eq. Qed.

Lemma store_next_keeps_lists p q : keeps_lists (store_next (T:=T) p q).
Proof. intros st a st'. unfold store_next. cbv beta. destruct (nodes st !! p); [|done]. intros ?. by simplify_eq. Qed.

Lemma store_prev_keeps_lists p q : keeps_lists (store_prev (T:=T) p q).
Proof. intros st a st'. unfold store_prev. cbv beta. destruct (nodes st !! p); [|done]. intros ?. by simplify_eq. Qed.

Lemma delete_Node_keeps_lists p : keeps_lists (delete_Node (T:=T) p).
Proof.
  intros st a st'. unfold delete_Node. cbv beta. case_decide; [intros ?; by simplify_eq|].
  destruct (nodes st !! p); [|done]. intros ?. by simplify_eq.
Qed.

Lemma get_temp_node_keeps_lists this : keeps_lists (get_temp_node (T:=T) this).
Proof.
  intros st a st'. unfold get_temp_node. cbv beta. destruct (lists st !! this); [|done].
  intros ?. by simplify_eq.
Qed.

Create HintDb loops discriminated.
Hint Resolve ret_loop_free throw_loop_free load_loop_free store_next_loop_free
  store_prev_loop_free delete_Node_loop_free get_temp_node_loop_free
  get_size_loop_free set_size_loop_free : loops.
Hint Resolve ret_keeps_lists load_keeps_lists store_next_keeps_lists
  store_prev_keeps_lists delete_Node_keeps_lists get_temp_node_keeps_lists : loops.

Ltac loops :=
  repeat first
    [ apply bind_loop_free; [|intros ?]
    | apply bind_keeps_lists; [|intros ?]
    | apply noexcept_loop_free
    | apply noexcept_keeps_lists
    | progress auto with loops
    | case_decide
    | match goal with |- context [if ?b then _ else _] => destruct b end ].

Lemma begin_loop_free this : loop_free (begin (T:=T) this).
Proof. unfold begin. loops. Qed.

Lemma begin_keeps_lists this : keeps_lists (begin (T:=T) this).
Proof. unfold begin. loops. Qed.

Lemma erase_loop_free this pos : loop_free (erase (T:=T) this pos).
Proof. unfold erase, empty. loops. Qed.

Lemma pop_front_loop_free this : loop_free (pop_front (T:=T) this).
Proof.
  unfold pop_front. apply bind_loop_free; [apply begin_loop_free|intros b].
  apply bind_loop_free; [apply erase_loop_free|intros ?]. apply ret_loop_free.
Qed.

Lemma bind_counts_down {A B} this (m : M T A) (k : A → M T B) :
  keeps_lists m → (∀ a, counts_down this (k a)) → counts_down this (bind m k).
Proof.
  intros Hm Hk st b st'. unfold bind.
  destruct (m st) as [a st1| | | |] eqn:E; try done.
  intros Hrun. destruct (Hk a _ _ _ Hrun) as (l & Hl & Hl').
  exists l. by rewrite <- (Hm _ _ _ E).
Qed.

Lemma size_down this {A} (a : A) :
  counts_down this (sz <- get_size (T:=T) this ;;
                    set_size this ((sz + WORD - 1) mod WORD) ;;; ret a).
Proof.
  intros st b st'. unfold bind, get_size, set_size, ret.
  destruct (lists st !! this) as [l|] eqn:Hl; [|done]. simpl. rewrite Hl.
  intros ?. simplify_eq. exists l. split; [done|]. simpl. apply lookup_insert_eq.
Qed.

(** In any state whatever, an [erase] that completes has found a non-zero
    size counter and has lowered it by one, modulo the word size. *)
Lemma erase_counts st st' this pos it :
  erase this pos st = Ok it st' →
  ∃ l, lists st !! this = Some l ∧ size_ l ≠ 0 ∧
       lists st' !! this = Some (mkList (temp_node_ l) ((size_ l + WORD - 1) mod WORD)).
Proof.
  unfold erase, empty. unfold bind at 1 2. unfold get_size at 1.
  destruct (lists st !! this) as [l|] eqn:Hl; [|done]. cbn [ret].
  destruct (bool_decide (size_ l = 0)) eqn:Hsz; [done|].
  apply bool_decide_eq_false in Hsz.
  unfold bind at 1. unfold get_temp_node at 1. rewrite Hl.
  case_decide; [done|].
  match goal with |- ?m st = Ok _ _ → _ => assert (counts_down this m) as Hc end.
  { repeat first [ apply size_down
                 | apply bind_counts_down; [solve [auto with loops]|intros ?] ]. }
  intros Hrun. destruct (Hc _ _ _ Hrun) as (l' & Hl' & Hl'').
  rewrite Hl in Hl'. injection Hl' as <-. by exists l.
Qed.

Lemma pop_front_counts st st' this :
  pop_front this st = Ok () st' →
  ∃ l, lists st !! this = Some l ∧ size_ l ≠ 0 ∧
       lists st' !! this = Some (mkList (temp_node_ l) ((size_ l + WORD - 1) mod WORD)).
Proof.
  unfold pop_front. unfold bind at 1.
  destruct (begin this st) as [b st1| | | |] eqn:Hb; try done.
  apply begin_keeps_lists in Hb. unfold bind, ret.
  destruct (erase this b st1) as [it st2| | | |] eqn:He; try done.
  intros ?. simplify_eq.
  destruct (erase_counts _ _ _ _ _ He) as (l & Hl & Hsz & Hl').
  exists l. by rewrite <- Hb.
Qed.

(** The loop of [clear()] stops: each round that completes lowers the size
    counter, so as many rounds as the counter says, and one more for the
    last test, are enough in any state. *)
Lemma clear_loop_stops this fuel st l :
  lists st !! this = Some l → (N.to_nat (size_ l) < fuel)%nat →
  clear_loop fuel this st ≠ OutOfFuel.
Proof.
  revert st l. induction fuel as [|fuel IH]; intros st l Hl Hfuel; [lia|].
  cbn [clear_loop]. rewrite (bind_ok _ _ _ _ _ (empty_ok _ _ _ Hl)).
  case_bool_decide as Hsz; [done|].
  unfold bind. pose proof (pop_front_loop_free this st) as Hnl.
  destruct (pop_front this st) as [[] st1| | | |] eqn:Hp; try done.
  destruct (pop_front_counts _ _ _ Hp) as (l0 & Hl0 & _ & Hl1).
  rewrite Hl in Hl0. injection Hl0 as <-.
  apply (IH st1 _ Hl1). simpl.
  assert ((size_ l + WORD - 1) mod WORD < size_ l); [|lia].
  assert (0 < WORD) by (unfold WORD; lia).
  destruct (decide (size_ l < WORD)).
  - replace (size_ l + WORD - 1) with ((size_ l - 1) + 1 * WORD) by lia.
    rewrite N.Div0.mod_add. rewrite N.mod_small by lia. lia.
  - pose proof (N.mod_upper_bound (size_ l + WORD - 1) WORD). lia.
Qed.

(** X11: [clear()] stops in every state, whatever the links and the size
    counter are: its loop runs while the counter is not zero, every
    [pop_front()] that completes has lowered the counter by one, and a
    [pop_front()] that throws ends the call through [noexcept].  So the
    counter bounds the number of rounds, and when the call returns the
    counter is zero.  Neither [erase] nor [pop_front] ever completes on a
    list whose counter is zero. *)
Theorem X11_clear_terminates st this l fuel :
  lists st !! this = Some l → (N.to_nat (size_ l) < fuel)%nat →
  clear fuel this st ≠ OutOfFuel ∧
  (∀ e st', clear fuel this st ≠ Throw e st') ∧
  (∀ st', clear fuel this st = Ok () st' → size this st' = Ok 0 st') ∧
  (size_ l = 0 → clear fuel this st = Ok () st ∧
     ∀ pos it st', erase this pos st ≠ Ok it st' ∧ pop_front this st ≠ Ok () st').
Proof.
  intros Hl Hfuel. split_and!.
  - unfold clear, noexcept. pose proof (clear_loop_stops this fuel st l Hl Hfuel).
    by destruct (clear_loop fuel this st).
  - intros e st'. unfold clear, noexcept. by destruct (clear_loop fuel this st).
  - intros st'. unfold clear, noexcept.
    destruct (clear_loop fuel this st) as [[] st1| | | |] eqn:Hrun; try done.
    intros [= ->]. clear Hfuel. revert st l Hl Hrun.
    induction fuel as [|fuel IH]; intros st l Hl; [done|].
    cbn [clear_loop]. rewrite (bind_ok _ _ _ _ _ (empty_ok _ _ _ Hl)).
    case_bool_decide as Hsz.
    + unfold ret. intros [= <-]. unfold size. rewrite (get_size_ok _ _ _ Hl).
      by rewrite Hsz.
    + unfold bind. destruct (pop_front this st) as [[] st1| | | |] eqn:Hp; try done.
      destruct (pop_front_counts _ _ _ Hp) as (l0 & _ & _ & Hl1).
      by apply (IH st1 _ Hl1).
  - intros Hz. split.
    + destruct fuel as [|fuel]; [lia|]. apply noexcept_ok. cbn [clear_loop].
      rewrite (bind_ok _ _ _ _ _ (empty_ok _ _ _ Hl)).
      by rewrite bool_decide_eq_true_2.
    + intros pos it st'. split.
      * intros (l0 & Hl0 & Hsz & _)%erase_counts. congruence.
      * intros (l0 & Hl0 & Hsz & _)%pop_front_counts. congruence.
Qed.

End Termination.

Section Sequence.
Context {T : Type} `{!Inhabited T}.
Implicit Types (st : state T) (p q x s this other : ptr) (cells : list (ptr * T)).

Lemma contents_list st this s cells : is_list st this s cells → contents st this cells.*2.
Proof.
  intros Hl. split.
  - rewrite length_fmap. by apply (size_list _ _ s).
  - intros fuel Hfuel. rewrite length_fmap in Hfuel. split.
    + by apply (collect_forward_list _ _ s).
    + by apply (collect_reverse_list _ _ s).
Qed.

Lemma front_back_list st this s cells :
  is_list st this s cells →
  front this st = match head cells.*2 with
                  | Some v => Ok v st
                  | None => Throw out_of_range st
                  end ∧
  back this st = match last cells.*2 with
                 | Some v => Ok v st
                 | None => Throw out_of_range st
                 end.
Proof.
  intros Hl. split.
  - destruct cells as [|[a v] cells]; simpl.
    + by apply (front_empty _ _ s).
    + by apply (front_list _ _ s a v cells).
  - destruct cells as [|[a v] cells _] using rev_ind.
    + by apply (back_empty _ _ s).
    + rewrite fmap_app. change ([(a, v)].*2) with [v]. rewrite last_snoc.
      by apply (back_list _ _ s a v cells).
Qed.

(** X12: the members as operations on the sequence a list holds.  On a
    well-formed list holding [xs], [push_back(v)] leaves [xs ++ [v]] and
    [push_front(v)] leaves [v :: xs]; on a non-empty list [pop_front()]
    leaves [xs] without its first element and [pop_back()] leaves [xs]
    without its last; assigning [v] through the iterator at index [i]
    replaces the [i]-th element; [front()] returns the first element and
    [back()] the last, and both throw [out_of_range] when there is none. *)
Theorem X12_sequence_semantics st this s cells :
  store_ok st → is_list st this s cells →
  contents st this cells.*2 ∧
  (∀ v, brk st < WORD →
     ∃ st', push_back this v st = Ok () st' ∧ contents st' this (cells.*2 ++ [v])) ∧
  (∀ v, brk st < WORD →
     ∃ st', push_front this v st = Ok () st' ∧ contents st' this (v :: cells.*2)) ∧
  (cells ≠ [] →
     ∃ st', pop_front this st = Ok () st' ∧ contents st' this (tail cells.*2)) ∧
  (cells ≠ [] →
     ∃ st', pop_back this st = Ok () st' ∧ contents st' this (removelast cells.*2)) ∧
  (∀ i v, (i < length cells)%nat →
     ∃ st', (it <- nth_pos this i ;; assign it v) st = Ok () st' ∧
       contents st' this (<[i := v]> cells.*2)) ∧
  front this st = match head cells.*2 with
                  | Some v => Ok v st
                  | None => Throw out_of_range st
                  end ∧
  back this st = match last cells.*2 with
                 | Some v => Ok v st
                 | None => Throw out_of_range st
                 end.
Proof.
  intros Hok Hl. split_and!.
  - by apply (contents_list _ _ s).
  - intros v Hroom.
    destruct (push_back_list st this s cells v Hok Hl Hroom) as (st' & Hrun & _ & _ & Hl' & _).
    exists st'. split; [done|].
    apply contents_list in Hl'. by rewrite fmap_app in Hl'.
  - intros v Hroom.
    destruct (push_front_list st this s cells v Hok Hl Hroom) as (st' & Hrun & _ & _ & Hl' & _).
    exists st'. split; [done|]. by apply contents_list in Hl'.
  - intros Hne. destruct cells as [|[a v] cells]; [done|].
    destruct (pop_front_list st this s a v cells Hok Hl) as (st' & Hrun & _ & _ & Hl' & _).
    exists st'. split; [done|]. by apply contents_list in Hl'.
  - intros Hne. destruct cells as [|[a v] cells _] using rev_ind; [done|].
    destruct (pop_back_list st this s a v cells Hok Hl) as (st' & Hrun & _ & _ & Hl' & _).
    exists st'. split; [done|].
    rewrite fmap_app. change ([(a, v)].*2) with [v]. rewrite removelast_last.
    by apply contents_list in Hl'.
  - intros i v Hi.
    destruct (lookup_lt_is_Some_2 cells i Hi) as [[a w] Hc].
    assert (cells = take i cells ++ (a, w) :: drop (S i) cells) as E
      by by rewrite <- (drop_S _ _ _ Hc), take_drop.
    assert (is_list st this s (take i cells ++ (a, w) :: drop (S i) cells)) as Hl0
      by by rewrite <- E.
    destruct (assign_list st this s _ _ a w v Hok Hl0) as (Hrun & _ & _ & Hl' & _).
    exists (upd_value a v st). split.
    + pose proof (nth_pos_list _ _ _ _ i Hl) as Hn.
      rewrite decide_True in Hn by lia. rewrite (drop_S _ _ _ Hc) in Hn.
      by rewrite (bind_ok _ _ _ _ _ Hn).
    + apply contents_list in Hl'.
      rewrite fmap_app, fmap_cons in Hl'. cbn [snd] in Hl'.
      rewrite E at 1. rewrite fmap_app, fmap_cons. cbn [snd].
      rewrite insert_app_r_alt by (rewrite length_fmap, length_take; lia).
      rewrite length_fmap, length_take.
      replace (i - i `min` length cells)%nat with 0%nat by lia. done.
  - by apply (front_back_list _ _ s).
  - by apply (front_back_list _ _ s).
Qed.

End Sequence.

Section Foreign.
Context {T : Type} `{!Inhabited T}.
Implicit Types (st : state T) (p q x s this other : ptr) (cells : list (ptr * T)).

(** X14: [erase] does not check that its iterator belongs to the list it is
    called on.  Given an iterator to an element of another well-formed list,
    an empty list throws [out_of_range]; a non-empty list completes: the
    node is unlinked from the other list's ring and released, and the size
    counter that goes down is that of the list the call was made on.
    Afterwards the ring of each list is intact, but neither size counter
    matches its ring any more, so the ring invariant holds for neither
    list. *)
Theorem X14_erase_foreign_iterator st this other s so cells
    (K1 K2 : list (ptr * T)) b w tn :
  store_ok st → this ≠ other →
  is_list st this s cells → is_list st other so (K1 ++ (b, w) :: K2) →
  apart s cells so (K1 ++ (b, w) :: K2) →
  (cells = [] → erase this (mkIter b tn) st = Throw out_of_range st) ∧
  (cells ≠ [] →
     ∃ st', erase this (mkIter b tn) st = Ok (mkIter (first_or so K2.*1) s) st' ∧
       nodes st' !! b = None ∧
       ring st' s cells ∧
       size this st' = Ok (N.of_nat (length cells) - 1) st' ∧
       ring st' so (K1 ++ K2) ∧
       size other st' = Ok (N.of_nat (length K1 + length K2) + 1) st' ∧
       ¬ ring_invariant st' this ∧ ¬ ring_invariant st' other).
Proof.
  intros Hok Hne Hl Hlo Hap. split.
  { intros ->. by apply (erase_empty _ _ s). }
  intros Hcells. pose proof (proj2 Hlo) as Hro. pose proof (proj2 Hl) as Hr.
  destruct (ring_cell _ _ _ _ _ _ Hro) as (Hn & Hp & Hv & Hbso).
  assert (NoDup (so :: K1.*1 ++ K2.*1) ∧ b ∉ so :: K1.*1 ++ K2.*1) as [Hnd Hb].
  { destruct Hro as (Hnd & _). rewrite fmap_app, fmap_cons in Hnd. simpl in Hnd.
    rewrite <-Permutation_middle, perm_swap in Hnd. apply NoDup_cons in Hnd. tauto. }
  assert (last_or so K1.*1 ≠ b) as Hpb.
  { intros <-. destruct (last_or_elem so K1.*1) as [E| ?]; [rewrite E in Hb|]; set_solver. }
  assert (first_or so K2.*1 ≠ b) as Hnb.
  { intros <-. destruct (first_or_elem so K2.*1) as [E| ?]; [rewrite E in Hb|]; set_solver. }
  assert (valid_pos so (K1 ++ (b, w) :: K2) b) as Hvb.
  { right. rewrite fmap_app, fmap_cons. set_solver. }
  assert (valid_pos so (K1 ++ (b, w) :: K2) (last_or so K1.*1)) as Hvp
    by apply valid_pos_last.
  assert (valid_pos so (K1 ++ (b, w) :: K2) (first_or so K2.*1)) as Hvn.
  { pose proof (valid_pos_first so (K1 ++ [(b, w)]) K2) as Hv'.
    by rewrite <- app_assoc in Hv'. }
  assert (b ≠ nullptr) as Hnull.
  { intros ->. destruct Hok as (_ & _ & Hbd).
    destruct (Hbd nullptr); [|unfold nullptr in *; lia]. apply live_next. eauto. }
  assert (b ≠ s) as Hbs by (intros ->; apply (Hap s Hvb); by left).
  pose proof (ring_bound _ _ _ Hok Hr) as Hbound.
  assert (0 < length cells)%nat as Hlen by (destruct cells; [done|simpl; lia]).
  destruct (erase_exec st this _ b tn (last_or so K1.*1) (first_or so K2.*1) (proj1 Hl))
    as (st' & Hrun & Hlists & Hbrk & Hnext & Hprev & Hval); simpl; try done.
  { lia. }
  { by apply (ring_live st so (K1 ++ (b, w) :: K2)). }
  { by apply (ring_live st so (K1 ++ (b, w) :: K2)). }
  simpl in Hlists, Hrun.
  assert ((N.of_nat (length cells) + WORD - 1) mod WORD = N.of_nat (length cells) - 1) as Hsz.
  { replace (N.of_nat (length cells) + WORD - 1)
      with ((N.of_nat (length cells) - 1) + 1 * WORD) by lia.
    rewrite N.Div0.mod_add. rewrite N.mod_small; [done|].
    destruct Hok as (_ & ? & _). lia. }
  rewrite Hsz in Hlists.
  assert (ring st' s cells) as Hr'.
  { apply (ring_frame st); [done|]. intros x Hx.
    assert (x ≠ b) by (intros ->; by apply (Hap b Hvb)).
    assert (x ≠ last_or so K1.*1) by (intros ->; by apply (Hap _ Hvp)).
    assert (x ≠ first_or so K2.*1) by (intros ->; by apply (Hap _ Hvn)).
    rewrite Hnext, Hprev, Hval. by rewrite !decide_False. }
  assert (ring st' so (K1 ++ K2)) as Hro' by by eapply ring_remove.
  assert (lists st' !! this = Some (mkList s (N.of_nat (length cells) - 1))) as Hlk
    by (rewrite Hlists; apply lookup_insert_eq).
  assert (lists st' !! other = Some (mkList so (N.of_nat (length K1 + length K2) + 1))) as Hlko.
  { rewrite Hlists, lookup_insert_ne by done. rewrite (proj1 Hlo).
    rewrite length_app. cbn [length]. do 2 f_equal. lia. }
  exists st'. split_and!; try done.
  - apply dead_node. rewrite Hnext. by rewrite decide_True.
  - unfold size. by rewrite (get_size_ok _ _ _ Hlk).
  - unfold size. by rewrite (get_size_ok _ _ _ Hlko).
  - intros (s' & c' & Hlk' & Hrc). rewrite Hlk in Hlk'. injection Hlk' as <- Hlen'.
    rewrite (ring_unique st' s c' cells Hrc Hr') in Hlen'. lia.
  - intros (s' & c' & Hlk' & Hrc). rewrite Hlko in Hlk'. injection Hlk' as <- Hlen'.
    rewrite (ring_unique st' so c' (K1 ++ K2) Hrc Hro') in Hlen'.
    rewrite length_app in Hlen'. lia.
Qed.

End Foreign.

Section CopyAssign.
Context {T : Type} `{!Inhabited T}.
Implicit Types (st : state T) (p q x s this other : ptr) (cells : list (ptr * T)).

(** The copy loop allocates the nodes it appends and no other. *)
Lemma copy_loop_alloc st this other s so cells (K1 K2 : list (ptr * T)) fuel :
  store_ok st → this ≠ other →
  is_list st this s cells → is_list st other so (K1 ++ K2) →
  apart s cells so (K1 ++ K2) →
  (length K2 < fuel)%nat → brk st + N.of_nat (length K2) ≤ WORD →
  ∃ st' new, copy_loop fuel this (mkIter (first_or so K2.*1) so) (mkIter so so) st = Ok () st' ∧
    store_ok st' ∧
    is_list st' this s (cells ++ new) ∧ new.*2 = K2.*2 ∧
    is_list st' other so (K1 ++ K2) ∧
    (∀ x, x ∈ new.*1 → next_of st x = None) ∧
    frame this (s :: cells.*1) st st' ∧
    (∀ x, is_Some (next_of st' x) → x ∈ new.*1 ∨ is_Some (next_of st x)).
Proof.
  revert st K1 cells fuel.
  induction K2 as [|[a v] K2 IH]; intros st K1 cells fuel Hok Hne Hl Hlo Hap Hfuel Hroom.
  - destruct fuel as [|fuel]; [lia|]. exists st, []. rewrite app_nil_r.
    split_and!; [|done|done|done|done|set_solver|apply frame_refl|by right].
    simpl. unfold iter_ne, iter_eq. simpl. by rewrite bool_decide_eq_true_2.
  - destruct fuel as [|fuel]; [simpl in Hfuel; lia|]. simpl in Hroom, Hfuel.
    pose proof (proj2 Hlo) as Hro.
    destruct (ring_cell _ _ _ _ _ _ Hro) as (_ & _ & _ & Hnes).
    destruct (push_back_alloc st this s cells v Hok Hl)
      as (st1 & Hrun1 & Hok1 & Hb1 & Hl1 & Hfr1 & Ha1); [lia|].
    assert (is_list st1 other so (K1 ++ (a, v) :: K2)) as Hlo1.
    { eapply is_list_frame; [done|done| |done]. intros x Hx Hin. apply (Hap x Hx).
      unfold valid_pos. set_solver. }
    pose proof (store_ok_fresh _ Hok) as Hfresh.
    destruct (IH st1 (K1 ++ [(a, v)]) (cells ++ [(brk st, v)]) fuel)
      as (st2 & new & Hrun2 & Hok2 & Hl2 & Hnew & Hlo2 & Hfr & Hfr2 & Ha2);
      [done|done|done|by rewrite <-app_assoc| |lia|lia|].
    { rewrite <-app_assoc. simpl. intros x Hx Hin.
      assert (is_Some (next_of st x)) as [? Hlive] by (eapply ring_live; [apply Hlo|done]).
      unfold valid_pos in Hin. rewrite fmap_app in Hin. simpl in Hin.
      destruct (decide (x = brk st)) as [->|]; [congruence|].
      apply (Hap x Hx). unfold valid_pos. set_solver. }
    exists st2, ((brk st, v) :: new). split_and!.
    + simpl. unfold iter_ne, iter_eq. simpl. rewrite bool_decide_eq_false_2 by done. simpl.
      rewrite (bind_ok _ _ _ _ _ (deref_cell _ _ _ _ _ _ Hro)).
      rewrite (bind_ok _ _ _ _ _ Hrun1).
      rewrite (bind_ok _ _ _ _ _ (incr_cell _ _ _ _ _ _ (proj2 Hlo1))).
      done.
    + done.
    + by rewrite <-app_assoc in Hl2.
    + by rewrite !fmap_cons, Hnew.
    + by rewrite <-app_assoc in Hlo2.
    + rewrite fmap_cons. intros x [->|Hx]%elem_of_cons; [done|].
      destruct (next_of st x) eqn:E; [|done].
      destruct Hfr1 as (_ & _ & Hsame).
      destruct (decide (x ∈ s :: cells.*1)) as [Hin|Hout].
      * assert (is_Some (next_of st1 x)) as [? E1]; [|by rewrite Hfr in E1].
        eapply ring_live; [apply Hl1|]. unfold valid_pos. rewrite fmap_app. set_solver.
      * destruct (Hsame x) as (E1 & _); [eauto|done|].
        rewrite Hfr in E1; [|done]. congruence.
    + eapply frame_trans; [done|done|]. intros x Hx. rewrite fmap_app in Hx. simpl in Hx.
      destruct (decide (x = brk st)) as [->|]; [by right|left; set_solver].
    + rewrite fmap_cons. cbn [fst]. intros x Hx.
      destruct (Ha2 x Hx) as [?|Hx1]; [left; set_solver|].
      destruct (Ha1 x Hx1) as [->|?]; [left; set_solver|by right].
Qed.

(** X15: copy assignment between two well-formed lists that share no node,
    with loop rounds and memory for both sizes, completes and keeps the
    sentinel of the destination; the destination then holds the values of
    the source in the same order, and the source is as it was.  No node is
    leaked: the nodes live afterwards are the new element nodes and the
    nodes live before other than the old element nodes of the destination.
    Nodes of neither kind and all other list objects are untouched, and
    assigning a list to itself does nothing. *)
Theorem X15_copy_assignment st this other s so cells co fuel :
  store_ok st → this ≠ other →
  is_list st this s cells → is_list st other so co → apart s cells so co →
  (length cells < fuel)%nat → (length co < fuel)%nat →
  brk st + N.of_nat (length co) ≤ WORD →
  (∃ st' new, copy_assign fuel this other st = Ok () st' ∧
     is_list st' this s new ∧ new.*2 = co.*2 ∧ is_list st' other so co ∧
     (∀ x, is_Some (nodes st' !! x) ↔
           x ∈ new.*1 ∨ (is_Some (nodes st !! x) ∧ x ∉ cells.*1)) ∧
     (∀ x, x ∉ s :: cells.*1 → x ∉ new.*1 → nodes st' !! x = nodes st !! x) ∧
     (∀ o, o ≠ this → lists st' !! o = lists st !! o)) ∧
  copy_assign fuel this this st = Ok () st.
Proof.
  intros Hok Hne Hl Hlo Hap Hf1 Hf2 Hroom. split; [|apply copy_assign_self].
  destruct (clear_loop_nodes st this s cells fuel Hok Hl Hf1)
    as (st1 & Hrun1 & Hok1 & Hb1 & Hl1 & Hfr1 & Hin1 & Hout1 & Hs1).
  assert (is_list st1 other so co) as Hlo1.
  { eapply is_list_frame; [done|done| |done]. intros x Hx. by eapply apart_owned. }
  destruct (copy_loop_alloc st1 this other s so [] [] co fuel)
    as (st2 & new & Hrun2 & Hok2 & Hl2 & Hnew & Hlo2 & Hfresh & Hfr2 & Ha2);
    [done..|by eapply apart_nil|done|lia|].
  cbn [app] in Hl2.
  assert (is_Some (nodes st !! s)) as Hslive.
  { apply live_next. apply (ring_live st s cells); [apply Hl|by left]. }
  assert (s ∉ cells.*1) as Hscells.
  { destruct Hl as (_ & Hnd & _). by apply NoDup_cons in Hnd as [? _]. }
  assert (∀ x, x ∉ s :: cells.*1 → x ∉ new.*1 → nodes st2 !! x = nodes st !! x) as Hsame.
  { intros x Hx Hxn. rewrite <- (Hout1 x Hx).
    destruct (nodes st1 !! x) as [n|] eqn:E.
    - rewrite <- E. destruct Hfr2 as (_ & _ & Hsame).
      destruct (Hsame x) as (E1 & E2 & E3);
        [apply live_next; by rewrite E|set_solver|].
      by apply nodes_views.
    - apply dead_node. destruct (next_of st2 x) eqn:E2; [|done].
      destruct (Ha2 x) as [?|[? Hx1]]; [eauto|done|].
      unfold next_of in Hx1. by rewrite E in Hx1. }
  exists st2, new. split_and!; [|done..| |done|].
  - unfold copy_assign. rewrite decide_True by done.
    rewrite (bind_ok _ _ _ _ _ (noexcept_ok _ _ _ _ Hrun1)).
    unfold copy_from.
    rewrite (bind_ok _ _ _ _ _ (begin_list _ _ _ _ Hlo1)).
    by rewrite (bind_ok _ _ _ _ _ (end_list _ _ _ _ Hlo1)).
  - intros x. split.
    + intros Hx. destruct (decide (x ∈ new.*1)) as [?|Hxn]; [by left|]. right.
      destruct (decide (x = s)) as [->|Hxs]; [done|].
      destruct (decide (x ∈ cells.*1)) as [Hxc|Hxc].
      * exfalso. apply live_next in Hx.
        destruct (Ha2 x Hx) as [?|[? Hx1]]; [done|].
        unfold next_of in Hx1. by rewrite (Hin1 x Hxc) in Hx1.
      * split; [|done]. rewrite <- Hsame; [done|set_solver|done].
    + intros [Hx|[Hx Hxc]].
      * apply live_next. apply (ring_live st2 s new); [apply Hl2|by right].
      * destruct (decide (x = s)) as [->|Hxs].
        { apply live_next. apply (ring_live st2 s new); [apply Hl2|by left]. }
        destruct (decide (x ∈ new.*1)) as [?|Hxn].
        { apply live_next. apply (ring_live st2 s new); [apply Hl2|by right]. }
        rewrite Hsame; [done|set_solver|done].
  - intros o Ho. destruct Hfr2 as (_ & Hls2 & _). destruct Hfr1 as (_ & Hls1 & _).
    rewrite Hls2 by done. by apply Hls1.
Qed.

End CopyAssign.

Section Validity.
Context {T : Type} `{!Inhabited T}.
Implicit Types (st : state T) (p q x s this other : ptr) (cells : list (ptr * T)).

Lemma deref_elem st s cells b w :
  ring st s cells → (b, w) ∈ cells → deref (mkIter b s) st = Ok w st.
Proof.
  intros Hr (L1 & L2 & ->)%list_elem_of_split. by apply (deref_cell st s L1 L2).
Qed.

(** An iterator to a released node dangles. *)
Lemma dangling st s a :
  a ≠ s → nodes st !! a = None →
  deref (mkIter a s) st = Undefined ∧ incr (mkIter a s) st = Undefined ∧
  decr (mkIter a s) st = Undefined.
Proof.
  intros Hne Hdead. split_and!.
  - unfold deref. cbn [current_ it_temp_node_]. rewrite decide_False by done.
    by apply load_dead.
  - unfold incr. cbn [current_ it_temp_node_]. rewrite decide_False by done.
    apply bind_undefined. by apply load_dead.
  - unfold decr. cbn [current_ it_temp_node_]. apply bind_undefined. by apply load_dead.
Qed.

(** X16: which iterators a mutation invalidates.  On a well-formed list
    [erase] leaves every iterator to another element dereferencing to the
    value it had, and [end()] where it was; the erased iterator dangles, and
    dereferencing or stepping it is undefined behaviour.  [insert]
    invalidates no iterator.  After [clear()] every element iterator dangles
    and [end()] is still the same position. *)
Theorem X16_iterator_validity st this s cells :
  store_ok st → is_list st this s cells →
  (∀ L1 a v L2 tn, cells = L1 ++ (a, v) :: L2 →
     ∃ it st', erase this (mkIter a tn) st = Ok it st' ∧
       (∀ b w, (b, w) ∈ L1 ++ L2 → deref (mkIter b s) st' = Ok w st') ∧
       deref (mkIter a s) st' = Undefined ∧
       incr (mkIter a s) st' = Undefined ∧
       decr (mkIter a s) st' = Undefined ∧
       end_ this st' = Ok (mkIter s s) st') ∧
  (∀ pos tn v, valid_pos s cells pos → brk st < WORD →
     ∃ it st', insert this (mkIter pos tn) v st = Ok it st' ∧
       (∀ b w, (b, w) ∈ cells → deref (mkIter b s) st' = Ok w st') ∧
       end_ this st' = Ok (mkIter s s) st') ∧
  (∀ fuel, (length cells < fuel)%nat →
     ∃ st', clear fuel this st = Ok () st' ∧
       (∀ b, b ∈ cells.*1 →
          deref (mkIter b s) st' = Undefined ∧ incr (mkIter b s) st' = Undefined ∧
          decr (mkIter b s) st' = Undefined) ∧
       end_ this st' = Ok (mkIter s s) st').
Proof.
  intros Hok Hl. split_and!.
  - intros L1 a v L2 tn ->.
    destruct (erase_list st this s L1 L2 a v tn Hok Hl)
      as (st' & Hrun & _ & _ & Hl' & _ & Hn & _).
    destruct (ring_cell st s L1 L2 a v (proj2 Hl)) as (_ & _ & _ & Has).
    assert (nodes st' !! a = None) as Hdead.
    { apply dead_node. rewrite Hn. by rewrite decide_True. }
    destruct (dangling st' s a Has Hdead) as (? & ? & ?).
    eexists _, st'. split_and!; [done| |done..|by apply (end_list _ _ _ _ Hl')].
    intros b w Hb. by apply (deref_elem st' s (L1 ++ L2)); [apply Hl'|].
  - intros pos tn v Hpos Hroom.
    apply (valid_pos_split s cells pos) in Hpos; [|apply Hl].
    destruct Hpos as (L1 & L2 & -> & ->).
    destruct (emplace_list st this s L1 L2 tn v Hok Hl Hroom)
      as (st' & Hrun & _ & _ & Hl' & _).
    eexists _, st'. split_and!; [done| |by apply (end_list _ _ _ _ Hl')].
    intros b w Hb. apply (deref_elem st' s (L1 ++ (brk st, v) :: L2)); [apply Hl'|].
    set_solver.
  - intros fuel Hfuel.
    destruct (clear_loop_nodes st this s cells fuel Hok Hl Hfuel)
      as (st' & Hrun & _ & _ & Hl' & _ & Hin & _).
    exists st'. split_and!; [by apply noexcept_ok| |by apply (end_list _ _ _ _ Hl')].
    intros b Hb. apply dangling; [|by apply Hin].
    destruct Hl as (_ & Hnd & _). apply NoDup_cons in Hnd as [Hs _]. set_solver.
Qed.

End Validity.

Section InitAssign.
Context {T : Type} `{!Inhabited T}.
Implicit Types (st : state T) (p q x s this other tmp : ptr) (cells : list (ptr * T)).

(** X17: [l = {x1, ..., xn}], which the tests use to fill a list: a
    temporary is constructed from the initializer list, move-assigned to
    [l], and destroyed.  On a well-formed [l], with memory for the new
    nodes, the statement completes; [l] then holds [xs] on new nodes, the
    temporary is gone, every node [l] owned before has been released, and
    no other node and no other list object has changed: the nodes live
    afterwards are the new ring and the nodes live before other than the
    old ring. *)
Theorem X17_assign_from_initializer_list st this tmp s cells (xs : list T) fuel :
  store_ok st → this ≠ tmp → is_list st this s cells → lists st !! tmp = None →
  (length cells < fuel)%nat → brk st + N.of_nat (length xs) + 1 ≤ WORD →
  ∃ st' s' cells',
    assign_from_init fuel this tmp xs st = Ok () st' ∧
    store_ok st' ∧ is_list st' this s' cells' ∧ cells'.*2 = xs ∧
    contents st' this xs ∧
    lists st' = <[this := mkList s' (N.of_nat (length xs))]> (lists st) ∧
    (∀ x, is_Some (nodes st' !! x) ↔
          valid_pos s' cells' x ∨ (is_Some (nodes st !! x) ∧ x ∉ s :: cells.*1)) ∧
    (∀ x, x ∉ s :: cells.*1 → ¬ valid_pos s' cells' x → nodes st' !! x = nodes st !! x).
Proof.
  intros Hok Hne Hl Hnone Hfuel Hroom.
  destruct (CircularList_init_alloc st tmp xs Hok Hroom)
    as (st1 & new & Hrun1 & Hok1 & Hb1 & Hl1 & Hval & Hfr1 & Hfresh & Ha1).
  assert (length new = length xs) as Hlen by by rewrite <- Hval, length_fmap.
  assert (is_list st1 this s cells) as Hl1'.
  { apply (is_list_frame tmp [] st st1); [done|done| |done]. intros x _. apply not_elem_of_nil. }
  assert (apart s cells (brk st) new) as Hap.
  { intros x Hx Hx'. destruct (ring_live st s cells x (proj2 Hl) Hx') as [? E].
    by rewrite (Hfresh x Hx) in E. }
  destruct (move_assign_nodes st1 this tmp s (brk st) cells new fuel Hok1 Hne Hl1' Hl1 Hap Hfuel)
    as (st2 & Hrun2 & Hok2 & Hb2 & Hl2 & Hmv2 & Hn2 & Hls2).
  assert (0 < fuel)%nat as Hpos by lia.
  pose proof (dtor_moved_from st2 tmp fuel Hmv2 Hpos) as Hrun3.
  assert (∀ x, x ∉ s :: cells.*1 → ¬ valid_pos (brk st) new x →
            nodes st2 !! x = nodes st !! x) as Hsame.
  { intros x Hx Hxn. rewrite Hn2, decide_False by done.
    destruct (nodes st !! x) as [n|] eqn:E.
    - rewrite <- E. destruct Hfr1 as (_ & _ & Hsame).
      destruct (Hsame x) as (E1 & E2 & E3);
        [apply live_next; by rewrite E|apply not_elem_of_nil|].
      by apply nodes_views.
    - apply dead_node. destruct (next_of st1 x) eqn:E1; [|done].
      destruct (Ha1 x) as [?|[? Hx1]]; [eauto|done|].
      unfold next_of in Hx1. by rewrite E in Hx1. }
  exists (set_lists (delete tmp) st2), (brk st), new.
  assert (is_list (set_lists (delete tmp) st2) this (brk st) new) as Hl3.
  { split; [|apply ring_set_lists; apply Hl2].
    simpl. rewrite lookup_delete_ne by done. apply Hl2. }
  split_and!.
  - unfold assign_from_init. rewrite (bind_ok _ _ _ _ _ Hrun1).
    by rewrite (bind_ok _ _ _ _ _ Hrun2).
  - apply (store_ok_grow st2); [done|simpl; lia|simpl; apply Hok2|].
    intros a. rewrite next_of_set_lists. by left.
  - done.
  - done.
  - rewrite <- Hval. by apply (contents_list _ _ (brk st)).
  - simpl. apply map_eq. intros o.
    destruct (decide (o = tmp)) as [->|Ho].
    { rewrite lookup_delete_eq. rewrite lookup_insert_ne by done. done. }
    rewrite lookup_delete_ne by done.
    destruct (decide (o = this)) as [->|Ho'].
    { rewrite lookup_insert_eq. rewrite (proj1 Hl2). by rewrite Hlen. }
    rewrite lookup_insert_ne by done. rewrite Hls2 by done.
    destruct Hfr1 as (_ & Hls1 & _). by apply Hls1.
  - intros x. simpl. split.
    + intros Hx. destruct (decide (valid_pos (brk st) new x)) as [?|Hxn]; [by left|].
      right. rewrite Hn2 in Hx.
      destruct (decide (x ∈ s :: cells.*1)) as [?|Hxo]; [by destruct Hx|].
      split; [|done]. rewrite <- (Hsame x Hxo Hxn). rewrite Hn2. by rewrite decide_False.
    + intros [Hx|[Hx Hxo]].
      * rewrite Hn2. rewrite decide_False by (by apply (apart_owned _ _ _ _ _ Hap)).
        apply live_next. by apply (ring_live st1 (brk st) new); [apply Hl1|].
      * destruct (decide (valid_pos (brk st) new x)) as [Hxn|Hxn].
        { rewrite Hn2. rewrite decide_False by done.
          apply live_next. by apply (ring_live st1 (brk st) new); [apply Hl1|]. }
        by rewrite (Hsame x Hxo Hxn).
  - intros x Hxo Hxn. simpl. by apply Hsame.
Qed.

End InitAssign.

Section PostStep.
Context {T : Type} `{!Inhabited T}.
Implicit Types (st : state T) (p q x s this other : ptr) (cells : list (ptr * T)).

(** X18: member access and the post-step operators on a well-formed list.
    At the element of index [i], [operator->] yields the address of the value
    that [operator*] reads; [it++] returns a copy at index [i] and leaves the
    iterator at index [i + 1], or at [end()] after the last element; [it--]
    returns a copy at index [i] and leaves the iterator at index [i - 1], or
    at the last element when [i] is 0.  At [end()], [operator->] and [it++]
    throw [out_of_range], and [it--] returns [end()] and leaves the iterator
    at the last element. *)
Theorem X18_post_step_and_arrow st this s cells :
  is_list st this s cells →
  (∀ i a v, cells !! i = Some (a, v) →
     arrow (mkIter a s) st = Ok a st ∧
     value_of st a = Some v ∧
     deref (mkIter a s) st = Ok v st ∧
     post_incr (mkIter a s) st =
       Ok (mkIter a s, mkIter (first_or s (drop (S i) cells).*1) s) st ∧
     post_decr (mkIter a s) st =
       Ok (mkIter a s,
           mkIter (match i with
                   | O => last_or s cells.*1
                   | S j => first_or s (drop j cells).*1
                   end) s) st) ∧
  arrow (mkIter s s) st = Throw out_of_range st ∧
  post_incr (mkIter s s) st = Throw out_of_range st ∧
  post_decr (mkIter s s) st = Ok (mkIter s s, mkIter (last_or s cells.*1) s) st.
Proof.
  intros Hl. pose proof (proj2 Hl) as Hr. split_and!.
  - intros i a v Hi.
    assert (cells = take i cells ++ (a, v) :: drop (S i) cells) as E
      by by rewrite <- (drop_S _ _ _ Hi), take_drop.
    assert (ring st s (take i cells ++ (a, v) :: drop (S i) cells)) as Hr'
      by by rewrite <- E.
    destruct (ring_cell _ _ _ _ _ _ Hr') as (Hn & Hp & Hv & Has).
    pose proof (deref_cell _ _ _ _ _ _ Hr') as Hd.
    split_and!; [|done|done| |].
    + unfold arrow. cbn [current_ it_temp_node_]. rewrite decide_False by done.
      by rewrite (bind_ok _ _ _ _ _ (load_value_view _ _ _ Hv)).
    + unfold post_incr. by rewrite (bind_ok _ _ _ _ _ (incr_cell _ _ _ _ _ _ Hr')).
    + unfold post_decr.
      pose proof (decr_pos st s (take i cells) ((a, v) :: drop (S i) cells) Hr') as Hdec.
      change (first_or s ((a, v) :: drop (S i) cells).*1) with a in Hdec.
      rewrite (bind_ok _ _ _ _ _ Hdec). unfold ret. do 3 f_equal.
      destruct i as [|j].
      * rewrite decide_True by done. by rewrite <- E.
      * rewrite decide_False.
        2:{ intros Hnil. by destruct cells. }
        assert (is_Some (cells !! j)) as [[b w] Hj].
        { apply lookup_lt_is_Some. apply lookup_lt_Some in Hi. lia. }
        rewrite (drop_S _ _ _ Hj). rewrite (take_S_r _ _ _ Hj).
        by rewrite last_or_fmap_snoc.
  - unfold arrow. cbn [current_ it_temp_node_]. by rewrite decide_True.
  - unfold post_incr. by rewrite (bind_throw _ _ _ _ _ (incr_end st s)).
  - unfold post_decr.
    pose proof (decr_pos st s cells []) as Hdec. rewrite app_nil_r in Hdec.
    specialize (Hdec Hr).
    change (first_or s ([] : list (ptr * T)).*1) with s in Hdec.
    rewrite (bind_ok _ _ _ _ _ Hdec). unfold ret. do 3 f_equal.
    by case_decide.
Qed.

End PostStep.

(** ** Every list object stays settled *)

Section HeapFrame.
Context {T : Type} `{!Inhabited T}.
Implicit Types (st : state T) (p q x s this other : ptr) (cells : list (ptr * T)).

Lemma is_list_unique st this s s' c1 c2 :
  is_list st this s c1 → is_list st this s' c2 → s = s' ∧ c1 = c2.
Proof.
  intros [Hl1 Hr1] [Hl2 Hr2]. rewrite Hl1 in Hl2. injection Hl2 as <- _.
  split; [done|]. by apply (ring_unique st s).
Qed.

Lemma is_list_not_moved st this s cells :
  store_ok st → is_list st this s cells → ¬ moved_from st this.
Proof.
  intros Hok [Hl Hr] Hmv. unfold moved_from in Hmv. rewrite Hl in Hmv.
  injection Hmv as -> _.
  assert (is_Some (next_of st nullptr)) as Hlive
    by (apply (ring_live st nullptr cells); [done|by left]).
  apply live_next in Hlive. rewrite (null_dead st Hok) in Hlive. by destruct Hlive.
Qed.

(** A call that changes the list objects [S] and only nodes [O] of their
    rings leaves every other list as it is. *)
Lemma heap_ok_frame st st' (S O : list ptr) :
  heap_ok st → store_ok st' →
  (∀ o, o ∉ S → lists st' !! o = lists st !! o) →
  (∀ x, is_Some (next_of st x) → x ∉ O →
        next_of st' x = next_of st x ∧ prev_of st' x = prev_of st x ∧
        value_of st' x = value_of st x) →
  (∀ x, x ∈ O → ∃ o s cells, o ∈ S ∧ is_list st o s cells ∧ valid_pos s cells x) →
  (∀ o, o ∈ S → is_Some (lists st' !! o) → settled st' o) →
  (∀ o s cells x, o ∈ S → is_list st' o s cells → valid_pos s cells x →
     next_of st x = None ∨
     ∃ o' s' cells', o' ∈ S ∧ is_list st o' s' cells' ∧ valid_pos s' cells' x) →
  (∀ o1 o2 s1 s2 c1 c2, o1 ∈ S → o2 ∈ S → o1 ≠ o2 →
     is_list st' o1 s1 c1 → is_list st' o2 s2 c2 → apart s1 c1 s2 c2) →
  heap_ok st' ∧ (∀ o, o ∉ S → ring_invariant st o → ring_invariant st' o).
Proof.
  intros (Hok & Hset & Hap) Hok' Hlists Hnodes HO HS Hnew HapS.
  assert (∀ o s cells, o ∉ S → is_list st o s cells → is_list st' o s cells) as Hfwd.
  { intros o s cells Ho [Hl Hr]. split; [by rewrite Hlists|].
    apply (ring_frame st); [done|]. intros x Hx. apply Hnodes.
    - by apply (ring_live st s cells).
    - intros (o' & s' & cells' & Ho' & Hl' & Hx')%HO.
      assert (o' ≠ o) as Hne by (intros ->; done).
      by apply (Hap o' o s' s cells' cells Hne Hl' (conj Hl Hr) x). }
  assert (∀ o s cells, o ∉ S → is_list st' o s cells → is_list st o s cells) as Hbwd.
  { intros o s cells Ho Hl'.
    assert (is_Some (lists st !! o)) as Hex.
    { rewrite <- Hlists by done. rewrite (proj1 Hl'). eauto. }
    destruct (Hset o Hex) as [(s0 & c0 & Hl0)|Hmv].
    - destruct (is_list_unique st' o s0 s c0 cells (Hfwd _ _ _ Ho Hl0) Hl') as [-> ->]. done.
    - exfalso. apply (is_list_not_moved st' o s cells Hok' Hl').
      unfold moved_from in *. by rewrite Hlists. }
  split; [|intros o Ho (s & cells & Hl); exists s, cells; by apply Hfwd].
  split_and!; [done| |].
  - intros o Hex. destruct (decide (o ∈ S)) as [Ho|Ho]; [by apply HS|].
    rewrite Hlists in Hex by done.
    destruct (Hset o Hex) as [(s0 & c0 & Hl0)|Hmv].
    + left. exists s0, c0. by apply Hfwd.
    + right. unfold moved_from in *. by rewrite Hlists.
  - intros o1 o2 s1 s2 c1 c2 Hne Hl1 Hl2.
    destruct (decide (o1 ∈ S)) as [Ho1|Ho1], (decide (o2 ∈ S)) as [Ho2|Ho2].
    + by apply (HapS o1 o2).
    + apply Hbwd in Hl2; [|done]. intros x Hx2 Hx1.
      destruct (Hnew o1 s1 c1 x Ho1 Hl1 Hx1) as [Hdead|(o' & s' & c' & Ho' & Hl' & Hx')].
      * destruct (ring_live st s2 c2 x (proj2 Hl2) Hx2) as [? E]. congruence.
      * assert (o' ≠ o2) as Hne' by (intros ->; done).
        by apply (Hap o' o2 s' s2 c' c2 Hne' Hl' Hl2 x).
    + apply Hbwd in Hl1; [|done]. intros x Hx2 Hx1.
      destruct (Hnew o2 s2 c2 x Ho2 Hl2 Hx2) as [Hdead|(o' & s' & c' & Ho' & Hl' & Hx')].
      * destruct (ring_live st s1 c1 x (proj2 Hl1) Hx1) as [? E]. congruence.
      * assert (o1 ≠ o') as Hne' by (intros ->; done).
        by apply (Hap o1 o' s1 s' c1 c' Hne' Hl1 Hl' x).
    + apply Hbwd in Hl1; [|done]. apply Hbwd in Hl2; [|done].
      by apply (Hap o1 o2).
Qed.

End HeapFrame.

Section MemberCalls.
Context {T : Type} `{!Inhabited T}.
Implicit Types (st : state T) (p q x s this other : ptr) (cells : list (ptr * T)).

Lemma returns_ok (c : call T) st st1 st' :
  run_call c st = Ok () st1 → returns c st st' → st' = st1.
Proof. intros Hrun [Hr|[e Hr]]; rewrite Hrun in Hr; by simplify_eq. Qed.

Lemma returns_throw (c : call T) st e st1 st' :
  run_call c st = Throw e st1 → returns c st st' → st' = st1.
Proof. intros Hrun [Hr|[e' Hr]]; rewrite Hrun in Hr; by simplify_eq. Qed.

Lemma returns_undefined (c : call T) st st' :
  run_call c st = Undefined → ¬ returns c st st'.
Proof. intros Hrun [Hr|[e' Hr]]; rewrite Hrun in Hr; by simplify_eq. Qed.

Lemma reach_null st x : store_ok st → reach st nullptr x → x = nullptr.
Proof.
  intros Hok. pose proof (null_dead st Hok) as Hnull.
  induction 1 as [|b c _ -> Hn|b c _ -> Hp]; [done|..].
  - unfold next_of in Hn. by rewrite Hnull in Hn.
  - unfold prev_of in Hp. by rewrite Hnull in Hp.
Qed.

(** Members of a moved-from object: each one answers, throws with the state
    unchanged, or dereferences the null sentinel pointer. *)
Lemma begin_moved st this : store_ok st → moved_from st this → begin this st = Undefined.
Proof.
  intros Hok Hmv. unfold begin, noexcept.
  rewrite (bind_ok _ _ _ _ _ (get_temp_node_ok _ _ _ Hmv)). simpl.
  by rewrite (bind_undefined _ _ _ (load_dead _ _ _ (null_dead st Hok))).
Qed.

Lemma emplace_moved st this tn (v : T) :
  store_ok st →
  emplace this (mkIter nullptr tn) v st = Undefined ∨
  emplace this (mkIter nullptr tn) v st = Throw bad_alloc st.
Proof.
  intros Hok. destruct (decide (brk st < WORD)) as [Hroom|Hfull].
  - left. unfold emplace.
    rewrite (bind_ok _ _ _ _ _ (new_Node_ok _ _ Hroom)). simpl.
    erewrite bind_ok; [|apply store_next_view; views].
    apply bind_undefined. apply load_dead. simpl.
    pose proof (null_dead st Hok) as Hnull.
    destruct Hok as (Hpos & _). unfold nullptr in *.
    rewrite lookup_alter_ne by lia. by rewrite lookup_insert_ne by lia.
  - right. by apply emplace_bad_alloc.
Qed.

Lemma clear_moved st this fuel :
  moved_from st this → (0 < fuel)%nat → clear fuel this st = Ok () st.
Proof.
  intros Hmv Hfuel. destruct fuel as [|fuel]; [lia|]. apply noexcept_ok. simpl.
  by rewrite (bind_ok _ _ _ _ _ (empty_ok _ _ _ Hmv)).
Qed.

Lemma run_op_moved st st' this (o : op T) :
  store_ok st → moved_from st this → op_pre st this o →
  returns (Member this o) st st' → st' = st.
Proof.
  intros Hok Hmv Hpre Hret. pose proof Hmv as Hmv'. unfold moved_from in Hmv'.
  pose proof (null_dead st Hok) as Hnull.
  assert (empty this st = Ok true st) as Hempty by apply (empty_ok _ _ _ Hmv').
  pose proof (begin_moved st this Hok Hmv) as Hbegin.
  assert (∀ pos, iter_of st this pos → pos = mkIter nullptr nullptr) as Hit.
  { intros [c tn] (l & Hl & Htn & Hreach). simpl in *. rewrite Hmv' in Hl.
    injection Hl as <-. simpl in *. subst tn. f_equal. by apply (reach_null st). }
  assert (∀ (m : M T unit), m st = Undefined → run_call (Member this o) st = m st → st' = st)
    as Hundef.
  { intros m Hm E. exfalso. apply (returns_undefined (Member this o) st st'); [|done]. by rewrite E. }
  assert (∀ (m : M T unit) e, m st = Throw e st → run_call (Member this o) st = m st → st' = st)
    as Hthrow.
  { intros m e Hm E. apply (returns_throw (Member this o) st e st st'); [|done]. by rewrite E. }
  assert (∀ (m : M T unit), m st = Ok () st → run_call (Member this o) st = m st → st' = st)
    as Hdone.
  { intros m Hm E. apply (returns_ok (Member this o) st st st'); [|done]. by rewrite E. }
  destruct o as [v|v|pos v|pos v|pos| | |fuel|pos v| | | | | | | | ]; cbn [op_pre] in Hpre.
  - assert (push_back this v st = Undefined ∨ push_back this v st = Throw bad_alloc st) as [E|E].
    { unfold push_back, insert. rewrite (bind_ok _ _ _ _ _ (end_ok _ _ _ Hmv')). simpl.
      destruct (emplace_moved st this nullptr v Hok) as [E|E].
      - left. by rewrite (bind_undefined _ _ _ E).
      - right. by rewrite (bind_throw _ _ _ _ _ E). }
    + by apply (Hundef (push_back this v)).
    + by apply (Hthrow (push_back this v) bad_alloc).
  - apply (Hundef (push_front this v)); [|done].
    unfold push_front. by rewrite (bind_undefined _ _ _ Hbegin).
  - rewrite (Hit pos Hpre) in *.
    destruct (emplace_moved st this nullptr v Hok) as [E|E].
    + apply (Hundef (run_op this (Emplace (mkIter nullptr nullptr) v))); [|done].
      cbn [run_op]. by rewrite (bind_undefined _ _ _ E).
    + apply (Hthrow (run_op this (Emplace (mkIter nullptr nullptr) v)) bad_alloc); [|done].
      cbn [run_op]. by rewrite (bind_throw _ _ _ _ _ E).
  - rewrite (Hit pos Hpre) in *.
    destruct (emplace_moved st this nullptr v Hok) as [E|E].
    + apply (Hundef (run_op this (Insert (mkIter nullptr nullptr) v))); [|done].
      cbn [run_op]. unfold insert. by rewrite (bind_undefined _ _ _ E).
    + apply (Hthrow (run_op this (Insert (mkIter nullptr nullptr) v)) bad_alloc); [|done].
      cbn [run_op]. unfold insert. by rewrite (bind_throw _ _ _ _ _ E).
  - apply (Hthrow (run_op this (Erase pos)) out_of_range); [|done].
    cbn [run_op]. apply bind_throw. unfold erase. by rewrite (bind_ok _ _ _ _ _ Hempty).
  - apply (Hundef (pop_front this)); [|done].
    unfold pop_front. by rewrite (bind_undefined _ _ _ Hbegin).
  - apply (Hundef (pop_back this)); [|done].
    unfold pop_back. rewrite (bind_ok _ _ _ _ _ (end_ok _ _ _ Hmv')). simpl.
    apply bind_undefined. unfold decr. simpl.
    by rewrite (bind_undefined _ _ _ (load_dead _ _ _ Hnull)).
  - apply (Hdone (clear fuel this)); [|done].
    destruct Hpre as (l & Hl & Hfuel). apply clear_moved; [done|lia].
  - rewrite (Hit pos Hpre) in *.
    apply (Hthrow (assign (mkIter nullptr nullptr) v) out_of_range); [|done].
    apply assign_end.
  - apply (Hthrow (run_op this Front) out_of_range); [|done].
    cbn [run_op]. apply bind_throw. unfold front. by rewrite (bind_ok _ _ _ _ _ Hempty).
  - apply (Hthrow (run_op this Back) out_of_range); [|done].
    cbn [run_op]. apply bind_throw. unfold back. by rewrite (bind_ok _ _ _ _ _ Hempty).
  - apply (Hdone (run_op this Size)); [|done].
    cbn [run_op]. unfold size. by rewrite (bind_ok _ _ _ _ _ (get_size_ok _ _ _ Hmv')).
  - apply (Hdone (run_op this Empty)); [|done].
    cbn [run_op]. by rewrite (bind_ok _ _ _ _ _ Hempty).
  - apply (Hundef (run_op this Begin)); [|done].
    cbn [run_op]. by rewrite (bind_undefined _ _ _ Hbegin).
  - apply (Hdone (run_op this End)); [|done].
    cbn [run_op]. by rewrite (bind_ok _ _ _ _ _ (end_ok _ _ _ Hmv')).
  - apply (Hdone (run_op this RBegin)); [|done].
    cbn [run_op]. unfold rbegin. erewrite bind_ok; [done|]. apply noexcept_ok.
    by rewrite (bind_ok _ _ _ _ _ (end_ok _ _ _ Hmv')).
  - apply (Hundef (run_op this REnd)); [|done].
    cbn [run_op]. apply bind_undefined. unfold rend, noexcept.
    by rewrite (bind_undefined _ _ _ Hbegin).
Qed.

Lemma same_status_refl st : same_status st st.
Proof. by intros o. Qed.

Lemma same_status_trans st st1 st2 :
  same_status st st1 → same_status st1 st2 → same_status st st2.
Proof. intros H1 H2 o. destruct (H1 o), (H2 o). split; eauto. Qed.

Lemma settled_exists st o : settled st o → is_Some (lists st !! o).
Proof.
  intros [(s & cells & Hl & _)|Hmv]; [by rewrite Hl|].
  unfold moved_from in Hmv. by rewrite Hmv.
Qed.

(** A member call on a list of a settled heap. *)
Lemma member_step st st' this (o : op T) :
  heap_ok st → call_pre st (Member this o) → returns (Member this o) st st' →
  heap_ok st' ∧ same_status st st'.
Proof.
  intros Hheap [Hex Hpre] Hret. pose proof Hheap as (Hok & Hset & Hap).
  destruct (Hset this Hex) as [(s & cells & Hl)|Hmv].
  2:{ rewrite (run_op_moved st st' this o Hok Hmv Hpre Hret).
      split; [done|apply same_status_refl]. }
  destruct (run_op_list st this s cells o Hok Hl Hpre)
    as [(st1 & cells1 & Hrun & Hok1 & Hl1 & Hfr & Hnew)|(e & Hrun)].
  2:{ rewrite (returns_throw (Member this o) st e st st' Hrun Hret).
      split; [done|apply same_status_refl]. }
  rewrite (returns_ok (Member this o) st st1 st' Hrun Hret).
  destruct Hfr as (_ & Hlists & Hnodes).
  destruct (heap_ok_frame st st1 [this] (s :: cells.*1)) as [Hheap1 Hby]; try done.
  - intros o' Ho'. apply Hlists. set_solver.
  - intros x Hx. exists this, s, cells. split_and!; [set_solver|done|].
    apply elem_of_cons in Hx as [->|Hx]; [by left|by right].
  - intros o' ->%list_elem_of_singleton _. left. by exists s, cells1.
  - intros o' s' cells' x ->%list_elem_of_singleton Hl' Hx.
    destruct (is_list_unique _ _ _ _ _ _ Hl' Hl1) as [-> ->].
    destruct (Hnew x Hx) as [?|?]; [|by left].
    right. exists this, s, cells. split_and!; [set_solver|done|done].
  - intros o1 o2 ? ? ? ? ->%list_elem_of_singleton ->%list_elem_of_singleton. done.
  - split; [done|]. intros o'. split.
    + intros Hinv. destruct (decide (o' = this)) as [->|Hne]; [by exists s, cells1|].
      apply Hby; [set_solver|done].
    + intros Hmv. assert (o' ≠ this) as Hne.
      { intros ->. by apply (is_list_not_moved st this s cells). }
      unfold moved_from in *. by rewrite Hlists.
Qed.

End MemberCalls.

Section CopyCalls.
Context {T : Type} `{!Inhabited T}.
Implicit Types (st : state T) (p q x s this other : ptr) (cells : list (ptr * T)).

Lemma lands_bind {A} (m : M T A) (k : A → M T unit) st st' :
  lands (bind m k) st st' →
  (∃ a st1, m st = Ok a st1 ∧ lands (k a) st1 st') ∨ (∃ e, m st = Throw e st').
Proof.
  unfold lands, bind. destruct (m st) as [a st1|e st1| | |] eqn:E.
  - intros H. left. by exists a, st1.
  - intros [?|[e' ?]]; simplify_eq. right. by exists e'.
  - by intros [?|[? ?]].
  - by intros [?|[? ?]].
  - by intros [?|[? ?]].
Qed.

Lemma lands_ret st st' : lands (ret (T:=T) ()) st st' → st' = st.
Proof. unfold lands, ret. intros [?|[? ?]]; by simplify_eq. Qed.

(** Reading through an iterator or taking [begin()] or [end()] changes
    nothing. *)
Lemma deref_reads it st (v : T) st' : deref it st = Ok v st' → st' = st.
Proof.
  unfold deref. case_decide; [done|]. unfold load.
  destruct (nodes st !! current_ it); [|done]. intros ?. by simplify_eq.
Qed.

Lemma deref_throws it st e st' : deref (T:=T) it st = Throw e st' → st' = st.
Proof.
  unfold deref. case_decide; [unfold throw; intros ?; by simplify_eq|]. unfold load.
  by destruct (nodes st !! current_ it).
Qed.

Lemma incr_reads it st it' st' : incr (T:=T) it st = Ok it' st' → st' = st.
Proof.
  unfold incr. case_decide; [done|]. unfold bind, load, ret.
  destruct (nodes st !! current_ it); [|done]. intros ?. by simplify_eq.
Qed.

Lemma incr_throws it st e st' : incr (T:=T) it st = Throw e st' → st' = st.
Proof.
  unfold incr. case_decide; [unfold throw; intros ?; by simplify_eq|].
  unfold bind, load, ret. by destruct (nodes st !! current_ it).
Qed.

Lemma begin_reads this st b st' : begin (T:=T) this st = Ok b st' → st' = st.
Proof.
  unfold begin, noexcept, bind, get_temp_node, load, ret.
  destruct (lists st !! this) as [l|] eqn:E; simpl; [|done].
  destruct (nodes st !! temp_node_ l); simpl; [|done]. rewrite E. simpl.
  intros ?. by simplify_eq.
Qed.

Lemma begin_no_throw this st e st' : begin (T:=T) this st ≠ Throw e st'.
Proof. unfold begin, noexcept. by destruct (bind _ _ st). Qed.

Lemma end_reads this st b st' : end_ (T:=T) this st = Ok b st' → st' = st.
Proof.
  unfold end_, noexcept, bind, get_temp_node, ret.
  destruct (lists st !! this) as [l|] eqn:E; simpl; [|done]. rewrite ?E. simpl.
  intros ?. by simplify_eq.
Qed.

Lemma end_no_throw this st e st' : end_ (T:=T) this st ≠ Throw e st'.
Proof. unfold end_, noexcept. by destruct (bind _ _ st). Qed.

Lemma same_status_settled st st' o :
  same_status st st' → settled st o → settled st' o.
Proof. intros Hs [?|?]; [left|right]; by apply Hs. Qed.

(** The copy loop is a sequence of [push_back] calls on the destination. *)
Lemma copy_loop_heap fuel this it e st st' :
  heap_ok st → is_Some (lists st !! this) →
  lands (copy_loop fuel this it e) st st' →
  heap_ok st' ∧ same_status st st'.
Proof.
  revert st it. induction fuel as [|fuel IH]; intros st it Hheap Hex Hrun.
  { by destruct Hrun as [?|[? ?]]. }
  cbn [copy_loop] in Hrun. destruct (iter_ne it e).
  2:{ apply lands_ret in Hrun as ->. split; [done|apply same_status_refl]. }
  apply lands_bind in Hrun as [(v & st0 & Hd & Hrun)|(ex & Hd)].
  2:{ apply deref_throws in Hd as ->. split; [done|apply same_status_refl]. }
  apply deref_reads in Hd as ->.
  assert (∀ st1, lands (push_back this v) st st1 → heap_ok st1 ∧ same_status st st1) as Hpush.
  { intros st1 H1. by apply (member_step st st1 this (PushBack v)). }
  apply lands_bind in Hrun as [([] & st1 & Hp & Hrun)|(ex & Hp)].
  2:{ apply Hpush. right. by exists ex. }
  destruct (Hpush st1) as [Hheap1 Hs1]; [by left|].
  assert (is_Some (lists st1 !! this)) as Hex1.
  { apply settled_exists. apply (same_status_settled st); [done|]. by apply Hheap. }
  apply lands_bind in Hrun as [(it' & st2 & Hi & Hrun)|(ex & Hi)].
  2:{ apply incr_throws in Hi as ->. done. }
  apply incr_reads in Hi as ->.
  destruct (IH st1 it' Hheap1 Hex1 Hrun) as [Hheap2 Hs2].
  split; [done|]. by apply (same_status_trans st st1).
Qed.

Lemma copy_from_heap fuel this other st st' :
  heap_ok st → is_Some (lists st !! this) →
  lands (copy_from fuel this other) st st' →
  heap_ok st' ∧ same_status st st'.
Proof.
  intros Hheap Hex Hrun. unfold copy_from in Hrun.
  apply lands_bind in Hrun as [(b & st0 & Hb & Hrun)|(ex & Hb)];
    [|by apply begin_no_throw in Hb].
  apply begin_reads in Hb as ->.
  apply lands_bind in Hrun as [(e & st0 & He & Hrun)|(ex & He)];
    [|by apply end_no_throw in He].
  apply end_reads in He as ->.
  by apply (copy_loop_heap fuel this b e).
Qed.

(** Copy assignment, whether it completes or runs out of memory on the
    way. *)
Lemma copy_assign_step fuel this other st st' :
  heap_ok st → call_pre st (CopyAssign fuel this other) →
  returns (CopyAssign fuel this other) st st' →
  heap_ok st' ∧ same_status st st'.
Proof.
  intros Hheap [Hfuel Hexo] Hrun. unfold returns in Hrun. cbn [run_call] in Hrun.
  unfold copy_assign in Hrun. case_decide.
  2:{ apply lands_ret in Hrun as ->. split; [done|apply same_status_refl]. }
  assert (is_Some (lists st !! this)) as Hex by (destruct Hfuel as (l & -> & _); eauto).
  assert (∀ st1, lands (clear fuel this) st st1 → heap_ok st1 ∧ same_status st st1) as Hclear.
  { intros st1 H1. by apply (member_step st st1 this (Clear fuel)). }
  apply lands_bind in Hrun as [([] & st1 & Hc & Hrun)|(ex & Hc)].
  2:{ apply Hclear. right. by exists ex. }
  destruct (Hclear st1) as [Hheap1 Hs1]; [by left|].
  assert (is_Some (lists st1 !! this)) as Hex1.
  { apply settled_exists. apply (same_status_settled st); [done|]. by apply Hheap. }
  destruct (copy_from_heap fuel this other st1 st' Hheap1 Hex1 Hrun) as [Hheap2 Hs2].
  split; [done|]. by apply (same_status_trans st st1).
Qed.

End CopyCalls.

Section Lifetimes.
Context {T : Type} `{!Inhabited T}.
Implicit Types (st : state T) (p q x s this other : ptr) (cells : list (ptr * T)).

Lemma lands_ok (m : M T unit) st st1 st' : m st = Ok () st1 → lands m st st' → st' = st1.
Proof. intros Hrun [Hr|[e Hr]]; rewrite Hrun in Hr; by simplify_eq. Qed.

Lemma lands_throw (m : M T unit) st e st1 st' :
  m st = Throw e st1 → lands m st st' → st' = st1.
Proof. intros Hrun [Hr|[e' Hr]]; rewrite Hrun in Hr; by simplify_eq. Qed.

Lemma nodes_same_views st st' x :
  nodes st' !! x = nodes st !! x →
  next_of st' x = next_of st x ∧ prev_of st' x = prev_of st x ∧
  value_of st' x = value_of st x.
Proof. unfold next_of, prev_of, value_of. by intros ->. Qed.

(** With fewer rounds than elements the model of [clear()] does not get to
    the end of the loop. *)
Lemma clear_loop_short st this s cells fuel :
  store_ok st → is_list st this s cells → (fuel ≤ length cells)%nat →
  clear_loop fuel this st = OutOfFuel.
Proof.
  revert st cells. induction fuel as [|fuel IH]; intros st cells Hok Hl Hfuel; [done|].
  destruct cells as [|[a v] cells]; [simpl in Hfuel; lia|].
  destruct (pop_front_list st this s a v cells Hok Hl) as (st1 & Hrun & Hok1 & _ & Hl1 & _).
  cbn [clear_loop]. rewrite (bind_ok _ _ _ _ _ (empty_list _ _ _ _ Hl)).
  rewrite bool_decide_eq_false_2 by done.
  rewrite (bind_ok _ _ _ _ _ Hrun). apply (IH st1 cells); [done|done|].
  simpl in Hfuel. lia.
Qed.

(** The destructor of a settled list. *)
Lemma dtor_lands st st' this fuel :
  heap_ok st → is_Some (lists st !! this) →
  lands (CircularList_dtor fuel this) st st' →
  heap_ok st' ∧ lists st' !! this = None ∧
  (∀ o, o ≠ this → (ring_invariant st o → ring_invariant st' o) ∧
                   (moved_from st o → moved_from st' o)).
Proof.
  intros Hheap Hex Hrun. pose proof Hheap as (Hok & Hset & Hap).
  destruct (Hset this Hex) as [(s & cells & Hl)|Hmv].
  - destruct (decide (length cells < fuel)%nat) as [Hfuel|Hfuel].
    2:{ exfalso. assert (CircularList_dtor fuel this st = OutOfFuel) as E.
        { unfold CircularList_dtor, clear, bind, noexcept.
          by rewrite (clear_loop_short st this s cells fuel Hok Hl) by lia. }
        destruct Hrun as [Hr|[e Hr]]; by rewrite E in Hr. }
    destruct (CircularList_dtor_list st this s cells fuel Hok Hl Hfuel)
      as (st1 & Hrun1 & Hok1 & _ & Hls & Hn).
    rewrite (lands_ok _ _ _ _ Hrun1 Hrun).
    assert (∀ o, o ≠ this → lists st1 !! o = lists st !! o) as Hsame.
    { intros o Ho. rewrite Hls. by rewrite lookup_delete_ne. }
    assert (lists st1 !! this = None) as Hnone by (rewrite Hls; apply lookup_delete_eq).
    destruct (heap_ok_frame st st1 [this] (s :: cells.*1)) as [Hheap1 Hby]; try done.
    + intros o Ho. apply Hsame. set_solver.
    + intros x _ Hx. apply nodes_same_views. rewrite Hn. by rewrite decide_False.
    + intros x Hx. exists this, s, cells. split_and!; [set_solver|done|].
      apply elem_of_cons in Hx as [->|Hx]; [by left|by right].
    + intros o ->%list_elem_of_singleton Hex1. rewrite Hnone in Hex1. by destruct Hex1.
    + intros o s' cells' x ->%list_elem_of_singleton [Hl' _]. by rewrite Hnone in Hl'.
    + intros o1 o2 ? ? ? ? ->%list_elem_of_singleton ->%list_elem_of_singleton. done.
    + split_and!; [done..|]. intros o Ho. split.
      * apply Hby. set_solver.
      * unfold moved_from. by rewrite Hsame.
  - destruct (decide (0 < fuel)%nat) as [Hfuel|Hfuel].
    2:{ exfalso. assert (fuel = 0%nat) as -> by lia.
        destruct Hrun as [Hr|[e Hr]]; by vm_compute in Hr. }
    rewrite (lands_ok _ _ _ _ (dtor_moved_from st this fuel Hmv Hfuel) Hrun).
    assert (∀ o, o ≠ this → lists (set_lists (delete this) st) !! o = lists st !! o) as Hsame.
    { intros o Ho. simpl. by rewrite lookup_delete_ne. }
    assert (lists (set_lists (delete this) st) !! this = None) as Hnone
      by (simpl; apply lookup_delete_eq).
    destruct (heap_ok_frame st (set_lists (delete this) st) [this] []) as [Hheap1 Hby];
      try done.
    + intros o Ho. apply Hsame. set_solver.
    + intros x Hx. by apply elem_of_nil in Hx.
    + intros o ->%list_elem_of_singleton Hex1. rewrite Hnone in Hex1. by destruct Hex1.
    + intros o s' cells' x ->%list_elem_of_singleton [Hl' _]. by rewrite Hnone in Hl'.
    + intros o1 o2 ? ? ? ? ->%list_elem_of_singleton ->%list_elem_of_singleton. done.
    + split_and!; [done..|]. intros o Ho. split.
      * apply Hby. set_solver.
      * unfold moved_from. by rewrite Hsame.
Qed.

(** The default constructor in storage that holds no list. *)
Lemma default_lands st st' this :
  heap_ok st → lists st !! this = None →
  lands (CircularList_default this) st st' →
  heap_ok st' ∧ same_status st st' ∧
  (CircularList_default this st = Ok () st' → ring_invariant st' this).
Proof.
  intros Hheap Hnone Hrun. pose proof Hheap as (Hok & Hset & Hap).
  destruct (decide (brk st < WORD)) as [Hroom|Hfull].
  2:{ pose proof (CircularList_default_bad_alloc st this Hfull) as E.
      rewrite (lands_throw _ _ _ _ _ E Hrun). split_and!; [done|apply same_status_refl|].
      by rewrite E. }
  destruct (CircularList_default_list st this Hok Hroom)
    as (st1 & Hrun1 & Hok1 & _ & Hl1 & (_ & Hlists & Hnodes)).
  rewrite (lands_ok _ _ _ _ Hrun1 Hrun).
  destruct (heap_ok_frame st st1 [this] []) as [Hheap1 Hby]; try done.
  - intros o Ho. apply Hlists. set_solver.
  - intros x Hx. by apply elem_of_nil in Hx.
  - intros o ->%list_elem_of_singleton _. left. by exists (brk st), [].
  - intros o s' cells' x ->%list_elem_of_singleton Hl' Hx.
    destruct (is_list_unique _ _ _ _ _ _ Hl' Hl1) as [-> ->].
    left. destruct Hx as [->|Hx]; [by apply store_ok_fresh|by apply elem_of_nil in Hx].
  - intros o1 o2 ? ? ? ? ->%list_elem_of_singleton ->%list_elem_of_singleton. done.
  - assert (∀ o, is_Some (lists st !! o) → o ≠ this) as Hne.
    { intros o Ho ->. rewrite Hnone in Ho. by destruct Ho. }
    split_and!; [done| |intros _; by exists (brk st), []].
    intros o. split.
    + intros Hinv. apply Hby; [|done].
      assert (o ≠ this) by (apply Hne, settled_exists; by left). set_solver.
    + intros Hmv. assert (o ≠ this) by (apply Hne, settled_exists; by right).
      unfold moved_from in *. by rewrite Hlists.
Qed.

Lemma push_back_each_heap this items st st' :
  heap_ok st → is_Some (lists st !! this) →
  lands (push_back_each this items) st st' →
  heap_ok st' ∧ same_status st st'.
Proof.
  revert st. induction items as [|v items IH]; intros st Hheap Hex Hrun.
  { apply lands_ret in Hrun as ->. split; [done|apply same_status_refl]. }
  cbn [push_back_each] in Hrun.
  assert (∀ st1, lands (push_back this v) st st1 → heap_ok st1 ∧ same_status st st1) as Hpush.
  { intros st1 H1. by apply (member_step st st1 this (PushBack v)). }
  apply lands_bind in Hrun as [([] & st1 & Hp & Hrun)|(ex & Hp)].
  2:{ apply Hpush. right. by exists ex. }
  destruct (Hpush st1) as [Hheap1 Hs1]; [by left|].
  assert (is_Some (lists st1 !! this)) as Hex1.
  { apply settled_exists. apply (same_status_settled st); [done|]. by apply Hheap. }
  destruct (IH st1 Hheap1 Hex1 Hrun) as [Hheap2 Hs2].
  split; [done|]. by apply (same_status_trans st st1).
Qed.

Lemma lands_unwind (cleanup body : M T unit) st st' :
  lands (unwind cleanup body) st st' →
  body st = Ok () st' ∨ ∃ e st1, body st = Throw e st1 ∧ cleanup st1 = Ok () st'.
Proof.
  unfold lands, unwind. destruct (body st) as [[] st1|e st1| | |] eqn:E.
  - intros [?|[? ?]]; simplify_eq. by left.
  - destruct (cleanup st1) as [[] st2|e2 st2| | |] eqn:E2;
      (intros [?|[? ?]]; simplify_eq). right. eauto.
  - by intros [?|[? ?]].
  - by intros [?|[? ?]].
  - by intros [?|[? ?]].
Qed.

(** A delegating constructor: the default constructor, then a loop of
    [push_back] calls on the new list, which is destroyed if the loop
    throws. *)
Lemma construct_lands (body : M T unit) fuel st st' this :
  (∀ st1 st2, heap_ok st1 → is_Some (lists st1 !! this) → lands body st1 st2 →
     heap_ok st2 ∧ same_status st1 st2) →
  heap_ok st → lists st !! this = None →
  lands (CircularList_default this ;;; unwind (CircularList_dtor fuel this) body) st st' →
  heap_ok st' ∧ same_status st st' ∧
  ((CircularList_default this ;;; unwind (CircularList_dtor fuel this) body) st = Ok () st' →
   ring_invariant st' this).
Proof.
  intros Hbody Hheap Hnone Hrun.
  assert (∀ o, settled st o → o ≠ this) as Hne.
  { intros o Ho%settled_exists ->. rewrite Hnone in Ho. by destruct Ho. }
  pose proof Hrun as Hrun0.
  apply lands_bind in Hrun as [([] & st1 & Hd & Hrun)|(ex & Hd)].
  2:{ destruct (default_lands st st' this Hheap Hnone) as (? & ? & _); [right; by exists ex|].
      split_and!; [done..|]. unfold bind. by rewrite Hd. }
  destruct (default_lands st st1 this Hheap Hnone) as (Hheap1 & Hs1 & Hinv1); [by left|].
  specialize (Hinv1 Hd).
  assert (is_Some (lists st1 !! this)) as Hex1 by (apply settled_exists; by left).
  apply lands_unwind in Hrun as [Hb|(e & st2 & Hb & Hc)].
  - destruct (Hbody st1 st' Hheap1 Hex1) as [Hheap2 Hs2]; [by left|].
    split_and!; [done|by apply (same_status_trans st st1)|].
    intros _. by apply Hs2.
  - destruct (Hbody st1 st2 Hheap1 Hex1) as [Hheap2 Hs2]; [right; by exists e|].
    assert (is_Some (lists st2 !! this)) as Hex2.
    { apply settled_exists. left. by apply Hs2. }
    destruct (dtor_lands st2 st' this fuel Hheap2 Hex2) as (Hheap3 & Hnone3 & Hs3);
      [by left|].
    split_and!; [done| |].
    + intros o. split.
      * intros Hinv. assert (o ≠ this) by (apply Hne; by left).
        apply Hs3; [done|]. apply Hs2. by apply Hs1.
      * intros Hmv. assert (o ≠ this) by (apply Hne; by right).
        apply Hs3; [done|]. apply Hs2. by apply Hs1.
    + unfold bind, unwind. rewrite Hd, Hb, Hc. done.
Qed.

Lemma CircularList_init_lands st st' this init :
  heap_ok st → lists st !! this = None →
  lands (CircularList_init this init) st st' →
  heap_ok st' ∧ same_status st st' ∧
  (CircularList_init this init st = Ok () st' → ring_invariant st' this).
Proof.
  apply construct_lands. intros st1 st2. apply push_back_each_heap.
Qed.

Lemma CircularList_copy_lands fuel st st' this other :
  heap_ok st → lists st !! this = None →
  lands (CircularList_copy fuel this other) st st' →
  heap_ok st' ∧ same_status st st' ∧
  (CircularList_copy fuel this other st = Ok () st' → ring_invariant st' this).
Proof.
  apply construct_lands. intros st1 st2. apply copy_from_heap.
Qed.

End Lifetimes.

Section MoveCalls.
Context {T : Type} `{!Inhabited T}.
Implicit Types (st : state T) (p q x s this other : ptr) (cells : list (ptr * T)).

Lemma pair_cases (o a b : N) : o ∈ [a; b] → o = a ∨ o = b.
Proof. set_solver. Qed.

(** A call that hands the members of [other] over to [this], releasing the
    nodes [O] that [this] owned. *)
Lemma transfer_ok st st' this other lo (O : list ptr) :
  heap_ok st → store_ok st' → this ≠ other →
  lists st !! other = Some lo →
  (∀ x, nodes st' !! x = if decide (x ∈ O) then None else nodes st !! x) →
  (∀ x, x ∈ O → ∃ s cells, is_list st this s cells ∧ valid_pos s cells x) →
  lists st' !! this = Some lo →
  lists st' !! other = Some (mkList nullptr 0) →
  (∀ o, o ≠ this → o ≠ other → lists st' !! o = lists st !! o) →
  heap_ok st' ∧ moved_from st' other ∧
  (ring_invariant st other → ring_invariant st' this) ∧
  (moved_from st other → moved_from st' this) ∧
  (∀ o, o ≠ this → o ≠ other →
     (ring_invariant st o → ring_invariant st' o) ∧
     (moved_from st o → moved_from st' o)).
Proof.
  intros Hheap Hok' Hne Hlo Hn HO Hthis Hother Hrest.
  pose proof Hheap as (Hok & Hset & Hap).
  assert (is_Some (lists st !! other)) as Hexo by (rewrite Hlo; eauto).
  assert (∀ so co, is_list st other so co → is_list st' this so co) as Hgive.
  { intros so co Hl. split; [rewrite Hthis, <- Hlo; apply Hl|].
    apply (ring_frame st); [apply Hl|]. intros x Hx. apply nodes_same_views. rewrite Hn.
    rewrite decide_False; [done|]. intros (s & cells & Hl' & Hx')%HO.
    by apply (Hap this other s so cells co Hne Hl' Hl x). }
  assert (∀ s cells, ¬ is_list st' other s cells) as Hgone.
  { intros s cells Hl. by apply (is_list_not_moved st' other s cells). }
  destruct (heap_ok_frame st st' [this; other] O) as [Hheap' Hby]; try done.
  - intros o Ho. apply Hrest; set_solver.
  - intros x _ Hx. apply nodes_same_views. rewrite Hn. by rewrite decide_False.
  - intros x (s & cells & Hl & Hx)%HO. exists this, s, cells. split_and!; [set_solver|done..].
  - intros o Ho _. destruct (pair_cases _ _ _ Ho) as [-> | ->]; [|by right].
    destruct (Hset other Hexo) as [(so & co & Hl)|Hmv].
    + left. exists so, co. by apply Hgive.
    + right. unfold moved_from in *. by rewrite Hthis, <- Hlo.
  - intros o s cells x Ho Hl Hx.
    destruct (pair_cases _ _ _ Ho) as [-> | ->]; [|by destruct (Hgone s cells)].
    destruct (Hset other Hexo) as [(so & co & Hl0)|Hmv].
    + destruct (is_list_unique _ _ _ _ _ _ Hl (Hgive so co Hl0)) as [-> ->].
      right. exists other, so, co. split_and!; [set_solver|done..].
    + exfalso. apply (is_list_not_moved st' this s cells Hok' Hl).
      unfold moved_from in *. by rewrite Hthis, <- Hlo.
  - intros o1 o2 s1 s2 c1 c2 Ho1 Ho2 Hne' Hl1 Hl2.
    destruct (pair_cases _ _ _ Ho1) as [-> | ->]; [|by destruct (Hgone s1 c1)].
    destruct (pair_cases _ _ _ Ho2) as [-> | ->]; [done|by destruct (Hgone s2 c2)].
  - split_and!; [done|done| | |].
    + intros (so & co & Hl). exists so, co. by apply Hgive.
    + unfold moved_from. intros Hmv. rewrite Hthis. by rewrite Hlo in Hmv.
    + intros o Ho1 Ho2. split.
      * apply Hby. set_solver.
      * unfold moved_from. by rewrite Hrest.
Qed.

Lemma CircularList_move_any st this other lo :
  this ≠ other → lists st !! other = Some lo →
  ∃ st', CircularList_move this other st = Ok () st' ∧
    nodes st' = nodes st ∧ brk st' = brk st ∧
    lists st' = <[other := mkList nullptr 0]> (<[this := lo]> (lists st)).
Proof.
  intros Hne Hlo. eexists. split.
  - unfold CircularList_move. apply noexcept_ok.
    rewrite (bind_ok _ _ _ _ _ (get_temp_node_ok _ _ _ Hlo)).
    rewrite (bind_ok _ _ _ _ _ (get_size_ok _ _ _ Hlo)).
    unfold init_members at 1. unfold bind at 1.
    erewrite bind_ok; [|apply set_temp_node_ok; simpl; by rewrite lookup_insert_ne].
    apply set_size_ok. simpl. apply lookup_insert_eq.
  - simpl. split_and!; [done..|]. destruct lo as [so n]. simpl.
    apply map_eq. intros o.
    destruct (decide (o = other)) as [->|Ho]; [by rewrite !lookup_insert_eq|].
    by rewrite !(lookup_insert_ne _ other) by done.
Qed.

(** The move constructor in storage that holds no list. *)
Lemma move_lands st st' this other :
  heap_ok st → call_pre st (NewMove this other) →
  lands (CircularList_move this other) st st' →
  heap_ok st' ∧ moved_from st' other ∧
  (ring_invariant st other → ring_invariant st' this) ∧
  (∀ o, o ≠ other → (ring_invariant st o → ring_invariant st' o) ∧
                    (moved_from st o → moved_from st' o)).
Proof.
  intros Hheap [Hnone [lo Hlo]] Hrun.
  assert (this ≠ other) as Hne by (intros ->; congruence).
  destruct (CircularList_move_any st this other lo Hne Hlo) as (st1 & Hrun1 & Hn & Hb & Hls).
  rewrite (lands_ok _ _ _ _ Hrun1 Hrun).
  destruct (transfer_ok st st1 this other lo []) as (H1 & H2 & H3 & _ & H5); try done.
  - destruct Hheap as (Hok & _). apply (store_ok_grow st); [done|lia|rewrite Hb; apply Hok|].
    intros a. unfold next_of. rewrite Hn. by left.
  - intros x. by rewrite Hn.
  - intros x Hx. by apply elem_of_nil in Hx.
  - rewrite Hls. rewrite lookup_insert_ne by done. apply lookup_insert_eq.
  - rewrite Hls. apply lookup_insert_eq.
  - intros o Ho1 Ho2. rewrite Hls. by rewrite !lookup_insert_ne.
  - split_and!; [done..|]. intros o Ho.
    destruct (decide (o = this)) as [->|Ho']; [|by apply H5].
    split.
    + intros (s & cells & Hl & _). congruence.
    + unfold moved_from. congruence.
Qed.

(** Move assignment between two settled lists. *)
Lemma move_assign_lands st st' this other fuel :
  heap_ok st → call_pre st (MoveAssign fuel this other) → this ≠ other →
  lands (move_assign fuel this other) st st' →
  heap_ok st' ∧ moved_from st' other ∧
  (ring_invariant st other → ring_invariant st' this) ∧
  (∀ o, o ≠ this → o ≠ other →
     (ring_invariant st o → ring_invariant st' o) ∧
     (moved_from st o → moved_from st' o)).
Proof.
  intros Hheap [(l & Hl & Hfuel) [lo Hlo]] Hne Hrun.
  pose proof Hheap as (Hok & Hset & Hap).
  assert (∃ st1 (O : list ptr),
    move_assign fuel this other st = Ok () st1 ∧ store_ok st1 ∧
    (∀ x, nodes st1 !! x = if decide (x ∈ O) then None else nodes st !! x) ∧
    (∀ x, x ∈ O → ∃ s cells, is_list st this s cells ∧ valid_pos s cells x) ∧
    lists st1 = <[other := mkList nullptr 0]> (<[this := lo]> (lists st)))
    as (st1 & O & Hrun1 & Hok1 & Hn & HO & Hls).
  { assert (is_Some (lists st !! this)) as Hex by (rewrite Hl; eauto).
    destruct (Hset this Hex) as [(s & cells & Hlist)|Hmv].
    - assert (length cells < fuel)%nat as Hf.
      { rewrite (proj1 Hlist) in Hl. injection Hl as <-. simpl in Hfuel.
        by rewrite Nat2N.id in Hfuel. }
      destruct (release_ring st this s cells fuel Hok Hlist Hf)
        as (st1 & Hclear & Hdel & Hok1 & Hb & Hls & Hnodes).
      assert (lists st1 !! this = Some (mkList s 0)) as Hlk
        by (rewrite Hls; apply lookup_insert_eq).
      destruct lo as [so n].
      assert (lists (free_node s st1) !! other = Some (mkList so n)) as Hlko.
      { simpl. rewrite Hls. by rewrite lookup_insert_ne by done. }
      destruct (take_members (free_node s st1) this other _ so n Hne Hlk Hlko)
        as (st2 & Hrun2 & Hn2 & Hb2 & Hls2).
      exists st2, (s :: cells.*1). split_and!.
      + unfold move_assign. apply noexcept_ok. rewrite decide_True by done.
        rewrite (bind_ok _ _ _ _ _ Hclear).
        rewrite (bind_ok _ _ _ _ _ (get_temp_node_ok _ _ _ Hlk)). simpl.
        by rewrite (bind_ok _ _ _ _ _ Hdel).
      + apply (store_ok_grow (free_node s st1)); [done|lia|rewrite Hb2; apply Hok1|].
        intros a. unfold next_of. rewrite Hn2. by left.
      + intros x. rewrite Hn2. apply Hnodes.
      + intros x Hx. exists s, cells. split; [done|].
        apply elem_of_cons in Hx as [->|Hx]; [by left|by right].
      + rewrite Hls2. simpl. rewrite Hls. apply map_eq. intros o.
        destruct (decide (o = other)) as [->|Ho]; [by rewrite !lookup_insert_eq|].
        rewrite !(lookup_insert_ne _ other) by done.
        destruct (decide (o = this)) as [->|Ho']; [by rewrite !lookup_insert_eq|].
        by rewrite !(lookup_insert_ne _ this) by done.
    - assert (0 < fuel)%nat as Hf.
      { unfold moved_from in Hmv. rewrite Hmv in Hl. injection Hl as <-. simpl in Hfuel. lia. }
      destruct lo as [so n].
      destruct (take_members st this other _ so n Hne Hmv Hlo)
        as (st2 & Hrun2 & Hn2 & Hb2 & Hls2).
      exists st2, []. split_and!.
      + unfold move_assign. apply noexcept_ok. rewrite decide_True by done.
        rewrite (bind_ok _ _ _ _ _ (clear_moved st this fuel Hmv Hf)).
        rewrite (bind_ok _ _ _ _ _ (get_temp_node_ok _ _ _ Hmv)). simpl.
        unfold delete_Node at 1. unfold bind at 1. by rewrite decide_True by done.
      + apply (store_ok_grow st); [done|lia|rewrite Hb2; apply Hok|].
        intros a. unfold next_of. rewrite Hn2. by left.
      + intros x. by rewrite Hn2.
      + intros x Hx. by apply elem_of_nil in Hx.
      + done. }
  rewrite (lands_ok _ _ _ _ Hrun1 Hrun).
  destruct (transfer_ok st st1 this other lo O) as (H1 & H2 & H3 & _ & H5); try done.
  - rewrite Hls. rewrite lookup_insert_ne by done. apply lookup_insert_eq.
  - rewrite Hls. apply lookup_insert_eq.
  - intros o Ho1 Ho2. rewrite Hls. by rewrite !lookup_insert_ne.
Qed.

(** Any call whose behaviour is defined keeps the heap settled; only a move
    or a destructor takes the ring invariant from a list that had it, and a
    constructor that completes establishes it. *)
Lemma call_lands st st' (c : call T) :
  heap_ok st → call_pre st c → returns c st st' →
  heap_ok st' ∧
  (∀ o, ring_invariant st o → ¬ loses st c o → ring_invariant st' o) ∧
  (run_call c st = Ok () st' → establishes st st' c).
Proof.
  intros Hheap Hpre Hret. destruct c as
    [this o|fuel this other|fuel this other|this|this init|fuel this other
    |this other|fuel this]; unfold returns in Hret; cbn [run_call] in *;
    cbn [loses establishes].
  - destruct (member_step st st' this o Hheap Hpre Hret) as [H1 H2].
    split_and!; [done| |done]. intros o' Hinv _. by apply H2.
  - destruct (copy_assign_step fuel this other st st' Hheap Hpre Hret) as [H1 H2].
    split_and!; [done| |done]. intros o' Hinv _. by apply H2.
  - destruct (decide (this = other)) as [->|Hne].
    { rewrite (lands_ok _ _ _ _ (move_assign_self st other fuel) Hret).
      split_and!; [done|by intros|done]. }
    destruct (move_assign_lands st st' this other fuel Hheap Hpre Hne Hret)
      as (H1 & H2 & H3 & H4).
    split_and!; [done| |done].
    intros o Hinv Hkeep.
    destruct (decide (o = other)) as [->|Ho]; [destruct Hkeep; by eauto|].
    destruct (decide (o = this)) as [->|Ho']; [|by apply H4].
    apply H3. destruct Hpre as [_ Hexo].
    destruct Hheap as (_ & Hset & _). destruct (Hset other Hexo) as [?|Hmv]; [done|].
    destruct Hkeep. eauto.
  - destruct (default_lands st st' this Hheap Hpre Hret) as (H1 & H2 & H3).
    split_and!; [done| |done]. intros o' Hinv _. by apply H2.
  - destruct (CircularList_init_lands st st' this init Hheap Hpre Hret) as (H1 & H2 & H3).
    split_and!; [done| |done]. intros o' Hinv _. by apply H2.
  - destruct Hpre as [Hnone Hexo].
    destruct (CircularList_copy_lands fuel st st' this other Hheap Hnone Hret) as (H1 & H2 & H3).
    split_and!; [done| |done]. intros o' Hinv _. by apply H2.
  - destruct (move_lands st st' this other Hheap Hpre Hret) as (H1 & H2 & H3 & H4).
    split_and!; [done| |done]. intros o Hinv Hkeep. by apply H4.
  - assert (is_Some (lists st !! this)) as Hex by (destruct Hpre as (l & -> & _); eauto).
    destruct (dtor_lands st st' this fuel Hheap Hex Hret) as (H1 & H2 & H3).
    split_and!; [done| |done]. intros o Hinv Hkeep. by apply H3.
Qed.

Lemma heap_step_ok st st' : heap_ok st → heap_step st st' → heap_ok st'.
Proof. intros Hheap (c & Hpre & Hret). by apply (call_lands st st' c). Qed.

Lemma heap_reachable_ok st : heap_reachable st → heap_ok st.
Proof.
  intros (st0 & Hok0 & Hempty & Hsteps).
  assert (heap_ok st0) as Hheap0.
  { split_and!; [done|..].
    - intros this [l Hl]. rewrite Hempty in Hl. by rewrite lookup_empty in Hl.
    - intros this other s so cells co _ [Hl _]. rewrite Hempty in Hl.
      by rewrite lookup_empty in Hl. }
  clear Hok0 Hempty. induction Hsteps as [|st1 st2 st3 Hstep _ IH]; [done|].
  apply IH. by apply (heap_step_ok st1).
Qed.

End MoveCalls.

(** * The claims on the states of a program *)

Section HeapClaims.
Context {T : Type} `{!Inhabited T}.
Implicit Types (st : state T) (p q x s this other : ptr) (cells : list (ptr * T)).

Lemma observers_list st this s cells :
  is_list st this s cells →
  ∃ e n b en,
    empty this st = Ok e st ∧ size this st = Ok n st ∧
    begin this st = Ok b st ∧ end_ this st = Ok en st ∧
    (e = true ↔ n = 0) ∧ (n = 0 ↔ iter_eq b en = true).
Proof.
  intros Hl.
  exists (bool_decide (cells = [])), (N.of_nat (length cells)),
    (mkIter (first_or s cells.*1) s), (mkIter s s).
  split_and!.
  - by apply (empty_list _ _ s).
  - by apply (size_list _ _ s).
  - by apply begin_list.
  - by apply (end_list _ _ _ cells).
  - rewrite bool_decide_eq_true. destruct cells; simpl; split; (done || lia).
  - unfold iter_eq. cbn [current_]. rewrite bool_decide_eq_true.
    destruct cells as [|[a v] cells]; [done|]. split; [simpl; lia|].
    change (first_or s ((a, v) :: cells).*1) with a. intros ->.
    by destruct (ring_cell st s [] cells s v (proj2 Hl)) as (_ & _ & _ & ?).
Qed.




End HeapClaims.

(** ** The further properties at concrete lists *)

Lemma X1_insert_erase_round_trip_witness :
  store_ok list123 ∧ is_list list123 100 1 cells123 ∧ brk list123 < WORD ∧
  (∀ pos tn, valid_pos 1 cells123 pos →
     ∃ it st1 st2,
       insert 100 (mkIter pos tn) 9%Z list123 = Ok it st1 ∧
       erase 100 it st1 = Ok (mkIter pos 1) st2 ∧
       nodes st2 = nodes list123 ∧ lists st2 = lists list123 ∧
       is_list st2 100 1 cells123) ∧
  (∃ st2, (push_back 100 9%Z ;;; pop_back 100) list123 = Ok () st2 ∧
     nodes st2 = nodes list123 ∧ lists st2 = lists list123 ∧
     is_list st2 100 1 cells123) ∧
  (∃ st2, (push_front 100 9%Z ;;; pop_front 100) list123 = Ok () st2 ∧
     nodes st2 = nodes list123 ∧ lists st2 = lists list123 ∧
     is_list st2 100 1 cells123).
Proof.
  assert (store_ok list123) as H1 by by_computation.
  assert (is_list list123 100 1 cells123) as H2 by by_computation.
  assert (brk list123 < WORD) as H3 by by_computation.
  refine (conj H1 (conj H2 (conj H3 _))).
  exact (X1_insert_erase_round_trip list123 100 1 cells123 9%Z H1 H2 H3).
Defined.

Lemma X2_incr_decr_inverse_witness :
  is_list list123 100 1 cells123 ∧
  (∀ a, a ∈ cells123.*1 →
     (it <- incr (mkIter a 1) ;; decr it) list123 = Ok (mkIter a 1) list123) ∧
  (∀ pos, valid_pos 1 cells123 pos → pos ≠ first_or 1 cells123.*1 →
     (it <- decr (mkIter pos 1) ;; incr it) list123 = Ok (mkIter pos 1) list123) ∧
  (cells123 ≠ [] →
     ∃ b e, begin 100 list123 = Ok b list123 ∧ end_ 100 list123 = Ok e list123 ∧
       (it <- decr b ;; incr it) list123 = Ok e list123 ∧ iter_ne b e = true).
Proof.
  assert (is_list list123 100 1 cells123) as H1 by by_computation.
  refine (conj H1 _).
  exact (X2_incr_decr_inverse list123 100 1 cells123 H1).
Defined.

Lemma X3_positions_by_index_witness :
  store_ok list123 ∧ is_list list123 100 1 cells123 ∧
  (∀ i, (i ≤ length cells123)%nat →
     nth_pos 100 i list123 = Ok (mkIter (first_or 1 (drop i cells123).*1) 1) list123) ∧
  (∀ i, (length cells123 < i)%nat → nth_pos 100 i list123 = Throw out_of_range list123) ∧
  (∀ i w, cells123.*2 !! i = Some w →
     (it <- nth_pos 100 i ;; deref it) list123 = Ok w list123) ∧
  (∀ i v, (i ≤ length cells123)%nat → brk list123 < WORD →
     ∃ st', (it <- nth_pos 100 i ;; _ <- insert 100 it v ;; ret ()) list123 = Ok () st' ∧
       ∀ fuel, (S (length cells123) < fuel)%nat →
         collect_forward fuel 100 st' =
         Ok (take i cells123.*2 ++ v :: drop i cells123.*2) st') ∧
  (∀ i, (i < length cells123)%nat →
     ∃ st', (it <- nth_pos 100 i ;; _ <- erase 100 it ;; ret ()) list123 = Ok () st' ∧
       ∀ fuel, (length cells123 ≤ fuel)%nat →
         collect_forward fuel 100 st' =
         Ok (take i cells123.*2 ++ drop (S i) cells123.*2) st').
Proof.
  assert (store_ok list123) as H1 by by_computation.
  assert (is_list list123 100 1 cells123) as H2 by by_computation.
  refine (conj H1 (conj H2 _)).
  exact (X3_positions_by_index list123 100 1 cells123 H1 H2).
Defined.

Lemma X4_error_contract_witness :
  store_ok list0 ∧ is_list list0 100 1 [] ∧ op_pre list0 100 PopBack ∧
  (∀ e st', run_op 100 PopBack list0 = Throw e st' ↔
     expected_throw list0 1 [] PopBack = Some e ∧ st' = list0) ∧
  (expected_throw list0 1 [] PopBack = None →
     ∃ st', run_op 100 PopBack list0 = Ok () st').
Proof.
  assert (store_ok list0) as H1 by by_computation.
  assert (is_list list0 100 1 []) as H2 by by_computation.
  assert (op_pre list0 100 PopBack) as H3 by exact I.
  refine (conj H1 (conj H2 (conj H3 _))).
  exact (X4_error_contract list0 100 1 [] PopBack H1 H2 H3).
Defined.

Lemma X5_clear_releases_elements_witness :
  store_ok list123 ∧ is_list list123 100 1 cells123 ∧ (length cells123 < 4)%nat ∧
  ∃ st', clear 4 100 list123 = Ok () st' ∧
    is_list st' 100 1 [] ∧
    lists st' = <[100 := mkList 1 0]> (lists list123) ∧
    brk st' = brk list123 ∧
    (∀ x, x ∈ cells123.*1 → nodes st' !! x = None) ∧
    (∀ x, x ∉ 1 :: cells123.*1 → nodes st' !! x = nodes list123 !! x) ∧
    value_of st' 1 = value_of list123 1 ∧
    end_ 100 list123 = Ok (mkIter 1 1) list123 ∧
    end_ 100 st' = Ok (mkIter 1 1) st' ∧
    begin 100 st' = Ok (mkIter 1 1) st' ∧
    size 100 st' = Ok 0 st' ∧
    clear 4 100 st' = Ok () st'.
Proof.
  assert (store_ok list123) as H1 by by_computation.
  assert (is_list list123 100 1 cells123) as H2 by by_computation.
  assert (length cells123 < 4)%nat as H3 by by_computation.
  refine (conj H1 (conj H2 (conj H3 _))).
  exact (X5_clear_releases_elements list123 100 1 cells123 4 H1 H2 H3).
Defined.

Lemma X6_destructor_releases_ring_witness :
  store_ok list123 ∧ is_list list123 100 1 cells123 ∧ (length cells123 < 4)%nat ∧
  ∃ st', CircularList_dtor 4 100 list123 = Ok () st' ∧
    store_ok st' ∧ brk st' = brk list123 ∧
    lists st' = delete 100 (lists list123) ∧
    (∀ x, nodes st' !! x =
          if decide (x ∈ 1 :: cells123.*1) then None else nodes list123 !! x) ∧
    (∀ other so co, other ≠ 100 → is_list list123 other so co →
       apart 1 cells123 so co → is_list st' other so co).
Proof.
  assert (store_ok list123) as H1 by by_computation.
  assert (is_list list123 100 1 cells123) as H2 by by_computation.
  assert (length cells123 < 4)%nat as H3 by by_computation.
  refine (conj H1 (conj H2 (conj H3 _))).
  exact (X6_destructor_releases_ring list123 100 1 cells123 4 H1 H2 H3).
Defined.

Lemma X7_construct_destroy_round_trip_witness :
  store_ok (empty_state : state Z) ∧
  brk (empty_state : state Z) + N.of_nat (length [1; 2; 3]%Z) + 1 ≤ WORD ∧
  (length [1; 2; 3]%Z < 4)%nat ∧
  lists (empty_state : state Z) !! 100 = None ∧
  ∃ st1 st2,
    CircularList_init 100 [1; 2; 3]%Z empty_state = Ok () st1 ∧
    CircularList_dtor 4 100 st1 = Ok () st2 ∧
    nodes st2 = nodes (empty_state : state Z) ∧
    lists st2 = lists (empty_state : state Z).
Proof.
  assert (store_ok (empty_state : state Z)) as H1 by by_computation.
  assert (brk (empty_state : state Z) + N.of_nat (length [1; 2; 3]%Z) + 1 ≤ WORD) as H2
    by by_computation.
  assert (length [1; 2; 3]%Z < 4)%nat as H3 by by_computation.
  assert (lists (empty_state : state Z) !! 100 = None) as H4 by reflexivity.
  refine (conj H1 (conj H2 (conj H3 (conj H4 _)))).
  exact (X7_construct_destroy_round_trip empty_state 100 [1; 2; 3]%Z 4 H1 H2 H3 H4).
Defined.

Lemma X8_move_constructor_transfers_witness :
  store_ok list123 ∧ 200 ≠ 100 ∧ is_list list123 100 1 cells123 ∧
  ∃ st', CircularList_move 200 100 list123 = Ok () st' ∧
    nodes st' = nodes list123 ∧ brk st' = brk list123 ∧
    lists st' = <[100 := mkList nullptr 0]>
                  (<[200 := mkList 1 (N.of_nat (length cells123))]> (lists list123)) ∧
    is_list st' 200 1 cells123 ∧ moved_from st' 100 ∧
    (∀ fuel, (length cells123 < fuel)%nat →
       collect_forward fuel 200 st' = Ok cells123.*2 st') ∧
    (∀ it, iter_of list123 100 it → iter_of st' 200 it) ∧
    (∀ it v, deref it list123 = Ok v list123 → deref it st' = Ok v st') ∧
    (∀ it it', incr it list123 = Ok it' list123 → incr it st' = Ok it' st') ∧
    (∀ it it', decr it list123 = Ok it' list123 → decr it st' = Ok it' st').
Proof.
  assert (store_ok list123) as H1 by by_computation.
  assert (200 ≠ 100) as H2 by by_computation.
  assert (is_list list123 100 1 cells123) as H3 by by_computation.
  refine (conj H1 (conj H2 (conj H3 _))).
  exact (X8_move_constructor_transfers list123 200 100 1 cells123 H1 H2 H3).
Defined.

Lemma X9_moved_from_object_witness :
  store_ok moved123 ∧ moved_from moved123 100 ∧
  empty 100 moved123 = Ok true moved123 ∧
  front 100 moved123 = Throw out_of_range moved123 ∧
  begin 100 moved123 = Undefined ∧
  (∀ v, brk moved123 < WORD → push_back 100 v moved123 = Undefined).
Proof.
  assert (store_ok moved123) as H1 by by_computation.
  assert (moved_from moved123 100) as H2 by (vm_compute; reflexivity).
  refine (conj H1 (conj H2 _)).
  destruct (X9_moved_from_object moved123 100 H1 H2)
    as ((_ & He & _) & (Hf & _) & _ & _ & (Hb & _) & Hp & _).
  exact (conj He (conj Hf (conj Hb Hp))).
Defined.

Lemma X10_move_assignment_witness :
  store_ok two_lists ∧ 200 ≠ 100 ∧
  is_list two_lists 200 5 cells78 ∧ is_list two_lists 100 1 cells123 ∧
  apart 5 cells78 1 cells123 ∧ (length cells78 < 3)%nat ∧
  (∃ st', move_assign 3 200 100 two_lists = Ok () st' ∧
     store_ok st' ∧ brk st' = brk two_lists ∧
     is_list st' 200 1 cells123 ∧ moved_from st' 100 ∧
     (∀ x, nodes st' !! x =
           if decide (x ∈ 5 :: cells78.*1) then None else nodes two_lists !! x) ∧
     (∀ o, o ≠ 200 → o ≠ 100 → lists st' !! o = lists two_lists !! o)) ∧
  move_assign 3 200 200 two_lists = Ok () two_lists.
Proof.
  assert (store_ok two_lists) as H1 by by_computation.
  assert (200 ≠ 100) as H2 by by_computation.
  assert (is_list two_lists 200 5 cells78) as H3 by by_computation.
  assert (is_list two_lists 100 1 cells123) as H4 by by_computation.
  assert (apart 5 cells78 1 cells123) as H5 by by_computation.
  assert (length cells78 < 3)%nat as H6 by by_computation.
  refine (conj H1 (conj H2 (conj H3 (conj H4 (conj H5 (conj H6 _)))))).
  exact (X10_move_assignment two_lists 200 100 5 1 cells78 cells123 3 H1 H2 H3 H4 H5 H6).
Defined.

Lemma X11_clear_terminates_witness :
  lists list123 !! 100 = Some (mkList 1 3) ∧ (N.to_nat (size_ (mkList 1 3)) < 4)%nat ∧
  clear 4 100 list123 ≠ OutOfFuel ∧
  (∀ e st', clear 4 100 list123 ≠ Throw e st') ∧
  (∀ st', clear 4 100 list123 = Ok () st' → size 100 st' = Ok 0 st') ∧
  (size_ (mkList 1 3) = 0 → clear 4 100 list123 = Ok () list123 ∧
     ∀ pos it st', erase 100 pos list123 ≠ Ok it st' ∧ pop_front 100 list123 ≠ Ok () st').
Proof.
  assert (lists list123 !! 100 = Some (mkList 1 3)) as H1 by (vm_compute; reflexivity).
  assert (N.to_nat (size_ (mkList 1 3)) < 4)%nat as H2 by by_computation.
  refine (conj H1 (conj H2 _)).
  exact (X11_clear_terminates list123 100 (mkList 1 3) 4 H1 H2).
Defined.

Lemma X12_sequence_semantics_witness :
  store_ok list123 ∧ is_list list123 100 1 cells123 ∧
  contents list123 100 cells123.*2 ∧
  (∃ st', pop_front 100 list123 = Ok () st' ∧ contents st' 100 (tail cells123.*2)) ∧
  (∃ st', pop_back 100 list123 = Ok () st' ∧ contents st' 100 (removelast cells123.*2)) ∧
  front 100 list123 = Ok 1%Z list123 ∧ back 100 list123 = Ok 3%Z list123.
Proof.
  assert (store_ok list123) as H1 by by_computation.
  assert (is_list list123 100 1 cells123) as H2 by by_computation.
  assert (cells123 ≠ []) as H3 by by_computation.
  refine (conj H1 (conj H2 _)).
  destruct (X12_sequence_semantics list123 100 1 cells123 H1 H2)
    as (Hc & _ & _ & Hpf & Hpb & _ & Hf & Hb).
  exact (conj Hc (conj (Hpf H3) (conj (Hpb H3) (conj Hf Hb)))).
Defined.

Lemma X14_erase_foreign_iterator_witness :
  store_ok two_lists ∧ 200 ≠ 100 ∧
  is_list two_lists 200 5 cells78 ∧
  is_list two_lists 100 1 ([(2, 1%Z)] ++ (3, 2%Z) :: [(4, 3%Z)]) ∧
  apart 5 cells78 1 ([(2, 1%Z)] ++ (3, 2%Z) :: [(4, 3%Z)]) ∧
  cells78 ≠ [] ∧
  ∃ st', erase 200 (mkIter 3 1) two_lists = Ok (mkIter 4 5) st' ∧
    nodes st' !! 3 = None ∧
    ring st' 5 cells78 ∧
    size 200 st' = Ok (N.of_nat (length cells78) - 1) st' ∧
    ring st' 1 ([(2, 1%Z)] ++ [(4, 3%Z)]) ∧
    size 100 st' = Ok (N.of_nat (1 + 1) + 1) st' ∧
    ¬ ring_invariant st' 200 ∧ ¬ ring_invariant st' 100.
Proof.
  assert (store_ok two_lists) as H1 by by_computation.
  assert (200 ≠ 100) as H2 by by_computation.
  assert (is_list two_lists 200 5 cells78) as H3 by by_computation.
  assert (is_list two_lists 100 1 ([(2, 1%Z)] ++ (3, 2%Z) :: [(4, 3%Z)])) as H4
    by by_computation.
  assert (apart 5 cells78 1 ([(2, 1%Z)] ++ (3, 2%Z) :: [(4, 3%Z)])) as H5
    by by_computation.
  assert (cells78 ≠ []) as H6 by by_computation.
  refine (conj H1 (conj H2 (conj H3 (conj H4 (conj H5 (conj H6 _)))))).
  exact (proj2 (X14_erase_foreign_iterator two_lists 200 100 5 1 cells78
                  [(2, 1%Z)] [(4, 3%Z)] 3 2%Z 1 H1 H2 H3 H4 H5) H6).
Defined.

Lemma X15_copy_assignment_witness :
  store_ok two_lists ∧ 200 ≠ 100 ∧
  is_list two_lists 200 5 cells78 ∧ is_list two_lists 100 1 cells123 ∧
  apart 5 cells78 1 cells123 ∧
  (length cells78 < 4)%nat ∧ (length cells123 < 4)%nat ∧
  brk two_lists + N.of_nat (length cells123) ≤ WORD ∧
  (∃ st' new, copy_assign 4 200 100 two_lists = Ok () st' ∧
     is_list st' 200 5 new ∧ new.*2 = cells123.*2 ∧ is_list st' 100 1 cells123 ∧
     (∀ x, is_Some (nodes st' !! x) ↔
           x ∈ new.*1 ∨ (is_Some (nodes two_lists !! x) ∧ x ∉ cells78.*1)) ∧
     (∀ x, x ∉ 5 :: cells78.*1 → x ∉ new.*1 → nodes st' !! x = nodes two_lists !! x) ∧
     (∀ o, o ≠ 200 → lists st' !! o = lists two_lists !! o)) ∧
  copy_assign 4 200 200 two_lists = Ok () two_lists.
Proof.
  assert (store_ok two_lists) as H1 by by_computation.
  assert (200 ≠ 100) as H2 by by_computation.
  assert (is_list two_lists 200 5 cells78) as H3 by by_computation.
  assert (is_list two_lists 100 1 cells123) as H4 by by_computation.
  assert (apart 5 cells78 1 cells123) as H5 by by_computation.
  assert (length cells78 < 4)%nat as H6 by by_computation.
  assert (length cells123 < 4)%nat as H7 by by_computation.
  assert (brk two_lists + N.of_nat (length cells123) ≤ WORD) as H8 by by_computation.
  refine (conj H1 (conj H2 (conj H3 (conj H4 (conj H5 (conj H6 (conj H7 (conj H8 _)))))))).
  exact (X15_copy_assignment two_lists 200 100 5 1 cells78 cells123 4
           H1 H2 H3 H4 H5 H6 H7 H8).
Defined.

Lemma X16_iterator_validity_witness :
  store_ok list123 ∧ is_list list123 100 1 cells123 ∧
  ∃ it st', erase 100 (mkIter 3 1) list123 = Ok it st' ∧
    (∀ b w, (b, w) ∈ [(2, 1%Z)] ++ [(4, 3%Z)] → deref (mkIter b 1) st' = Ok w st') ∧
    deref (mkIter 3 1) st' = Undefined ∧
    incr (mkIter 3 1) st' = Undefined ∧
    decr (mkIter 3 1) st' = Undefined ∧
    end_ 100 st' = Ok (mkIter 1 1) st'.
Proof.
  assert (store_ok list123) as H1 by by_computation.
  assert (is_list list123 100 1 cells123) as H2 by by_computation.
  refine (conj H1 (conj H2 _)).
  exact (proj1 (X16_iterator_validity list123 100 1 cells123 H1 H2)
           [(2, 1%Z)] 3 2%Z [(4, 3%Z)] 1 eq_refl).
Defined.

Lemma X17_assign_from_initializer_list_witness :
  store_ok list123 ∧ 100 ≠ 300 ∧ is_list list123 100 1 cells123 ∧
  lists list123 !! 300 = None ∧ (length cells123 < 4)%nat ∧
  brk list123 + N.of_nat (length [7; 8]%Z) + 1 ≤ WORD ∧
  ∃ st' s' cells',
    assign_from_init 4 100 300 [7; 8]%Z list123 = Ok () st' ∧
    store_ok st' ∧ is_list st' 100 s' cells' ∧ cells'.*2 = [7; 8]%Z ∧
    contents st' 100 [7; 8]%Z ∧
    lists st' = <[100 := mkList s' (N.of_nat (length [7; 8]%Z))]> (lists list123) ∧
    (∀ x, is_Some (nodes st' !! x) ↔
          valid_pos s' cells' x ∨ (is_Some (nodes list123 !! x) ∧ x ∉ 1 :: cells123.*1)) ∧
    (∀ x, x ∉ 1 :: cells123.*1 → ¬ valid_pos s' cells' x →
          nodes st' !! x = nodes list123 !! x).
Proof.
  assert (store_ok list123) as H1 by by_computation.
  assert (100 ≠ 300) as H2 by by_computation.
  assert (is_list list123 100 1 cells123) as H3 by by_computation.
  assert (lists list123 !! 300 = None) as H4 by (vm_compute; reflexivity).
  assert (length cells123 < 4)%nat as H5 by by_computation.
  assert (brk list123 + N.of_nat (length [7; 8]%Z) + 1 ≤ WORD) as H6 by by_computation.
  refine (conj H1 (conj H2 (conj H3 (conj H4 (conj H5 (conj H6 _)))))).
  exact (X17_assign_from_initializer_list list123 100 300 1 cells123 [7; 8]%Z 4
           H1 H2 H3 H4 H5 H6).
Defined.

Lemma X18_post_step_and_arrow_witness :
  is_list list123 100 1 cells123 ∧
  (∀ i a v, cells123 !! i = Some (a, v) →
     arrow (mkIter a 1) list123 = Ok a list123 ∧
     value_of list123 a = Some v ∧
     deref (mkIter a 1) list123 = Ok v list123 ∧
     post_incr (mkIter a 1) list123 =
       Ok (mkIter a 1, mkIter (first_or 1 (drop (S i) cells123).*1) 1) list123 ∧
     post_decr (mkIter a 1) list123 =
       Ok (mkIter a 1,
           mkIter (match i with
                   | O => last_or 1 cells123.*1
                   | S j => first_or 1 (drop j cells123).*1
                   end) 1) list123) ∧
  arrow (mkIter 1 1) list123 = Throw out_of_range list123 ∧
  post_incr (mkIter 1 1) list123 = Throw out_of_range list123 ∧
  post_decr (mkIter 1 1) list123 =
    Ok (mkIter 1 1, mkIter (last_or 1 cells123.*1) 1) list123.
Proof.
  assert (is_list list123 100 1 cells123) as H1 by by_computation.
  refine (conj H1 _).
  exact (X18_post_step_and_arrow list123 100 1 cells123 H1).
Defined.

(** ** The claims on a heap of two lists *)

Lemma two_lists_reachable : heap_reachable two_lists.
Proof.
  exists empty_state. split_and!; [by_computation|reflexivity|].
  apply (rtc_l _ _ list123).
  { exists (NewInit 100 [1; 2; 3]%Z). split; [reflexivity|]. left. vm_compute. reflexivity. }
  apply (rtc_l _ _ two_lists); [|apply rtc_refl].
  exists (NewInit 200 [7; 8]%Z). split; [vm_compute; reflexivity|].
  left. vm_compute. reflexivity.
Defined.




